(** * Karaokio: job orchestration, cache index and status store

    A shallow embedding of the orchestration core of the karaokio
    repository:

    - [src/lib/database.ts]             (module [KaraokeDB])
    - [src/lib/cacheManager.ts]         (module [CacheManager])
    - [src/lib/autonomousProcessor.ts]  (module [AutonomousProcessor])
    - [src/lib/jobProcessor.ts]         (module [JobProcessor])
    - [src/app/api/queue/.../route.ts]  (module [QueueRoutes])

    Database tables are lists of rows in rowid order, the module level
    [Map]s are [gmap]s with string keys, the file system is a [gmap] from
    paths to nodes, and asynchronous functions are terms of a small
    resumption monad [Proc] in which every [await] is an explicit node. *)

From Stdlib Require Import ZArith QArith Qround String Ascii List Lia Bool.
From Stdlib Require Import Sorting.Sorted Permutation DecimalString.

From stdpp Require Import base option list gmap strings sorting.

Local Open Scope string_scope.
Local Open Scope list_scope.
Local Open Scope Z_scope.

(* ================================================================== *)
(** ** JavaScript strings *)
(* ================================================================== *)

(** A JavaScript string is modelled by the sequence of its UTF-16 code
    units, for the strings whose code units are all below 0x100 (Basic
    Latin and Latin-1 Supplement): an [ascii] is one code unit.  On these
    strings [toLowerCase], [trim] and the other functions below are those
    of ECMAScript; strings with a character from U+0100 on are outside
    the model.  Where the code turns a string into bytes (a hash, a
    file) it encodes it in UTF-8, which [utf8] does here.  The literals
    of this file hold ASCII characters only; a character from U+0080 to
    U+00FF is written by its code, as [String "201" ""] for U+00C9. *)
Module JS.

(** The lower-case mapping of Unicode below U+0100: A-Z, and the letters
    from U+00C0 to U+00DE without the multiplication sign U+00D7, are 32
    below their lower-case forms; nothing else changes. *)
Definition lower_char (c : ascii) : ascii :=
  let n := nat_of_ascii c in
  if ((65 <=? n)%nat && (n <=? 90)%nat)
     || ((192 <=? n)%nat && (n <=? 222)%nat && negb (n =? 215)%nat)
  then ascii_of_nat (n + 32) else c.

(** [String.prototype.toLowerCase] *)
Fixpoint toLowerCase (s : string) : string :=
  match s with
  | EmptyString => EmptyString
  | String c s' => String (lower_char c) (toLowerCase s')
  end.

(** ECMAScript WhiteSpace and LineTerminator code points below U+0100:
    TAB, LF, VT, FF, CR, SP and the no-break space U+00A0. *)
Definition is_space (c : ascii) : bool :=
  let n := nat_of_ascii c in
  ((9 <=? n)%nat && (n <=? 13)%nat) || (n =? 32)%nat || (n =? 160)%nat.

Fixpoint trimStart (s : string) : string :=
  match s with
  | EmptyString => EmptyString
  | String c s' => if is_space c then trimStart s' else s
  end.

(** [trimEnd] drops the longest white suffix: a character is kept when
    it is not white space or when something is kept after it. *)
Fixpoint trimEnd (s : string) : string :=
  match s with
  | EmptyString => EmptyString
  | String c s' =>
      match trimEnd s' with
      | EmptyString => if is_space c then EmptyString else String c EmptyString
      | t => String c t
      end
  end.

(** [String.prototype.trim] *)
Definition trim (s : string) : string := trimEnd (trimStart s).

(** Truthiness of a [string | null | undefined] value: the empty string
    is falsy like [null]. *)
Definition truthy (v : option string) : bool :=
  match v with
  | Some s => negb (String.eqb s "")
  | None => false
  end.

(** [v || undefined] on a [string | null] value. *)
Definition or_undefined (v : option string) : option string :=
  if truthy v then v else None.

(** [String.prototype.startsWith] *)
Fixpoint startsWith (s p : string) : bool :=
  match p, s with
  | EmptyString, _ => true
  | String _ _, EmptyString => false
  | String b p', String a s' => Ascii.eqb a b && startsWith s' p'
  end.

(** [String.prototype.includes] *)
Fixpoint includes (s p : string) : bool :=
  startsWith s p ||
  match s with
  | EmptyString => false
  | String _ s' => includes s' p
  end.

(** [String.prototype.endsWith] *)
Fixpoint endsWith (s p : string) : bool :=
  String.eqb s p ||
  match s with
  | EmptyString => false
  | String _ s' => endsWith s' p
  end.

(** [Math.round] on exact rationals: the nearest integer, halves going
    up. *)
Definition Math_round (x : Q) : Z := Qfloor (x + (1 # 2))%Q.

(** The bytes of the UTF-8 encoding: a code unit below 0x80 is one byte,
    one from 0x80 to 0xff is two. *)
Fixpoint utf8 (s : string) : string :=
  match s with
  | EmptyString => EmptyString
  | String c s' =>
      let n := nat_of_ascii c in
      if (n <? 128)%nat then String c (utf8 s')
      else String (ascii_of_nat (192 + n / 64))
             (String (ascii_of_nat (128 + n mod 64)) (utf8 s'))
  end.

End JS.

(* ================================================================== *)
(** ** SHA-256 (FIPS 180-4), as used by [crypto.createHash('sha256')] *)
(* ================================================================== *)

Module SHA256.

Definition w32 (x : Z) : Z := x mod 2 ^ 32.
Definition add32 (x y : Z) : Z := w32 (x + y).
Definition rotr (n x : Z) : Z :=
  Z.lor (Z.shiftr x n) (w32 (Z.shiftl x (32 - n))).
Definition not32 (x : Z) : Z := Z.lxor x 0xffffffff.

Definition Ch (x y z : Z) : Z := Z.lxor (Z.land x y) (Z.land (not32 x) z).
Definition Maj (x y z : Z) : Z :=
  Z.lxor (Z.lxor (Z.land x y) (Z.land x z)) (Z.land y z).
Definition Sigma0 (x : Z) : Z :=
  Z.lxor (Z.lxor (rotr 2 x) (rotr 13 x)) (rotr 22 x).
Definition Sigma1 (x : Z) : Z :=
  Z.lxor (Z.lxor (rotr 6 x) (rotr 11 x)) (rotr 25 x).
Definition sigma0 (x : Z) : Z :=
  Z.lxor (Z.lxor (rotr 7 x) (rotr 18 x)) (Z.shiftr x 3).
Definition sigma1 (x : Z) : Z :=
  Z.lxor (Z.lxor (rotr 17 x) (rotr 19 x)) (Z.shiftr x 10).

(** The constants are the first 32 bits of the fractional parts of the
    cube roots (for [K]) and of the square roots (for [H0]) of the first
    primes. *)
Definition is_prime (n : Z) : bool :=
  forallb (fun d => negb (n mod d =? 0)) (map Z.of_nat (seq 2 (Z.to_nat n - 2))).

Definition primes : list Z :=
  List.filter is_prime (map Z.of_nat (seq 2 310)).

(** The integer [k]-th root of [n], one bit after the other. *)
Fixpoint iroot (k n : Z) (bits : nat) (r : Z) : Z :=
  match bits with
  | O => r
  | S bits' =>
      let r' := r + 2 ^ Z.of_nat bits' in
      iroot k n bits' (if r' ^ k <=? n then r' else r)
  end.

Definition frac_root (k p : Z) : Z := w32 (iroot k (p * 2 ^ (32 * k)) 40 0).

Definition K : list Z := Eval vm_compute in map (frac_root 3) primes.

Definition H0 : list Z := Eval vm_compute in map (frac_root 2) (take 8 primes).

(** Padding: a 1 bit, zeros up to 56 mod 64 bytes, then the bit length
    as a 64-bit big-endian integer. *)
Fixpoint be_bytes (n : nat) (x : Z) : list Z :=
  match n with
  | O => []
  | S n' => (Z.shiftr x (8 * Z.of_nat n')) mod 256 :: be_bytes n' x
  end.

Definition pad (msg : list Z) : list Z :=
  let len := Z.of_nat (length msg) in
  let zeros := Z.to_nat ((55 - len) mod 64) in
  msg ++ [0x80] ++ repeat 0 zeros ++ be_bytes 8 (8 * len).

Fixpoint be_word (bs : list Z) (acc : Z) : Z :=
  match bs with
  | [] => acc
  | b :: bs' => be_word bs' (acc * 256 + b)
  end.

(** Cut a byte list into big-endian words of four bytes. *)
Fixpoint words (fuel : nat) (bs : list Z) : list Z :=
  match fuel, bs with
  | S fuel', _ :: _ => be_word (take 4 bs) 0 :: words fuel' (drop 4 bs)
  | _, _ => []
  end.

(** Message schedule, kept newest first: [ws] holds W(t-1), W(t-2), ... *)
Fixpoint schedule (n : nat) (ws : list Z) : list Z :=
  match n with
  | O => ws
  | S n' =>
      let wt := add32 (add32 (sigma1 (nth 1 ws 0)) (nth 6 ws 0))
                      (add32 (sigma0 (nth 14 ws 0)) (nth 15 ws 0)) in
      schedule n' (wt :: ws)
  end.

Record Vars := mkVars { va : Z; vb : Z; vc : Z; vd : Z;
                        ve : Z; vf : Z; vg : Z; vh : Z }.

Definition round (v : Vars) (kw : Z * Z) : Vars :=
  let t1 := add32 (add32 (add32 (vh v) (Sigma1 (ve v)))
                         (add32 (Ch (ve v) (vf v) (vg v)) (fst kw)))
                  (snd kw) in
  let t2 := add32 (Sigma0 (va v)) (Maj (va v) (vb v) (vc v)) in
  mkVars (add32 t1 t2) (va v) (vb v) (vc v) (add32 (vd v) t1) (ve v) (vf v) (vg v).

Definition of_list (h : list Z) : Vars :=
  mkVars (nth 0 h 0) (nth 1 h 0) (nth 2 h 0) (nth 3 h 0)
         (nth 4 h 0) (nth 5 h 0) (nth 6 h 0) (nth 7 h 0).

Definition to_list (v : Vars) : list Z :=
  [va v; vb v; vc v; vd v; ve v; vf v; vg v; vh v].

Definition compress (h : list Z) (block : list Z) : list Z :=
  let ws := rev (schedule 48 (rev block)) in
  let v := fold_left round (combine K ws) (of_list h) in
  map (fun p => add32 (fst p) (snd p)) (combine h (to_list v)).

Fixpoint blocks (fuel : nat) (h : list Z) (ws : list Z) : list Z :=
  match fuel, ws with
  | S fuel', _ :: _ => blocks fuel' (compress h (take 16 ws)) (drop 16 ws)
  | _, _ => h
  end.

Definition digest (msg : list Z) : list Z :=
  let p := pad msg in
  let ws := words (length p) p in
  flat_map (be_bytes 4) (blocks (length ws) H0 ws).

Definition hex_digit (n : Z) : ascii :=
  ascii_of_nat (Z.to_nat (if n <? 10 then 48 + n else 87 + n)).

Fixpoint hex (bs : list Z) : string :=
  match bs with
  | [] => EmptyString
  | b :: bs' => String (hex_digit (b / 16)) (String (hex_digit (b mod 16)) (hex bs'))
  end.

Fixpoint bytes_of (s : string) : list Z :=
  match s with
  | EmptyString => []
  | String c s' => Z.of_nat (nat_of_ascii c) :: bytes_of s'
  end.

(** [crypto.createHash('sha256').update(s).digest('hex')] *)
Definition sha256_hex (s : string) : string := hex (digest (bytes_of s)).

End SHA256.


(* ================================================================== *)
(** ** Node's [path] module (POSIX flavour) *)
(* ================================================================== *)

Module path.

Definition slash : ascii := "/"%char.

Fixpoint to_list (s : string) : list ascii :=
  match s with
  | EmptyString => []
  | String c s' => c :: to_list s'
  end.

Fixpoint of_list (l : list ascii) : string :=
  match l with
  | [] => EmptyString
  | c :: l' => String c (of_list l')
  end.

Fixpoint drop_while (f : ascii -> bool) (l : list ascii) : list ascii :=
  match l with
  | [] => []
  | c :: l' => if f c then drop_while f l' else l
  end.

(** [path.dirname]: scanning from the end down to index 1, skip the
    trailing slashes and the last segment; what precedes the slash that
    is found is the result. *)
Definition dirname (p : string) : string :=
  match p with
  | EmptyString => "."
  | String c0 rest =>
      let hasRoot := Ascii.eqb c0 slash in
      let r := drop_while (fun c => negb (Ascii.eqb c slash))
                 (drop_while (fun c => Ascii.eqb c slash) (rev (to_list rest))) in
      match r with
      | [] => if hasRoot then "/" else "."
      | _ :: before =>
          match before with
          | [] => if hasRoot then "//" else String c0 EmptyString
          | _ => String c0 (of_list (rev before))
          end
      end
  end.

(** Split at every slash. *)
Fixpoint split (l : list ascii) (cur : list ascii) : list (list ascii) :=
  match l with
  | [] => [rev cur]
  | c :: l' => if Ascii.eqb c slash then rev cur :: split l' [] else split l' (c :: cur)
  end.

Definition is_dot (seg : list ascii) : bool := String.eqb (of_list seg) ".".
Definition is_dotdot (seg : list ascii) : bool := String.eqb (of_list seg) "..".

(** [normalizeString]: the stack of kept segments, newest first. *)
Fixpoint normalizeSegments (allowAboveRoot : bool) (segs : list (list ascii))
    (res : list (list ascii)) : list (list ascii) :=
  match segs with
  | [] => rev res
  | seg :: segs' =>
      if match seg with [] => true | _ => is_dot seg end
      then normalizeSegments allowAboveRoot segs' res
      else if is_dotdot seg then
        match res with
        | top :: res' =>
            if is_dotdot top
            then normalizeSegments allowAboveRoot segs'
                   (if allowAboveRoot then seg :: res else res)
            else normalizeSegments allowAboveRoot segs' res'
        | [] => normalizeSegments allowAboveRoot segs'
                  (if allowAboveRoot then [seg] else [])
        end
      else normalizeSegments allowAboveRoot segs' (seg :: res)
  end.

Fixpoint join_segments (segs : list (list ascii)) : list ascii :=
  match segs with
  | [] => []
  | [seg] => seg
  | seg :: segs' => seg ++ slash :: join_segments segs'
  end.

(** [path.normalize] *)
Definition normalize (p : string) : string :=
  match to_list p with
  | [] => "."
  | c0 :: _ as l =>
      let isAbsolute := Ascii.eqb c0 slash in
      let trailingSeparator :=
        match rev l with c :: _ => Ascii.eqb c slash | [] => false end in
      let body := join_segments (normalizeSegments (negb isAbsolute) (split l []) []) in
      match body with
      | [] => if isAbsolute then "/" else if trailingSeparator then "./" else "."
      | _ =>
          let body' := if trailingSeparator then body ++ [slash] else body in
          of_list (if isAbsolute then slash :: body' else body')
      end
  end.

(** [path.join(a, b)]: the non-empty arguments joined by a slash, then
    normalized. *)
Definition join (a b : string) : string :=
  match a, b with
  | EmptyString, EmptyString => "."
  | EmptyString, _ => normalize b
  | _, EmptyString => normalize a
  | _, _ => normalize (a +:+ "/" +:+ b)
  end.

End path.




(* ================================================================== *)
(** ** Data model *)
(* ================================================================== *)

(** [QueuedSong['status']] of [src/types/queue.ts]. *)
Inductive Status : Type :=
| queued | processing | ready | playing | completed | failed.

#[global] Instance Status_eq_dec : EqDecision Status.
Proof. solve_decision. Defined.

(** [User] of [src/types/queue.ts] and the row of table [users]. *)
Module User.
Record t : Type := mk { id : string; name : string; color : string }.
End User.

(** A row of table [songs]: the columns of the [CREATE TABLE] statement
    of [database.ts] followed by the four columns that [cacheManager.ts]
    adds with [ALTER TABLE]. *)
Module Song.
Record row : Type := mk {
  id : string;
  user_id : string;
  song_title : string;
  artist : string;
  status : Status;
  processing_progress : Z;
  requested_at : string;
  started_at : option string;
  completed_at : option string;
  original_audio_path : option string;
  instrumental_path : option string;
  lyrics_path : option string;
  video_path : option string;
  search_query : option string;
  cache_key : option string;
  torrent_magnet : option string;
  youtube_video_id : option string;
  processing_method : option string
}.

Definition set_status (st : Status) (r : row) : row :=
  mk (id r) (user_id r) (song_title r) (artist r) st (processing_progress r)
     (requested_at r) (started_at r) (completed_at r) (original_audio_path r)
     (instrumental_path r) (lyrics_path r) (video_path r) (search_query r)
     (cache_key r) (torrent_magnet r) (youtube_video_id r) (processing_method r).

Definition set_progress (p : Z) (r : row) : row :=
  mk (id r) (user_id r) (song_title r) (artist r) (status r) p
     (requested_at r) (started_at r) (completed_at r) (original_audio_path r)
     (instrumental_path r) (lyrics_path r) (video_path r) (search_query r)
     (cache_key r) (torrent_magnet r) (youtube_video_id r) (processing_method r).

Definition set_paths (o i l v : option string) (r : row) : row :=
  mk (id r) (user_id r) (song_title r) (artist r) (status r) (processing_progress r)
     (requested_at r) (started_at r) (completed_at r) o i l v (search_query r)
     (cache_key r) (torrent_magnet r) (youtube_video_id r) (processing_method r).
End Song.

(** [QueuedSong] of [src/types/queue.ts], as the queries of [KaraokeDB]
    build it.  [requestedAt] keeps the text of column [requested_at]. *)
Module QueuedSong.
Record Karaoke : Type := mkKaraoke {
  instrumentalUrl : string;
  lyricsUrl : option string;
  videoUrl : option string
}.
Record t : Type := mk {
  id : string;
  user : User.t;
  songTitle : string;
  artist : string;
  requestedAt : string;
  status : Status;
  processingProgress : Z;
  karaoke : option Karaoke
}.
End QueuedSong.

(** A row of table [processed_cache].  The two timestamps are seconds of
    the database clock. *)
Module Cache.
Record row : Type := mk {
  id : Z;
  cache_key : string;
  title : string;
  artist : string;
  original_audio_path : option string;
  instrumental_path : option string;
  lyrics_path : option string;
  video_path : option string;
  youtube_video_id : option string;
  processing_quality : option string;
  created_at : Z;
  last_accessed : Z;
  file_size : Z
}.

Definition set_last_accessed (now : Z) (r : row) : row :=
  mk (id r) (cache_key r) (title r) (artist r) (original_audio_path r)
     (instrumental_path r) (lyrics_path r) (video_path r) (youtube_video_id r)
     (processing_quality r) (created_at r) now (file_size r).
End Cache.

(** [ProcessedSong] of [cacheManager.ts]. *)
Module ProcessedSong.
Record Files : Type := mkFiles {
  original : option string;
  instrumental : option string;
  lyrics : option string;
  video : option string
}.
Record Metadata : Type := mkMetadata {
  title : string;
  artist : string;
  quality : option string;
  youtubeVideoId : option string
}.
Record t : Type := mk { cacheKey : string; files : Files; metadata : Metadata }.
End ProcessedSong.

(** [ProcessingOptions] of [audioProcessor.ts].  The values come from the
    request body, so both fields are strings at run time. *)
Record ProcessingOptions : Type := mkProcessingOptions {
  quality : string;
  outputFormat : string
}.

(** [AutonomousProcessingOptions] of [autonomousProcessor.ts]. *)
Record AutonomousProcessingOptions : Type := mkAutonomousProcessingOptions {
  base : ProcessingOptions;
  useCache : option bool;
  maxTorrentWaitTime : option Z;
  maxYouTubeWaitTime : option Z
}.

(** The options of a registered job, after the defaults are filled in. *)
Record JobOptions : Type := mkJobOptions {
  job_base : ProcessingOptions;
  job_useCache : bool;
  job_maxTorrentWaitTime : Z;
  job_maxYouTubeWaitTime : Z
}.

Record AutonomousProcessingJob : Type := mkAutonomousProcessingJob {
  ap_songId : string;
  ap_options : JobOptions
}.

Record ProcessingJob : Type := mkProcessingJob {
  pj_songId : string;
  pj_options : ProcessingOptions
}.

(** Values exchanged with the collaborators. *)
Record TorrentResult : Type := mkTorrentResult {
  torrent_title : string;
  torrent_size : string;
  seeders : Z;
  magnet : string;
  provider : string
}.

(** The result of [YouTubeClient.getBestKaraokeVideo]; of the [video]
    object only [id] and [title] are read. *)
Record KaraokeVideo : Type := mkKaraokeVideo {
  video_id : string;
  video_title : string;
  filePath : string
}.

Record LyricLine : Type := mkLyricLine {
  startTime : Z;
  endTime : Z;
  text : string
}.

Record Stems : Type := mkStems { instrumental : string; vocals : string }.

Definition Error : Type := string.

(** The calls whose promise the orchestrator awaits.  [Race c ms msg] is
    [Promise.race([c, timeout])] with a timer that rejects with [msg]
    after [ms] milliseconds. *)
Inductive Call : Type :=
| FindBestMatch (title artist : string) (minSeeders : Z)
| DownloadAudio (magnet targetTitle : string)
| GetBestKaraokeVideo (title artist : string)
| Race (c : Call) (ms : Z) (msg : string)
| SeparateVocals (inputPath : string) (options : ProcessingOptions)
| FetchLyrics (title artist : string)
| SmartSynchronize (lyrics audioPath : string)
| ReplaceAudio (videoPath audioPath outputPath : string)
| OptimizeForStreaming (videoPath : string)
| ImportVideoGenerator
| GenerateKaraokeVideo (audioPath : string) (lyrics : list LyricLine) (outputPath : string)
| CreateLyricVideo (lyrics : list LyricLine) (duration : Z) (outputPath : string).

(** What the awaited promise resolves to. *)
Fixpoint ret_type (c : Call) : Type :=
  match c with
  | FindBestMatch _ _ _ => option TorrentResult
  | DownloadAudio _ _ => option string
  | GetBestKaraokeVideo _ _ => option KaraokeVideo
  | Race c' _ _ => ret_type c'
  | SeparateVocals _ _ => Stems
  | FetchLyrics _ _ => option string
  | SmartSynchronize _ _ => list LyricLine
  | ReplaceAudio _ _ _ => string
  | OptimizeForStreaming _ => string
  | ImportVideoGenerator => unit
  | GenerateKaraokeVideo _ _ _ => string
  | CreateLyricVideo _ _ _ => string
  end.

(** A node of the file system. *)
Inductive FNode : Type :=
| File (size : Z)
| Dir (size : Z) (entries : list string).

Definition node_size (n : FNode) : Z :=
  match n with File s => s | Dir s _ => s end.

(** Observable effects, in the order in which they happen: the history of
    a run, kept beside the state to state ordering properties. *)
Inductive Event : Type :=
| EvStatus (id : string) (st : Status) (progress : option Z)
| EvPaths (id : string) (o i l v : option string)
| EvCacheSelect (key : string)
| EvCacheTouch (key : string) (now : Z)
| EvCacheDelete (key : string)
| EvCacheInsert (key : string)
| EvExists (p : string)
| EvAwait (c : Call).

(** The state of the process and of its environment. *)
Record World : Type := mkWorld {
  users : list User.t;
  songs : list Song.row;
  processed_cache : list Cache.row;
  cache_seq : Z;
  fs : gmap string FNode;
  cwd : string;
  clock : Z;
  autonomous_jobs : gmap string AutonomousProcessingJob;
  processor_jobs : gmap string ProcessingJob;
  trace : list Event
}.

Definition with_songs (f : list Song.row -> list Song.row) (w : World) : World :=
  mkWorld (users w) (f (songs w)) (processed_cache w) (cache_seq w) (fs w) (cwd w)
          (clock w) (autonomous_jobs w) (processor_jobs w) (trace w).

Definition with_cache (f : list Cache.row -> list Cache.row) (w : World) : World :=
  mkWorld (users w) (songs w) (f (processed_cache w)) (cache_seq w) (fs w) (cwd w)
          (clock w) (autonomous_jobs w) (processor_jobs w) (trace w).

Definition with_cache_seq (n : Z) (w : World) : World :=
  mkWorld (users w) (songs w) (processed_cache w) n (fs w) (cwd w)
          (clock w) (autonomous_jobs w) (processor_jobs w) (trace w).

Definition with_fs (f : gmap string FNode -> gmap string FNode) (w : World) : World :=
  mkWorld (users w) (songs w) (processed_cache w) (cache_seq w) (f (fs w)) (cwd w)
          (clock w) (autonomous_jobs w) (processor_jobs w) (trace w).

Definition with_clock (t : Z) (w : World) : World :=
  mkWorld (users w) (songs w) (processed_cache w) (cache_seq w) (fs w) (cwd w)
          t (autonomous_jobs w) (processor_jobs w) (trace w).

Definition with_autonomous_jobs
    (f : gmap string AutonomousProcessingJob -> gmap string AutonomousProcessingJob)
    (w : World) : World :=
  mkWorld (users w) (songs w) (processed_cache w) (cache_seq w) (fs w) (cwd w)
          (clock w) (f (autonomous_jobs w)) (processor_jobs w) (trace w).

Definition with_processor_jobs
    (f : gmap string ProcessingJob -> gmap string ProcessingJob) (w : World) : World :=
  mkWorld (users w) (songs w) (processed_cache w) (cache_seq w) (fs w) (cwd w)
          (clock w) (autonomous_jobs w) (f (processor_jobs w)) (trace w).

Definition emit (e : Event) (w : World) : World :=
  mkWorld (users w) (songs w) (processed_cache w) (cache_seq w) (fs w) (cwd w)
          (clock w) (autonomous_jobs w) (processor_jobs w) (trace w ++ [e]).

Definition with_users (f : list User.t -> list User.t) (w : World) : World :=
  mkWorld (f (users w)) (songs w) (processed_cache w) (cache_seq w) (fs w) (cwd w)
          (clock w) (autonomous_jobs w) (processor_jobs w) (trace w).

(* ================================================================== *)
(** ** Node's [fs] module on the modelled file system *)
(* ================================================================== *)

Module Fs.

Definition existsSync (p : string) (w : World) : World * bool :=
  (emit (EvExists p) w, match fs w !! p with Some _ => true | None => false end).

(** [fs.writeFileSync(p, content, 'utf8')]: creates or truncates the
    file; writing to a directory throws. *)
Definition writeFileSync (p content : string) (w : World) : World * (Error + unit) :=
  match fs w !! p with
  | Some (Dir _ _) => (w, inl "EISDIR")
  | _ => (with_fs (insert p (File (Z.of_nat (String.length (JS.utf8 content))))) w, inr tt)
  end.

Definition unlinkSync (p : string) (w : World) : World * (Error + unit) :=
  match fs w !! p with
  | Some (File _) => (with_fs (delete p) w, inr tt)
  | Some (Dir _ _) => (w, inl "EPERM")
  | None => (w, inl "ENOENT")
  end.

Definition readdirSync (p : string) (w : World) : World * (Error + list string) :=
  match fs w !! p with
  | Some (Dir _ entries) => (w, inr entries)
  | Some (File _) => (w, inl "ENOTDIR")
  | None => (w, inl "ENOENT")
  end.

(** [fs.statSync(p).size], read after [existsSync] said yes. *)
Definition statSync_size (p : string) (w : World) : Z :=
  match fs w !! p with
  | Some n => node_size n
  | None => 0
  end.

End Fs.

(* ================================================================== *)
(** ** [KaraokeDB] ([src/lib/database.ts]) *)
(* ================================================================== *)

Module KaraokeDB.

(** [UPDATE songs SET status = ?, processing_progress = ? WHERE id = ?]
    or, without a progress, [UPDATE songs SET status = ? WHERE id = ?]. *)
Definition updateSongStatus (id : string) (st : Status) (progress : option Z)
    (w : World) : World :=
  let upd (r : Song.row) :=
    if String.eqb (Song.id r) id then
      match progress with
      | Some p => Song.set_progress p (Song.set_status st r)
      | None => Song.set_status st r
      end
    else r in
  emit (EvStatus id st progress) (with_songs (map upd) w).

(** Only the truthy values of the four paths become assignments; with
    no assignment no statement is run. *)
Definition updateSongPaths (id : string) (o i l v : option string) (w : World) : World :=
  let pick (new old : option string) := if JS.truthy new then new else old in
  let upd (r : Song.row) :=
    if String.eqb (Song.id r) id then
      Song.set_paths (pick o (Song.original_audio_path r))
                     (pick i (Song.instrumental_path r))
                     (pick l (Song.lyrics_path r))
                     (pick v (Song.video_path r)) r
    else r in
  if JS.truthy o || JS.truthy i || JS.truthy l || JS.truthy v
  then emit (EvPaths id o i l v) (with_songs (map upd) w)
  else w.

(** [FROM songs s JOIN users u ON s.user_id = u.id] *)
Definition joined (w : World) : list (Song.row * User.t) :=
  omap (fun s =>
          match find (fun u => String.eqb (User.id u) (Song.user_id s)) (users w) with
          | Some u => Some (s, u)
          | None => None
          end) (songs w).

(** The object that the three queries build from a joined row. *)
Definition to_song (su : Song.row * User.t) : QueuedSong.t :=
  let (s, u) := su in
  QueuedSong.mk (Song.id s) u (Song.song_title s) (Song.artist s)
    (Song.requested_at s) (Song.status s) (Song.processing_progress s)
    (if JS.truthy (Song.instrumental_path s)
     then Some (QueuedSong.mkKaraoke (default "" (Song.instrumental_path s))
                  (Song.lyrics_path s) (Song.video_path s))
     else None).

(** [WHERE s.status IN ('queued', 'processing', 'ready', 'playing')] *)
Definition in_queue (st : Status) : bool :=
  match st with
  | queued | processing | ready | playing => true
  | completed | failed => false
  end.

(** [ORDER BY s.requested_at ASC]: the text values compared byte by
    byte. *)
Definition requested_le (x y : Song.row * User.t) : Prop :=
  String.leb (Song.requested_at (fst x)) (Song.requested_at (fst y)).

#[global] Instance requested_le_dec x y : Decision (requested_le x y).
Proof. unfold requested_le. apply _. Defined.

Definition getQueue (w : World) : list QueuedSong.t :=
  to_song <$>
    (merge_sort requested_le
       (filter (fun su => in_queue (Song.status (fst su)) = true) (joined w))).

(** [WHERE s.status = 'playing' LIMIT 1] *)
Definition getCurrentSong (w : World) : option QueuedSong.t :=
  option_map to_song
    (find (fun su => bool_decide (Song.status (fst su) = playing)) (joined w)).

Definition removeSong (id : string) (w : World) : World :=
  with_songs (filter (fun r => Song.id r ≠ id)) w.

(** [WHERE s.id = ?] *)
Definition getSong (id : string) (w : World) : option QueuedSong.t :=
  option_map to_song
    (find (fun su => String.eqb (Song.id (fst su)) id) (joined w)).

(** [INSERT OR REPLACE INTO users (id, name, color)]: a row with the
    same id is deleted, then the new row is inserted. *)
Definition addUser (user : User.t) (w : World) : World :=
  with_users (fun rows => filter (fun u => User.id u ≠ User.id user) rows ++ [user]) w.

(** [SELECT * FROM users WHERE id = ?] *)
Definition getUser (id : string) (w : World) : option User.t :=
  find (fun u => String.eqb (User.id u) id) (users w).

(** The row that [addSong] inserts: the seven columns of the statement,
    [processing_progress] with its default 0 and the other columns
    [NULL]. *)
Definition new_row (song : QueuedSong.t) : Song.row :=
  Song.mk (QueuedSong.id song) (User.id (QueuedSong.user song))
          (QueuedSong.songTitle song) (QueuedSong.artist song)
          (QueuedSong.status song) 0 (QueuedSong.requestedAt song)
          None None None None None None
          (Some (QueuedSong.songTitle song +:+ " " +:+ QueuedSong.artist song))
          None None None None.

(** [INSERT INTO songs (...)]: the statement throws when the id is taken
    ([id TEXT PRIMARY KEY]) or when the user is not there (the foreign
    key, which better-sqlite3 enforces by default). *)
Definition addSong (song : QueuedSong.t) (w : World) : World * (Error + unit) :=
  if existsb (fun r => String.eqb (Song.id r) (QueuedSong.id song)) (songs w)
  then (w, inl "UNIQUE constraint failed: songs.id")
  else if negb (existsb (fun u => String.eqb (User.id u) (User.id (QueuedSong.user song)))
                        (users w))
  then (w, inl "FOREIGN KEY constraint failed")
  else (with_songs (fun rows => rows ++ [new_row song]) w, inr tt).

End KaraokeDB.

(* ================================================================== *)
(** ** [CacheManager] ([src/lib/cacheManager.ts]) *)
(* ================================================================== *)

Module CacheManager.

Definition normalized (title artist quality : string) : string :=
  JS.trim (JS.toLowerCase title) +:+ "_" +:+ JS.trim (JS.toLowerCase artist)
    +:+ "_" +:+ quality.

(** The first 16 hexadecimal digits of the SHA-256 digest of the UTF-8
    encoding. *)
Definition generateCacheKey (title artist quality : string) : string :=
  substring 0 16 (SHA256.sha256_hex (JS.utf8 (normalized title artist quality))).

(** [SELECT * FROM processed_cache WHERE cache_key = ?] with [stmt.get] *)
Definition select_row (cacheKey : string) (rows : list Cache.row) : option Cache.row :=
  find (fun r => String.eqb (Cache.cache_key r) cacheKey) rows.

Definition updateLastAccessed (cacheKey : string) (w : World) : World :=
  let upd (r : Cache.row) :=
    if String.eqb (Cache.cache_key r) cacheKey
    then Cache.set_last_accessed (clock w) r else r in
  emit (EvCacheTouch cacheKey (clock w)) (with_cache (map upd) w).

Definition removeFromCache (cacheKey : string) (w : World) : World :=
  emit (EvCacheDelete cacheKey)
    (with_cache (filter (fun r => Cache.cache_key r ≠ cacheKey)) w).

(** [if (row.col && fs.existsSync(row.col)) files.x = row.col] *)
Definition verified (col : option string) (w : World) : World * option string :=
  if JS.truthy col then
    let (w', present) := Fs.existsSync (default "" col) w in
    (w', if present then col else None)
  else (w, None).

Definition checkCache (title artist quality : string) (w : World)
    : World * option ProcessedSong.t :=
  let cacheKey := generateCacheKey title artist quality in
  let w0 := emit (EvCacheSelect cacheKey) w in
  match select_row cacheKey (processed_cache w0) with
  | None => (w0, None)
  | Some row =>
      (* Update last accessed time *)
      let w1 := updateLastAccessed cacheKey w0 in
      (* Verify files still exist *)
      let (w2, original) := verified (Cache.original_audio_path row) w1 in
      let (w3, instrumental) := verified (Cache.instrumental_path row) w2 in
      let (w4, lyrics) := verified (Cache.lyrics_path row) w3 in
      let (w5, video) := verified (Cache.video_path row) w4 in
      (* If key files are missing, remove from cache *)
      if negb (JS.truthy instrumental) || negb (JS.truthy video)
      then (removeFromCache cacheKey w5, None)
      else (w5, Some (ProcessedSong.mk cacheKey
                        (ProcessedSong.mkFiles original instrumental lyrics video)
                        (ProcessedSong.mkMetadata (Cache.title row) (Cache.artist row)
                           (Cache.processing_quality row) (Cache.youtube_video_id row))))
  end.

(** [if (filePath && fs.existsSync(filePath)) totalSize += statSync(filePath).size] *)
Definition add_size (filePath : option string) (acc : World * Z) : World * Z :=
  let (w, total) := acc in
  if JS.truthy filePath then
    let (w', present) := Fs.existsSync (default "" filePath) w in
    (w', if present then total + Fs.statSync_size (default "" filePath) w' else total)
  else (w, total).

(** [INSERT OR REPLACE]: a row with the same [cache_key] is deleted, the
    new row takes the next [AUTOINCREMENT] id and the current time. *)
Definition addToCache (title artist quality : string) (files : ProcessedSong.Files)
    (youtubeVideoId : option string) (w : World) : World * string :=
  let cacheKey := generateCacheKey title artist quality in
  let (w1, totalSize) :=
    add_size (ProcessedSong.video files)
      (add_size (ProcessedSong.lyrics files)
         (add_size (ProcessedSong.instrumental files)
            (add_size (ProcessedSong.original files) (w, 0)))) in
  let id := cache_seq w1 + 1 in
  let row := Cache.mk id cacheKey title artist
               (JS.or_undefined (ProcessedSong.original files))
               (JS.or_undefined (ProcessedSong.instrumental files))
               (JS.or_undefined (ProcessedSong.lyrics files))
               (JS.or_undefined (ProcessedSong.video files))
               (JS.or_undefined youtubeVideoId)
               (Some quality) (clock w1) (clock w1) totalSize in
  (emit (EvCacheInsert cacheKey)
     (with_cache_seq id
        (with_cache (fun rows =>
                       filter (fun r => Cache.cache_key r ≠ cacheKey) rows ++ [row]) w1)),
   cacheKey).

(** The result of [getCacheStats]; the two dates are instants, in
    seconds. *)
Record CacheStats : Type := mkCacheStats {
  totalEntries : Z;
  totalSizeMB : Z;
  oldestEntry : option Z;
  newestEntry : option Z
}.

(** [MIN(created_at)] and [MAX(created_at)]: [NULL] over no row. *)
Definition aggregate (f : Z -> Z -> Z) (values : list Z) : option Z :=
  match values with
  | [] => None
  | v :: values' => Some (fold_left f values' v)
  end.

(** [SELECT COUNT( * ), SUM(file_size), MIN(created_at), MAX(created_at)
    FROM processed_cache]; [row.total_size || 0] turns the [NULL] sum of
    an empty table into 0.

    [row.oldest ? new Date(row.oldest) : null]: the column holds the
    date and time of UTC at the second [t] as a text without a zone
    ([CURRENT_TIMESTAMP]), and [new Date] reads such a text as a date
    and time of the host's zone.  [localTime t] is the instant at which
    the clocks of the host show that date and time; on a host in UTC it
    is [t]. *)
Definition getCacheStats (localTime : Z -> Z) (w : World) : CacheStats :=
  let rows := processed_cache w in
  let total_size := fold_left Z.add (Cache.file_size <$> rows) 0 in
  mkCacheStats (Z.of_nat (length rows))
               (JS.Math_round (inject_Z total_size / 1024 / 1024)%Q)
               (localTime <$> aggregate Z.min (Cache.created_at <$> rows))
               (localTime <$> aggregate Z.max (Cache.created_at <$> rows)).

(** [ORDER BY last_accessed DESC] *)
Definition accessed_ge (x y : Cache.row) : Prop :=
  Cache.last_accessed y <= Cache.last_accessed x.

#[global] Instance accessed_ge_dec x y : Decision (accessed_ge x y).
Proof. unfold accessed_ge. apply _. Defined.

(** [SELECT id FROM processed_cache ORDER BY last_accessed DESC LIMIT
    maxEntries]; a negative limit is no limit. *)
Definition most_recent (maxEntries : Z) (rows : list Cache.row) : list Z :=
  let sorted := merge_sort accessed_ge rows in
  Cache.id <$> (if maxEntries <? 0 then sorted else take (Z.to_nat maxEntries) sorted).

(** The rows that [cleanupOldEntries] selects: last accessed before
    [datetime('now', '-maxAgeDays days')], or not among the [maxEntries]
    most recently accessed.  With a negative [maxAgeDays] the modifier
    reads ['--n days'], the date is [NULL] and the first test holds for
    no row. *)
Definition entriesToRemove (maxAgeDays maxEntries : Z) (w : World) : list Cache.row :=
  let cutoff := clock w - maxAgeDays * 86400 in
  let recent := most_recent maxEntries (processed_cache w) in
  filter (fun r => (0 <= maxAgeDays /\ Cache.last_accessed r < cutoff)
                   \/ Cache.id r ∉ recent)
         (processed_cache w).

(** [try { if (fs.existsSync(filePath)) fs.unlinkSync(filePath) } catch {}] *)
Definition remove_file (w : World) (filePath : string) : World :=
  let (w1, present) := Fs.existsSync filePath w in
  if present then (Fs.unlinkSync filePath w1).1 else w1.

(** [[entry.original_audio_path, entry.instrumental_path,
    entry.lyrics_path, entry.video_path].filter(Boolean)] *)
Definition entry_files (entry : Cache.row) : list string :=
  omap JS.or_undefined
    [ Cache.original_audio_path entry; Cache.instrumental_path entry;
      Cache.lyrics_path entry; Cache.video_path entry ].

(** The body of [entriesToRemove.forEach]: the files that the entry
    names are deleted, then its row. *)
Definition remove_entry (w : World) (entry : Cache.row) : World :=
  removeFromCache (Cache.cache_key entry) (fold_left remove_file (entry_files entry) w).

Definition cleanupOldEntries (maxAgeDays maxEntries : Z) (w : World) : World :=
  fold_left remove_entry (entriesToRemove maxAgeDays maxEntries w) w.

End CacheManager.

(* ================================================================== *)
(** ** Asynchronous functions *)
(* ================================================================== *)

(** An [async] function is a tree: [Sync] runs a piece of synchronous
    code on the state, [Await] suspends on a collaborator's promise
    (with the [onProgress] callback handed to the collaborator) and
    resumes with its settlement, [Yield] suspends on a promise of the
    program's own, and [Throw] raises. *)
Inductive Proc (A : Type) : Type :=
| Ret (a : A)
| Throw (e : Error)
| Sync {X : Type} (op : World -> World * X) (k : X -> Proc A)
| Yield (k : Proc A)
| Await (c : Call) (onProgress : Q -> World -> World) (k : Error + ret_type c -> Proc A).

Arguments Ret {A} a.
Arguments Throw {A} e.
Arguments Sync {A X} op k.
Arguments Yield {A} k.
Arguments Await {A} c onProgress k.

Fixpoint bind {A B : Type} (p : Proc A) (f : A -> Proc B) : Proc B :=
  match p with
  | Ret a => f a
  | Throw e => Throw e
  | Sync op k => Sync op (fun x => bind (k x) f)
  | Yield k => Yield (bind k f)
  | Await c cb k => Await c cb (fun r => bind (k r) f)
  end.

#[global] Instance Proc_ret : MRet Proc := fun A a => Ret a.
#[global] Instance Proc_bind : MBind Proc := fun A B f p => bind p f.

(** [try { p } catch (error) { h error }] *)
Fixpoint try_catch {A : Type} (p : Proc A) (h : Error -> Proc A) : Proc A :=
  match p with
  | Ret a => Ret a
  | Throw e => h e
  | Sync op k => Sync op (fun x => try_catch (k x) h)
  | Yield k => Yield (try_catch k h)
  | Await c cb k => Await c cb (fun r => try_catch (k r) h)
  end.

(** [try { p } finally { f }] *)
Fixpoint finally {A : Type} (p : Proc A) (f : Proc unit) : Proc A :=
  match p with
  | Ret a => bind f (fun _ => Ret a)
  | Throw e => bind f (fun _ => Throw e)
  | Sync op k => Sync op (fun x => finally (k x) f)
  | Yield k => Yield (finally k f)
  | Await c cb k => Await c cb (fun r => finally (k r) f)
  end.

(** A statement that changes the state. *)
Definition exec (f : World -> World) : Proc unit := Sync (fun w => (f w, tt)) Ret.

(** An expression that reads the state. *)
Definition read {X : Type} (f : World -> X) : Proc X := Sync (fun w => (w, f w)) Ret.

(** A synchronous call with a result. *)
Definition sync {X : Type} (op : World -> World * X) : Proc X := Sync op Ret.

Definition settled {X : Type} (r : Error + X) : Proc X :=
  match r with
  | inl e => Throw e
  | inr x => Ret x
  end.

(** A synchronous call that may throw. *)
Definition attempt {X : Type} (op : World -> World * (Error + X)) : Proc X :=
  Sync op settled.

(** [await c] on a collaborator's promise: a rejection is thrown. *)
Definition await (c : Call) : Proc (ret_type c) := Await c (fun _ w => w) settled.

(** The same with an [onProgress] callback given to the collaborator. *)
Definition await_progress (c : Call) (onProgress : Q -> World -> World)
    : Proc (ret_type c) :=
  Await c onProgress settled.

(** [await f(...)] for an [async] function [f] of this program: the body
    runs, then the caller is suspended on the returned promise. *)
Definition await_async {X : Type} (body : Proc X) : Proc X :=
  bind body (fun x => Yield (Ret x)).

(** *** Running a function against its collaborators *)

(** The settlement of an awaited call: the progress values reported
    while it ran, the files it left or removed, the time it took, and
    the value or the rejection.  Two more fields describe what the event
    loop does meanwhile and afterwards: [stale] reports of calls that
    were abandoned earlier are delivered while this call is awaited, and
    when this call is itself abandoned (it lost a [Promise.race] against
    a timer, which cancels nothing) it goes on to report [late].

    Every reply carries a settlement: a promise that is never settled
    has none, and a function that awaits one never resumes.  The runs
    below are the runs in which every awaited call settles. *)
Record Reply (X : Type) : Type := mkReply {
  reports : list Q;
  late : list Q;
  stale : nat;
  touched : list (string * option FNode);
  elapsed : Z;
  result : Error + X
}.

Arguments mkReply {X} reports late stale touched elapsed result.
Arguments reports {X} r.
Arguments late {X} r.
Arguments stale {X} r.
Arguments touched {X} r.
Arguments elapsed {X} r.
Arguments result {X} r.

(** The collaborators: the reply to the [n]-th awaited call. *)
Definition Oracle : Type := nat -> forall c : Call, Reply (ret_type c).

(** The event loop's side of a run: the calls awaited so far, oldest
    first, and the reports that abandoned calls have still to deliver. *)
Record Sched : Type := mkSched {
  asked : list Call;
  pending : list (World -> World)
}.

Definition touch (w : World) (t : string * option FNode) : World :=
  match snd t with
  | Some node => with_fs (insert (fst t) node) w
  | None => with_fs (delete (fst t)) w
  end.

Definition deliver (onProgress : Q -> World -> World) (w : World) (q : Q) : World :=
  onProgress q w.

Definition fire (w : World) (callback : World -> World) : World := callback w.

(** The race was lost to the timer: the rejection carries its message. *)
Definition lost_race {X : Type} (c : Call) (r : Error + X) : bool :=
  match c, r with
  | Race _ _ msg, inl e => String.eqb e msg
  | _, _ => false
  end.

(** The state when the awaited call [c] has settled with reply [r]. *)
Definition after_await {X : Type} (c : Call) (onProgress : Q -> World -> World)
    (r : Reply X) (w : World) (s : Sched) : World * Sched :=
  let w0 := fold_left fire (take (stale r) (pending s)) (emit (EvAwait c) w) in
  let w1 := fold_left (deliver onProgress) (reports r) w0 in
  let w2 := fold_left touch (touched r) w1 in
  (with_clock (clock w2 + elapsed r) w2,
   mkSched (asked s ++ [c])
     (drop (stale r) (pending s)
      ++ (if lost_race c (result r) then map onProgress (late r) else []))).

(** One function run to completion with no other function interleaved:
    the final state, the event loop's side, and the value returned or
    the error thrown. *)
Fixpoint run {A : Type} (o : Oracle) (p : Proc A) (s : Sched) (w : World)
    : World * Sched * (Error + A) :=
  match p with
  | Ret a => (w, s, inr a)
  | Throw e => (w, s, inl e)
  | Sync op k => let (w', x) := op w in run o (k x) s w'
  | Yield k => run o k s w
  | Await c cb k =>
      let r := o (length (asked s)) c in
      let (w', s') := after_await c cb r w s in
      run o (k (result r)) s' w'
  end.

(** A quiet event loop, after the calls [cs]. *)
Definition idle (cs : list Call) : Sched := mkSched cs [].

(** The synchronous part of a call: the code runs until the function
    returns, throws or is suspended on an [await]. *)
Fixpoint start {A : Type} (p : Proc A) (w : World) : World * Proc A :=
  match p with
  | Sync op k => let (w', x) := op w in start (k x) w'
  | _ => (w, p)
  end.

Definition suspended {A : Type} (p : Proc A) : bool :=
  match p with
  | Yield _ | Await _ _ _ => true
  | _ => false
  end.

(** A call that nobody awaits, when the event loop next turns to input
    and output: after the synchronous part, each [await] on a promise
    of the program's own (one that is settled when it is awaited) is
    resumed in a microtask, and the microtasks run before any callback
    of a collaborator.  The code runs until the function returns,
    throws or waits for a collaborator. *)
Fixpoint settle {A : Type} (p : Proc A) (w : World) : World * Proc A :=
  match p with
  | Sync op k => let (w', x) := op w in settle (k x) w'
  | Yield k => settle k w
  | _ => (w, p)
  end.

(** The function waits for the settlement of the call [c]. *)
Definition waits_for {A : Type} (c : Call) (p : Proc A) : Prop :=
  match p with
  | Await c' _ _ => c' = c
  | _ => False
  end.

(* ================================================================== *)
(** ** [LyricsProcessor.convertToLRC] ([src/lib/lyricsProcessor.ts]) *)
(* ================================================================== *)

Module LyricsProcessor.

(** [Number.prototype.toString] on an integer. *)
Definition toString (n : Z) : string := NilZero.string_of_int (Z.to_int n).

(** [s.padStart(2, '0')] *)
Definition padStart2 (s : string) : string :=
  match String.length s with
  | O => "00"
  | S O => "0" +:+ s
  | _ => s
  end.

(** Times are whole milliseconds; [%] is JavaScript's remainder, of the
    sign of the dividend. *)
Definition lrc_line (line : LyricLine) : string :=
  let minutes := startTime line / 60000 in
  let seconds := Z.rem (startTime line) 60000 / 1000 in
  let centiseconds := Z.rem (startTime line) 1000 / 10 in
  "[" +:+ padStart2 (toString minutes) +:+ ":" +:+ padStart2 (toString seconds)
    +:+ "." +:+ padStart2 (toString centiseconds) +:+ "]" +:+ text line.

Fixpoint join_lines (ls : list string) : string :=
  match ls with
  | [] => ""
  | [l] => l
  | l :: ls' => l +:+ String "010"%char (join_lines ls')
  end.

Definition convertToLRC (lyrics : list LyricLine) : string :=
  join_lines (map lrc_line lyrics).

(** [s.padStart(3, '0')] *)
Definition padStart3 (s : string) : string :=
  match String.length s with
  | O => "000"
  | S O => "00" +:+ s
  | S (S O) => "0" +:+ s
  | _ => s
  end.

(** [formatSRTTime]: [HH:MM:SS,mmm]. *)
Definition formatSRTTime (ms : Z) : string :=
  let hours := ms / 3600000 in
  let minutes := Z.rem ms 3600000 / 60000 in
  let seconds := Z.rem ms 60000 / 1000 in
  let milliseconds := Z.rem ms 1000 in
  padStart2 (toString hours) +:+ ":" +:+ padStart2 (toString minutes) +:+ ":"
    +:+ padStart2 (toString seconds) +:+ "," +:+ padStart3 (toString milliseconds).

(** One entry of an SRT file: its number, the two times, the text. *)
Definition srt_entry (format : Z -> string) (index : nat) (line : LyricLine) : string :=
  toString (Z.of_nat index + 1) +:+ String "010"%char
    (format (startTime line) +:+ " --> " +:+ format (endTime line)
     +:+ String "010"%char (text line +:+ String "010"%char "")).

(** [lyrics.map((line, index) => ...).join('\n')] *)
Definition srt (format : Z -> string) (lyrics : list LyricLine) : string :=
  join_lines (imap (srt_entry format) lyrics).

Definition convertToSRT (lyrics : list LyricLine) : string := srt formatSRTTime lyrics.

End LyricsProcessor.

(* ================================================================== *)
(** ** [VideoGenerator] ([src/lib/videoGenerator.ts]) *)
(* ================================================================== *)

Module VideoGenerator.

(** [formatTime]: the same format, computed from the whole seconds. *)
Definition formatTime (ms : Z) : string :=
  let totalSeconds := ms / 1000 in
  let hours := totalSeconds / 3600 in
  let minutes := Z.rem totalSeconds 3600 / 60 in
  let seconds := Z.rem totalSeconds 60 in
  let milliseconds := Z.rem ms 1000 in
  LyricsProcessor.padStart2 (LyricsProcessor.toString hours) +:+ ":"
    +:+ LyricsProcessor.padStart2 (LyricsProcessor.toString minutes) +:+ ":"
    +:+ LyricsProcessor.padStart2 (LyricsProcessor.toString seconds) +:+ ","
    +:+ LyricsProcessor.padStart3 (LyricsProcessor.toString milliseconds).

(** The text that [generateSubtitleFile] writes. *)
Definition srtContent (lyrics : list LyricLine) : string :=
  LyricsProcessor.srt formatTime lyrics.

End VideoGenerator.


(* ================================================================== *)
(** ** [src/lib/autonomousProcessor.ts] *)
(* ================================================================== *)

(** The object that [getProcessingStatus] returns, in both processors. *)
Record ProcessingStatus : Type := mkProcessingStatus {
  job_exists : bool;
  job_song : option QueuedSong.t;
  isProcessing : bool
}.

Module AutonomousProcessor.

(** The job object put in the registry (lines 25-34): [useCache] and the
    two wait times get their defaults. *)
Definition make_job (songId : string) (options : AutonomousProcessingOptions)
    : AutonomousProcessingJob :=
  mkAutonomousProcessingJob songId
    (mkJobOptions (base options)
       (default true (useCache options))
       (default (5 * 60 * 1000) (maxTorrentWaitTime options))
       (default (2 * 60 * 1000) (maxYouTubeWaitTime options))).

(** The loop over [possibleFiles] (lines 265-271). *)
Fixpoint first_existing (uploadDir : string) (names : list string) : Proc (option string) :=
  match names with
  | [] => Ret None
  | filename :: names' =>
      let filePath := path.join uploadDir filename in
      present ← sync (Fs.existsSync filePath);
      if present : bool then Ret (Some filePath) else first_existing uploadDir names'
  end.

(** [/\.(mp3|wav|flac|m4a|aac|ogg)$/i.test(file)] *)
Definition is_audio_file (file : string) : bool :=
  existsb (JS.endsWith (JS.toLowerCase file))
    [".mp3"; ".wav"; ".flac"; ".m4a"; ".aac"; ".ogg"].

(** Lines 252-290. *)
Definition checkUploadsDirectory (title artist : string) : Proc (option string) :=
  uploadDir ← read (fun w => path.join (cwd w) "uploads");
  present ← sync (Fs.existsSync uploadDir);
  if negb present then Ret None else
  let possibleFiles :=
    [ artist +:+ " - " +:+ title +:+ ".mp3";
      title +:+ " - " +:+ artist +:+ ".mp3";
      artist +:+ "_" +:+ title +:+ ".mp3";
      title +:+ "_" +:+ artist +:+ ".mp3";
      title +:+ ".mp3";
      artist +:+ ".mp3" ] in
  found ← first_existing uploadDir possibleFiles;
  match found with
  | Some filePath => Ret (Some filePath)
  | None =>
      (* Also check for any audio files and do fuzzy matching *)
      entries ← attempt (Fs.readdirSync uploadDir);
      let audioFiles := List.filter is_audio_file entries in
      let titleLower := JS.toLowerCase title in
      let artistLower := JS.toLowerCase artist in
      match find (fun file =>
                    let fileLower := JS.toLowerCase file in
                    JS.includes fileLower titleLower && JS.includes fileLower artistLower)
                 audioFiles with
      | Some file => Ret (Some (path.join uploadDir file))
      | None => Ret None
      end
  end.

(** The callback given to [TorrentClient.downloadAudio] (lines 83-86). *)
Definition torrent_progress (songId : string) (progress : Q) (w : World) : World :=
  let overallProgress := 10 + JS.Math_round (progress * (15 # 100))%Q in
  KaraokeDB.updateSongStatus songId processing (Some overallProgress) w.

(** The callback given to [AudioProcessor.separateVocals] (lines 142-145). *)
Definition separation_progress (songId : string) (progress : Q) (w : World) : World :=
  let overallProgress := 45 + JS.Math_round (progress * (25 # 100))%Q in
  KaraokeDB.updateSongStatus songId processing (Some overallProgress) w.

(** STEP 2: acquire audio via torrents, then the uploads directory
    (lines 68-109). *)
Definition acquireAudio (songId songTitle artist : string)
    (job : AutonomousProcessingJob) : Proc string :=
  exec (KaraokeDB.updateSongStatus songId processing (Some 10));;
  torrentResult ← await (FindBestMatch songTitle artist 3);
  audioPath ←
    match torrentResult with
    | Some torrent =>
        try_catch
          (await_progress
             (Race (DownloadAudio (magnet torrent) (artist +:+ " - " +:+ songTitle))
                   (job_maxTorrentWaitTime (ap_options job)) "Torrent timeout")
             (torrent_progress songId))
          (fun _ => Ret None)
    | None => Ret None
    end;
  (* Fallback: Check uploads directory *)
  audioPath ←
    (if JS.truthy audioPath then Ret audioPath
     else await_async (checkUploadsDirectory songTitle artist));
  if JS.truthy audioPath then
    exec (KaraokeDB.updateSongPaths songId audioPath None None None);;
    Ret (default "" audioPath)
  else Throw ("Could not acquire audio for: " +:+ artist +:+ " - " +:+ songTitle).

(** STEP 3: search and download a karaoke video; a failure is only
    logged (lines 111-133).  Returns [karaokeVideoPath] and
    [youtubeVideoId]. *)
Definition fetchKaraokeVideo (songId songTitle artist : string)
    (job : AutonomousProcessingJob) : Proc (option string * option string) :=
  exec (KaraokeDB.updateSongStatus songId processing (Some 30));;
  try_catch
    (youtubeResult ←
       await (Race (GetBestKaraokeVideo songTitle artist)
                   (job_maxYouTubeWaitTime (ap_options job)) "YouTube timeout");
     match youtubeResult with
     | Some r => Ret (Some (filePath r), Some (video_id r))
     | None => Ret (None, None)
     end)
    (fun _ => Ret (None, None)).

(** STEP 4: vocal separation (lines 135-149). *)
Definition separate (songId audioPath : string) (options : AutonomousProcessingOptions)
    : Proc string :=
  exec (KaraokeDB.updateSongStatus songId processing (Some 45));;
  stems ← await_progress (SeparateVocals audioPath (base options))
                         (separation_progress songId);
  exec (KaraokeDB.updateSongPaths songId None (Some (instrumental stems)) None None);;
  Ret (instrumental stems).

(** STEP 5: fetch and synchronize lyrics (lines 151-168).  Returns
    [lyrics] and [lyricsPath]. *)
Definition syncLyrics (songId songTitle artist instrumental : string)
    : Proc (option string * option string) :=
  exec (KaraokeDB.updateSongStatus songId processing (Some 75));;
  lyrics ← await (FetchLyrics songTitle artist);
  if JS.truthy lyrics then
    syncedLyrics ← await (SmartSynchronize (default "" lyrics) instrumental);
    let lrcContent := LyricsProcessor.convertToLRC syncedLyrics in
    let lyricsPath := path.join (path.dirname instrumental) "lyrics.lrc" in
    attempt (Fs.writeFileSync lyricsPath lrcContent);;
    exec (KaraokeDB.updateSongPaths songId None None (Some lyricsPath) None);;
    Ret (lyrics, Some lyricsPath)
  else Ret (lyrics, None).

(** STEP 6: the final video, by replacing the audio of the karaoke
    video or by generating one (lines 170-214). *)
Definition compose (songId instrumental : string)
    (karaokeVideoPath lyrics lyricsPath : option string) : Proc string :=
  exec (KaraokeDB.updateSongStatus songId processing (Some 85));;
  present ← (if JS.truthy karaokeVideoPath
             then sync (Fs.existsSync (default "" karaokeVideoPath))
             else Ret false);
  finalVideoPath ←
    (if present : bool then
       (* Replace audio in YouTube karaoke video *)
       let finalVideoPath := path.join (path.dirname instrumental) "final_karaoke.mp4" in
       await (ReplaceAudio (default "" karaokeVideoPath) instrumental finalVideoPath);;
       (* Optimize for streaming *)
       optimizedPath ← await (OptimizeForStreaming finalVideoPath);
       if negb (String.eqb optimizedPath finalVideoPath) then
         attempt (Fs.unlinkSync finalVideoPath);;
         Ret optimizedPath
       else Ret finalVideoPath
     else
       (* Generate karaoke video from scratch (fallback) *)
       await ImportVideoGenerator;;
       let finalVideoPath :=
         path.join (path.dirname instrumental) "generated_karaoke.mp4" in
       (if JS.truthy lyricsPath && JS.truthy lyrics then
          syncedLyrics ← await (SmartSynchronize (default "" lyrics) instrumental);
          await (GenerateKaraokeVideo instrumental syncedLyrics finalVideoPath)
        else
          (* Create simple instrumental video *)
          await (CreateLyricVideo [] 300000 finalVideoPath));;
       Ret finalVideoPath);
  exec (KaraokeDB.updateSongPaths songId None None None (Some finalVideoPath));;
  Ret finalVideoPath.

(** STEP 7, STEP 8 and the cleanup (lines 216-242). *)
Definition finish (songId songTitle artist : string)
    (options : AutonomousProcessingOptions) (audioPath instrumental : string)
    (lyricsPath : option string) (finalVideoPath : string)
    (karaokeVideoPath youtubeVideoId : option string) : Proc unit :=
  await_async
    (sync (CacheManager.addToCache songTitle artist (quality (base options))
             (ProcessedSong.mkFiles (Some audioPath) (Some instrumental)
                (JS.or_undefined lyricsPath) (Some finalVideoPath))
             (JS.or_undefined youtubeVideoId)));;
  exec (KaraokeDB.updateSongStatus songId ready (Some 100));;
  (* Cleanup temporary files *)
  if JS.truthy karaokeVideoPath
     && negb (String.eqb (default "" karaokeVideoPath) finalVideoPath)
  then try_catch (attempt (Fs.unlinkSync (default "" karaokeVideoPath)))
                 (fun _ => Ret tt)
  else Ret tt.

(** The stages after the cache check, in order (lines 68-242). *)
Definition fullPipeline (songId songTitle artist : string)
    (options : AutonomousProcessingOptions) (job : AutonomousProcessingJob) : Proc unit :=
  audioPath ← acquireAudio songId songTitle artist job;
  '(karaokeVideoPath, youtubeVideoId) ← fetchKaraokeVideo songId songTitle artist job;
  instrumental ← separate songId audioPath options;
  '(lyrics, lyricsPath) ← syncLyrics songId songTitle artist instrumental;
  finalVideoPath ← compose songId instrumental karaokeVideoPath lyrics lyricsPath;
  finish songId songTitle artist options audioPath instrumental lyricsPath
         finalVideoPath karaokeVideoPath youtubeVideoId.

(** The cache hit (lines 53-66). *)
Definition useCached (songId : string) (cached : ProcessedSong.t) : Proc unit :=
  let files := ProcessedSong.files cached in
  exec (KaraokeDB.updateSongPaths songId
          (ProcessedSong.original files) (ProcessedSong.instrumental files)
          (ProcessedSong.lyrics files) (ProcessedSong.video files));;
  exec (KaraokeDB.updateSongStatus songId ready (Some 100)).

(** The body of the [try] block (lines 38-242). *)
Definition pipeline (songId : string) (options : AutonomousProcessingOptions)
    (job : AutonomousProcessingJob) : Proc unit :=
  song ← read (KaraokeDB.getSong songId);
  match song with
  | None => Throw "Song not found"
  | Some song =>
      let songTitle := QueuedSong.songTitle song in
      let artist := QueuedSong.artist song in
      (* STEP 1: Check cache first *)
      exec (KaraokeDB.updateSongStatus songId processing (Some 5));;
      cached ← await_async
                 (sync (CacheManager.checkCache songTitle artist (quality (base options))));
      match cached, useCache options with
      | Some cached, Some true => useCached songId cached
      | _, _ => fullPipeline songId songTitle artist options job
      end
  end.

(** [processKaraokeSong] (lines 24-250). *)
Definition processKaraokeSong (songId : string) (options : AutonomousProcessingOptions)
    : Proc unit :=
  let job := make_job songId options in
  exec (with_autonomous_jobs (insert songId job));;
  finally
    (try_catch (pipeline songId options job)
       (fun error => exec (KaraokeDB.updateSongStatus songId failed (Some 0))))
    (exec (with_autonomous_jobs (delete songId))).

(** [getProcessingStatus]: [exists] and [isProcessing] are both
    [!!job]. *)
Definition getProcessingStatus (songId : string) (w : World) : ProcessingStatus :=
  let job := autonomous_jobs w !! songId in
  let song := KaraokeDB.getSong songId w in
  mkProcessingStatus (bool_decide (is_Some job)) song (bool_decide (is_Some job)).

(** [cancelProcessing]: the job leaves the registry and the song is
    marked failed; its progress is not written. *)
Definition cancelProcessing (songId : string) (w : World) : World :=
  KaraokeDB.updateSongStatus songId failed None
    (with_autonomous_jobs (delete songId) w).

End AutonomousProcessor.

(* ================================================================== *)
(** ** [src/lib/jobProcessor.ts] *)
(* ================================================================== *)

Module JobProcessor.

(** The loop of [acquireAudioFile] (lines 119-125). *)
Fixpoint first_existing (uploadDir : string) (names : list string) : Proc (option string) :=
  match names with
  | [] => Ret None
  | filename :: names' =>
      let filePath := path.join uploadDir filename in
      present ← sync (Fs.existsSync filePath);
      if present : bool then Ret (Some filePath) else first_existing uploadDir names'
  end.

(** Lines 102-135. *)
Definition acquireAudioFile (title artist : string) : Proc (option string) :=
  uploadDir ← read (fun w => path.join (cwd w) "uploads");
  first_existing uploadDir
    [ title +:+ " - " +:+ artist +:+ ".mp3";
      artist +:+ " - " +:+ title +:+ ".mp3";
      title +:+ ".mp3" ].

(** The callback given to [AudioProcessor.separateVocals] (lines 50-53). *)
Definition separation_progress (songId : string) (progress : Q) (w : World) : World :=
  let overallProgress := 30 + JS.Math_round (progress * (4 # 10))%Q in
  KaraokeDB.updateSongStatus songId processing (Some overallProgress) w.

(** The body of the [try] block (lines 21-92). *)
Definition pipeline (songId : string) (options : ProcessingOptions) : Proc unit :=
  (* Update status *)
  exec (KaraokeDB.updateSongStatus songId processing (Some 0));;
  (* Get song details *)
  song ← read (KaraokeDB.getSong songId);
  match song with
  | None => Throw "Song not found"
  | Some song =>
      (* Step 1: Search for and download audio *)
      exec (KaraokeDB.updateSongStatus songId processing (Some 10));;
      audioPath ← await_async
                    (acquireAudioFile (QueuedSong.songTitle song) (QueuedSong.artist song));
      if negb (JS.truthy audioPath) then Throw "Could not find audio file" else
      let audioPath := default "" audioPath in
      exec (KaraokeDB.updateSongPaths songId (Some audioPath) None None None);;
      (* Step 2: Separate vocals *)
      exec (KaraokeDB.updateSongStatus songId processing (Some 30));;
      stems ← await_progress (SeparateVocals audioPath options)
                             (separation_progress songId);
      let instrumental := instrumental stems in
      exec (KaraokeDB.updateSongPaths songId None (Some instrumental) None None);;
      (* Step 3: Fetch and process lyrics *)
      exec (KaraokeDB.updateSongStatus songId processing (Some 75));;
      lyrics ← await (FetchLyrics (QueuedSong.songTitle song) (QueuedSong.artist song));
      (if JS.truthy lyrics then
         syncedLyrics ← await (SmartSynchronize (default "" lyrics) instrumental);
         let lrcContent := LyricsProcessor.convertToLRC syncedLyrics in
         let lyricsPath := path.join (path.dirname instrumental) "lyrics.lrc" in
         attempt (Fs.writeFileSync lyricsPath lrcContent);;
         exec (KaraokeDB.updateSongPaths songId None None (Some lyricsPath) None);;
         (* Step 4: Generate karaoke video (optional) *)
         if negb (String.eqb (outputFormat options) "audio-only") then
           exec (KaraokeDB.updateSongStatus songId processing (Some 85));;
           let videoPath := path.join (path.dirname instrumental) "karaoke.mp4" in
           await (GenerateKaraokeVideo instrumental syncedLyrics videoPath);;
           exec (KaraokeDB.updateSongPaths songId None None None (Some videoPath))
         else Ret tt
       else Ret tt);;
      (* Step 5: Complete processing *)
      exec (KaraokeDB.updateSongStatus songId ready (Some 100))
  end.

(** [processAudio] (lines 16-100). *)
Definition processAudio (songId : string) (options : ProcessingOptions) : Proc unit :=
  let job := mkProcessingJob songId options in
  exec (with_processor_jobs (insert songId job));;
  finally
    (try_catch (pipeline songId options)
       (fun error => exec (KaraokeDB.updateSongStatus songId failed (Some 0))))
    (exec (with_processor_jobs (delete songId))).

Definition getProcessingStatus (songId : string) (w : World) : ProcessingStatus :=
  let job := processor_jobs w !! songId in
  let song := KaraokeDB.getSong songId w in
  mkProcessingStatus (bool_decide (is_Some job)) song (bool_decide (is_Some job)).

Definition cancelProcessing (songId : string) (w : World) : World :=
  KaraokeDB.updateSongStatus songId failed None
    (with_processor_jobs (delete songId) w).

End JobProcessor.

(* ================================================================== *)
(** ** Array idioms shared by the search modules *)
(* ================================================================== *)

Module Arrays.

(** [const seen = new Set(); xs.filter(x => { if (seen.has(key(x)))
    return false; seen.add(key(x)); return true })] *)
Fixpoint filter_unseen {A : Type} (key : A -> string) (seen : gset string)
    (xs : list A) : list A :=
  match xs with
  | [] => []
  | x :: xs' =>
      if decide (key x ∈ seen) then filter_unseen key seen xs'
      else x :: filter_unseen key ({[key x]} ∪ seen) xs'
  end.

(** [xs.sort((a, b) => rank(b) - rank(a))]: [Array.prototype.sort] is
    stable, so elements of equal rank keep their order. *)
Fixpoint insert_desc {A : Type} (rank : A -> Q) (x : A) (sorted : list A) : list A :=
  match sorted with
  | [] => [x]
  | y :: sorted' =>
      if Qle_bool (rank y) (rank x) then x :: sorted
      else y :: insert_desc rank x sorted'
  end.

Definition sort_desc {A : Type} (rank : A -> Q) (xs : list A) : list A :=
  foldr (insert_desc rank) [] xs.

(** [xs.slice(0, n)]: a negative [n] counts from the end. *)
Definition slice_to {A : Type} (n : Z) (xs : list A) : list A :=
  if n <? 0 then take (Z.to_nat (Z.of_nat (length xs) + n)) xs
  else take (Z.to_nat n) xs.

End Arrays.

(* ================================================================== *)
(** ** [MusicSearch.searchAll] ([src/lib/musicSearch.ts]) *)
(* ================================================================== *)

Module MusicSearch.

Record SearchResult : Type := mk {
  title : string;
  artist : string;
  album : option string;
  duration : option Z;
  spotifyId : option string;
  musicbrainzId : option string;
  previewUrl : option string
}.

(** The key of the deduplication: title and artist in lower case,
    joined by a hyphen. *)
Definition key (result : SearchResult) : string :=
  JS.toLowerCase (title result) +:+ "-" +:+ JS.toLowerCase (artist result).

(** What [searchAll] returns, from the two settled searches: the results
    of Spotify, then those of MusicBrainz, without the results whose key
    has been seen. *)
Definition searchAll (spotifyResults musicBrainzResults : Error + list SearchResult)
    : list SearchResult :=
  let fulfilled (r : Error + list SearchResult) :=
    match r with inr value => value | inl _ => [] end in
  Arrays.filter_unseen key ∅ (fulfilled spotifyResults ++ fulfilled musicBrainzResults).

End MusicSearch.

(* ================================================================== *)
(** ** [TorrentClient.findBestMatch] ([src/lib/torrentClient.ts]) *)
(* ================================================================== *)

Module TorrentClient.

(** The two filters of [findBestMatch]: enough seeders, and a title that
    contains the artist and the song. *)
Definition good (title artist : string) (minSeeders : Z) (result : TorrentResult) : bool :=
  (minSeeders <=? seeders result)
  && (let titleLower := JS.toLowerCase (torrent_title result) in
      let artistLower := JS.toLowerCase artist in
      let songLower := JS.toLowerCase title in
      JS.includes titleLower artistLower && JS.includes titleLower songLower).

Definition goodResults (title artist : string) (minSeeders : Z)
    (results : list TorrentResult) : list TorrentResult :=
  Arrays.sort_desc (fun r => inject_Z (seeders r))
    (List.filter (good title artist minSeeders) results).

Definition queries (title artist : string) : list string :=
  [ artist +:+ " " +:+ title;
    title +:+ " " +:+ artist;
    artist +:+ " - " +:+ title;
    title ].

(** The loop over the queries; [search n query] is what the [n]-th call
    of [searchTorrents], which never rejects, resolves to. *)
Fixpoint first_good (search : nat -> string -> list TorrentResult)
    (title artist : string) (minSeeders : Z) (n : nat) (qs : list string)
    : option TorrentResult :=
  match qs with
  | [] => None
  | query :: qs' =>
      match goodResults title artist minSeeders (search n query) with
      | best :: _ => Some best
      | [] => first_good search title artist minSeeders (S n) qs'
      end
  end.

Definition findBestMatch (search : nat -> string -> list TorrentResult)
    (title artist : string) (minSeeders : Z) : option TorrentResult :=
  first_good search title artist minSeeders 0 (queries title artist).

End TorrentClient.

(* ================================================================== *)
(** ** The ranking of [YouTubeClient.searchKaraokeVideos] *)
(* ================================================================== *)

Module YouTubeClient.

Record YouTubeVideo : Type := mkVideo {
  id : string;
  title : string;
  duration : Z;
  url : string;
  thumbnail : string;
  uploader : string
}.

Record KaraokeSearchResult : Type := mkResult {
  video : YouTubeVideo;
  relevanceScore : Q;
  isLyricVideo : bool;
  isOfficialKaraoke : bool
}.

Definition removeDuplicates (results : list KaraokeSearchResult)
    : list KaraokeSearchResult :=
  Arrays.filter_unseen (fun result => id (video result)) ∅ results.

(** The end of [searchKaraokeVideos] (lines 92-96): duplicates removed,
    sorted by relevance, cut to [limit]. *)
Definition rank (limit : Z) (allResults : list KaraokeSearchResult)
    : list KaraokeSearchResult :=
  let uniqueResults := removeDuplicates allResults in
  Arrays.slice_to limit (Arrays.sort_desc relevanceScore uniqueResults).

End YouTubeClient.

(* ================================================================== *)
(** ** The queue routes ([src/app/api/queue/[songId]/.../route.ts]) *)
(* ================================================================== *)

Inductive Response : Type :=
| SongStarted                               (* 200, message 'Song started' *)
| SongCompleted (nextSongId : option string)   (* 200, with the promoted song *)
| ErrorResponse (code : Z) (error : string).

(** The body that [GET /api/queue] returns. *)
Record QueueView : Type := mkQueueView {
  current : option QueuedSong.t;
  queue : list QueuedSong.t;
  total : Z
}.

Module QueueRoutes.

(** [GET /api/queue]: the playing song, the queue without the playing
    songs, and the length of the queue with them. *)
Definition GET (w : World) : QueueView :=
  let queue := KaraokeDB.getQueue w in
  let current := KaraokeDB.getCurrentSong w in
  mkQueueView current
    (List.filter (fun song => negb (bool_decide (QueuedSong.status song = playing))) queue)
    (Z.of_nat (length queue)).

(** [DELETE /api/queue?songId=...]: [true] stands for [{ success: true }]. *)
Definition DELETE (songId : option string) (w : World) : World * (Z * string + bool) :=
  if negb (JS.truthy songId) then (w, inl (400, "songId is required"))
  else (KaraokeDB.removeSong (default "" songId) w, inr true).

(** [POST /api/queue/[songId]/start] *)
Definition start (songId : string) (w : World) : World * Response :=
  if String.eqb songId "" then (w, ErrorResponse 400 "songId is required") else
  (* Check if song exists and is ready *)
  match KaraokeDB.getSong songId w with
  | None => (w, ErrorResponse 404 "Song not found")
  | Some song =>
      if negb (bool_decide (QueuedSong.status song = ready))
      then (w, ErrorResponse 400 "Song is not ready to play")
      else
        (* Mark current song as complete and set this song as playing *)
        let w1 :=
          match KaraokeDB.getCurrentSong w with
          | Some currentSong =>
              KaraokeDB.updateSongStatus (QueuedSong.id currentSong) completed None w
          | None => w
          end in
        (KaraokeDB.updateSongStatus songId playing None w1, SongStarted)
  end.

(** [POST /api/queue/[songId]/complete] *)
Definition complete (songId : string) (w : World) : World * Response :=
  if String.eqb songId "" then (w, ErrorResponse 400 "songId is required") else
  (* Mark song as completed *)
  let w1 := KaraokeDB.updateSongStatus songId completed None w in
  (* Find next ready song and start it automatically *)
  let queue := KaraokeDB.getQueue w1 in
  let nextSong := find (fun song => bool_decide (QueuedSong.status song = ready)) queue in
  match nextSong with
  | Some next =>
      (KaraokeDB.updateSongStatus (QueuedSong.id next) playing None w1,
       SongCompleted (JS.or_undefined (Some (QueuedSong.id next))))
  | None => (w1, SongCompleted None)
  end.

End QueueRoutes.

(* ================================================================== *)
(** ** The request route ([src/app/api/queue/request/route.ts]) *)
(* ================================================================== *)

Module Text.

(** [s.split(sep)] for a separator that is not empty: [skip] counts the
    characters of a separator that are still to be passed over, [cur]
    holds the part that is being read, last character first. *)
Fixpoint split_from (sep : string) (s : string) (skip : nat) (cur : list ascii)
    : list string :=
  match s with
  | EmptyString => [path.of_list (rev cur)]
  | String c s' =>
      match skip with
      | S skip' => split_from sep s' skip' cur
      | O =>
          if JS.startsWith s sep
          then path.of_list (rev cur) :: split_from sep s' (String.length sep - 1) []
          else split_from sep s' O (c :: cur)
      end
  end.

Definition split (sep s : string) : list string := split_from sep s O [].

(** [parts.join(sep)] *)
Fixpoint join (sep : string) (parts : list string) : string :=
  match parts with
  | [] => ""
  | [part] => part
  | part :: parts' => part +:+ sep +:+ join sep parts'
  end.

(** [v || fallback] on a string. *)
Definition or_else (v fallback : string) : string :=
  if String.eqb v "" then fallback else v.

End Text.

Module RequestRoute.

(** The title and the artist that the route reads in the search query
    (lines 32-51): "artist - title", "title by artist", or the last word
    as the artist. *)
Definition parseQuery (searchQuery : string) : string * string :=
  if JS.includes searchQuery " - " then
    let parts := map JS.trim (Text.split " - " searchQuery) in
    (List.nth 1 parts "", List.nth 0 parts "")
  else if JS.includes searchQuery " by " then
    let parts := map JS.trim (Text.split " by " searchQuery) in
    (List.nth 0 parts "", List.nth 1 parts "")
  else
    let words := Text.split " " searchQuery in
    if (1 <? length words)%nat then
      (Text.or_else (Text.join " " (List.removelast words)) "Unknown Song",
       Text.or_else (List.last words "") "Unknown Artist")
    else (searchQuery, "Unknown Artist").

Inductive Answer : Type :=
| Added (songId : string)            (* 200, success with the id of the song *)
| Refused (code : Z) (error : string).

(** [POST /api/queue/request], when the request is answered.  The two
    ids, the colour and the date are drawn by the route ([uuidv4],
    [Math.random], [new Date()]); they are arguments here.  The call of
    [processKaraokeSong] is not awaited.  It runs up to its first
    [await], on the promise of [checkCache], which is settled already;
    the route returns its response, and the promise of the route, an
    [async] function, is settled after the microtask that resumes the
    run: when the request is answered the run has gone on to its first
    wait for a collaborator.  What is left of the run is the third
    component of the result. *)
Definition POST (userName searchQuery processingQuality outputFormat : option string)
    (userId songId userColor now : string) (w : World)
    : World * Answer * option (Proc unit) :=
  if negb (JS.truthy userName) || negb (JS.truthy searchQuery)
  then (w, Refused 400 "Missing required fields", None)
  else
    (* Create or get user *)
    let user := User.mk userId (JS.trim (default "" userName)) userColor in
    let w1 := KaraokeDB.addUser user w in
    (* Parse song info *)
    let (songTitle, artist) := parseQuery (default "" searchQuery) in
    (* Create song entry *)
    let song := QueuedSong.mk songId user songTitle artist now queued 0 None in
    (* Add to database *)
    match KaraokeDB.addSong song w1 with
    | (w2, inl _) => (w2, Refused 500 "Failed to add song to queue", None)
    | (w2, inr _) =>
        (* Start autonomous background processing *)
        let options :=
          mkAutonomousProcessingOptions
            (mkProcessingOptions
               (if JS.truthy processingQuality then default "" processingQuality
                else "balanced")
               (if JS.truthy outputFormat then default "" outputFormat else "wav"))
            None None None in
        let (w3, job) :=
          settle (AutonomousProcessor.processKaraokeSong songId options) w2 in
        (w3, Added songId, Some job)
    end.

End RequestRoute.

(* ================================================================== *)
(** ** Sample states and collaborators *)
(* ================================================================== *)

Module Sample.

Definition alice : User.t := User.mk "u1" "Alice" "bg-pink-500".

Definition song (id title artist : string) (st : Status) (progress : Z)
    (requested : string) : Song.row :=
  Song.mk id "u1" title artist st progress requested None None None None None None
          (Some (title +:+ " " +:+ artist)) None None None None.

Definition world (rows : list Song.row) (cache : list Cache.row)
    (files : gmap string FNode) : World :=
  mkWorld [alice] rows cache 0 files "/srv/karaokio" 1700000000 ∅ ∅ [].

(** Collaborators that give the same reply to every call of a kind. *)
Record Script : Type := mkScript {
  findBestMatch : Reply (option TorrentResult);
  downloadAudio : Reply (option string);
  getBestKaraokeVideo : Reply (option KaraokeVideo);
  separateVocals : Reply Stems;
  fetchLyrics : Reply (option string);
  smartSynchronize : Reply (list LyricLine);
  replaceAudio : Reply string;
  optimizeForStreaming : Reply string;
  importVideoGenerator : Reply unit;
  generateKaraokeVideo : Reply string;
  createLyricVideo : Reply string
}.

Fixpoint scripted (s : Script) (c : Call) : Reply (ret_type c) :=
  match c return Reply (ret_type c) with
  | FindBestMatch _ _ _ => findBestMatch s
  | DownloadAudio _ _ => downloadAudio s
  | GetBestKaraokeVideo _ _ => getBestKaraokeVideo s
  | Race c' _ _ => scripted s c'
  | SeparateVocals _ _ => separateVocals s
  | FetchLyrics _ _ => fetchLyrics s
  | SmartSynchronize _ _ => smartSynchronize s
  | ReplaceAudio _ _ _ => replaceAudio s
  | OptimizeForStreaming _ => optimizeForStreaming s
  | ImportVideoGenerator => importVideoGenerator s
  | GenerateKaraokeVideo _ _ _ => generateKaraokeVideo s
  | CreateLyricVideo _ _ _ => createLyricVideo s
  end.

Definition oracle (s : Script) : Oracle := fun _ c => scripted s c.

Definition resolves {X : Type} (x : X) : Reply X := mkReply [] [] 0 [] 1 (inr x).
Definition rejects {X : Type} (e : Error) : Reply X := mkReply [] [] 0 [] 1 (inl e).

Definition torrent : TorrentResult :=
  mkTorrentResult "Queen - Bohemian Rhapsody" "5MB" 50 "magnet:test" "test".

Definition audio : string := "/srv/karaokio/downloads/queen.mp3".
Definition stems : Stems :=
  mkStems "/srv/karaokio/output/queen/instrumental.wav"
          "/srv/karaokio/output/queen/vocals.wav".
Definition generated : string := "/srv/karaokio/output/queen/generated_karaoke.mp4".

(** Every stage succeeds, no karaoke video is found and no lyrics are
    found; the download and the separation report their progress. *)
Definition no_lyrics : Script :=
  mkScript (resolves (Some torrent))
           (mkReply [0 # 1; 1 # 2; 1 # 1]%Q [] 0 [(audio, Some (File 4096))] 60
                    (inr (Some audio)))
           (resolves None)
           (mkReply [0 # 1; 1 # 4; 1 # 1]%Q [] 0
                    [(instrumental stems, Some (File 8192))] 90 (inr stems))
           (resolves None)
           (resolves [])
           (resolves "")
           (resolves "")
           (resolves tt)
           (resolves generated)
           (mkReply [] [] 0 [(generated, Some (File 1024))] 5 (inr generated)).

(** The same, but lyrics are found and their synchronisation fails. *)
Definition sync_fails : Script :=
  mkScript (findBestMatch no_lyrics) (downloadAudio no_lyrics)
           (getBestKaraokeVideo no_lyrics) (separateVocals no_lyrics)
           (resolves (Some "Is this the real life?"))
           (rejects "ffprobe failed")
           (replaceAudio no_lyrics) (optimizeForStreaming no_lyrics)
           (importVideoGenerator no_lyrics) (generateKaraokeVideo no_lyrics)
           (createLyricVideo no_lyrics).

(** The separation fails, with one message or another. *)
Definition separation_fails (cause : Error) : Script :=
  mkScript (findBestMatch no_lyrics) (downloadAudio no_lyrics)
           (getBestKaraokeVideo no_lyrics) (rejects cause)
           (fetchLyrics no_lyrics) (smartSynchronize no_lyrics)
           (replaceAudio no_lyrics) (optimizeForStreaming no_lyrics)
           (importVideoGenerator no_lyrics) (generateKaraokeVideo no_lyrics)
           (createLyricVideo no_lyrics).

(** The download loses the race against its wait time after two
    reports and reports once more afterwards, while the video lookup is
    awaited; the audio is then found among the uploads. *)
Definition slow_download : Script :=
  mkScript (findBestMatch no_lyrics)
           (mkReply [0 # 1; 1 # 2]%Q [1 # 1]%Q 0 [] 300 (inl "Torrent timeout"))
           (mkReply [] [] 1 [] 1 (inr None))
           (separateVocals no_lyrics) (fetchLyrics no_lyrics)
           (smartSynchronize no_lyrics) (replaceAudio no_lyrics)
           (optimizeForStreaming no_lyrics) (importVideoGenerator no_lyrics)
           (generateKaraokeVideo no_lyrics) (createLyricVideo no_lyrics).

Definition uploads : gmap string FNode :=
  {[ "/srv/karaokio/uploads" := Dir 4096 ["Queen - Bohemian Rhapsody.mp3"];
     "/srv/karaokio/uploads/Queen - Bohemian Rhapsody.mp3" := File 4096 ]}.

Definition options : AutonomousProcessingOptions :=
  mkAutonomousProcessingOptions (mkProcessingOptions "high" "wav") None None None.

Definition options_cached : AutonomousProcessingOptions :=
  mkAutonomousProcessingOptions (mkProcessingOptions "high" "wav") (Some true) None None.

Definition bohemian : Song.row :=
  song "s1" "Bohemian Rhapsody" "Queen" queued 0 "2024-05-01T20:00:00.000Z".

(** The cache holds a complete entry for the song. *)
Definition cached_files : gmap string FNode :=
  {[ "/srv/karaokio/cache/instrumental.wav" := File 8192;
     "/srv/karaokio/cache/karaoke.mp4" := File 1024 ]}.

Definition cached_row : Cache.row :=
  Cache.mk 1 (CacheManager.generateCacheKey "Bohemian Rhapsody" "Queen" "high")
           "Bohemian Rhapsody" "Queen" None
           (Some "/srv/karaokio/cache/instrumental.wav") None
           (Some "/srv/karaokio/cache/karaoke.mp4") None (Some "high")
           1690000000 1690000000 9216.

Definition cached : World := world [bohemian] [cached_row] cached_files.

(** A run for song s1 is under way, at 45 percent. *)
Definition busy : World :=
  mkWorld [alice]
          [song "s1" "Bohemian Rhapsody" "Queen" processing 45 "2024-05-01T20:00:00.000Z"]
          [] 0 ∅ "/srv/karaokio" 1700000000
          {[ "s1" := AutonomousProcessor.make_job "s1" options ]}
          {[ "s1" := mkProcessingJob "s1" (base options) ]} [].

(** A request for a second song of Alice. *)
Definition africa : QueuedSong.t :=
  QueuedSong.mk "s2" alice "Africa" "Toto" "2024-05-01T20:05:00.000Z" queued 0 None.

(** The files of a finished run, on disk. *)
Definition finished_files : ProcessedSong.Files :=
  ProcessedSong.mkFiles (Some audio) (Some (instrumental stems)) None (Some generated).

Definition finished_disk : gmap string FNode :=
  {[ audio := File 4096; instrumental stems := File 8192; generated := File 1024 ]}.

(** Three cache rows, last accessed on different days; the files of the
    first two are on disk. *)
Definition cache_row (id : Z) (key file : string) (accessed : Z) : Cache.row :=
  Cache.mk id key key "artist" None (Some file) None (Some (file +:+ ".mp4")) None
           (Some "high") 1690000000 accessed 2048.

Definition three_entries : World :=
  mkWorld [alice] []
          [ cache_row 1 "k1" "/srv/karaokio/cache/one" 1690000000;
            cache_row 2 "k2" "/srv/karaokio/cache/two" 1699000000;
            cache_row 3 "k3" "/srv/karaokio/cache/three" 1699990000 ]
          3
          {[ "/srv/karaokio/cache/one" := File 2048;
             "/srv/karaokio/cache/one.mp4" := File 2048;
             "/srv/karaokio/cache/two" := File 2048 ]}
          "/srv/karaokio" 1700000000 ∅ ∅ [].

End Sample.

(* ================================================================== *)
(** ** Vocabulary of the statements *)
(* ================================================================== *)

(** A string made of white space only. *)
Fixpoint blank (s : string) : bool :=
  match s with
  | EmptyString => true
  | String c s' => JS.is_space c && blank s'
  end.

(** [s'] differs from [s] only in letter case and in leading or trailing
    white space: both are a common text, up to case, between blanks. *)
Definition variant (s s' : string) : Prop :=
  exists l u r l' u' r',
    s = l +:+ u +:+ r /\ s' = l' +:+ u' +:+ r' /\
    blank l = true /\ blank r = true /\ blank l' = true /\ blank r' = true /\
    JS.toLowerCase u = JS.toLowerCase u'.



(** The file that a column names is there: the value is truthy and the
    path exists. *)
Definition on_disk (files : gmap string FNode) (col : option string) : bool :=
  JS.truthy col && match files !! default "" col with Some _ => true | None => false end.

(** Both mandatory artifacts of a cache row are there. *)
Definition complete (files : gmap string FNode) (row : Cache.row) : bool :=
  on_disk files (Cache.instrumental_path row) && on_disk files (Cache.video_path row).

(** The rows of the cache under another key. *)
Definition other_rows (cacheKey : string) (rows : list Cache.row) : list Cache.row :=
  filter (fun r => Cache.cache_key r ≠ cacheKey) rows.

(** The existence check that [checkCache] makes for a column. *)
Definition check_of (col : option string) : list Event :=
  if JS.truthy col then [EvExists (default "" col)] else [].

(** The order of the queue: the texts of [requested_at] compared byte by
    byte, which is the order of the instants for the ISO 8601 strings
    that [addSong] stores. *)
Definition requestedAt_le (x y : QueuedSong.t) : Prop :=
  String.leb (QueuedSong.requestedAt x) (QueuedSong.requestedAt y).

(** The number of songs whose status is [playing]. *)
Definition playing_count (w : World) : nat :=
  length (filter (fun r => Song.status r = playing) (songs w)).

(** [id TEXT PRIMARY KEY]: the songs have distinct ids. *)
Definition distinct_ids (w : World) : Prop := NoDup (Song.id <$> songs w).

(** [FOREIGN KEY (user_id) REFERENCES users (id)]: the user of every
    song is there. *)
Definition users_known (w : World) : Prop :=
  Forall (fun r => exists u, u ∈ users w /\ User.id u = Song.user_id r) (songs w).

(** The constraints of table [processed_cache]: [cache_key TEXT UNIQUE],
    [id INTEGER PRIMARY KEY AUTOINCREMENT] with its counter. *)
Definition cache_ok (w : World) : Prop :=
  NoDup (Cache.cache_key <$> processed_cache w) /\
  NoDup (Cache.id <$> processed_cache w) /\
  Forall (fun r => Cache.id r <= cache_seq w) (processed_cache w).

(** The character [c] does not occur in [s]. *)
Fixpoint lacks (c : ascii) (s : string) : bool :=
  match s with
  | EmptyString => true
  | String c' s' => negb (Ascii.eqb c' c) && lacks c s'
  end.

(** The path names a regular file. *)
Definition is_file (files : gmap string FNode) (p : string) : Prop :=
  exists size, files !! p = Some (File size).

#[global] Instance is_file_dec files p : Decision (is_file files p).
Proof.
  unfold is_file. destruct (files !! p) as [[size|size entries]|].
  - left. now exists size.
  - right. intros [size' H]. discriminate H.
  - right. intros [size' H]. discriminate H.
Defined.

(** The constraints of the two tables: the primary keys and the
    foreign key. *)
Definition db_ok (w : World) : Prop :=
  NoDup (User.id <$> users w) /\ distinct_ids w /\ users_known w.

(** No song but [songId] is playing. *)
Definition only_player (songId : string) (w : World) : Prop :=
  Forall (fun r => Song.status r = playing -> Song.id r = songId) (songs w).

Module SampleQueue.
Import Sample.

(** One song, whose processing failed. *)
Definition after_failure : World :=
  world [song "s1" "Bohemian Rhapsody" "Queen" failed 0 "2024-05-01T20:00:00.000Z"] [] ∅.

(** Three songs that are ready, none on stage. *)
Definition waiting : World :=
  world [ song "a" "Africa" "Toto" ready 100 "2024-05-01T20:00:00.000Z";
          song "b" "Believe" "Cher" ready 100 "2024-05-01T20:01:00.000Z";
          song "c" "Creep" "Radiohead" ready 100 "2024-05-01T20:02:00.000Z" ] [] ∅.

(** A song on stage and two songs that are ready. *)
Definition on_stage : World :=
  world [ song "a" "Africa" "Toto" playing 100 "2024-05-01T20:00:00.000Z";
          song "b" "Believe" "Cher" ready 100 "2024-05-01T20:01:00.000Z";
          song "c" "Creep" "Radiohead" ready 100 "2024-05-01T20:02:00.000Z" ] [] ∅.
End SampleQueue.

(** The status writes with a progress that a history holds for a song. *)
Definition progress_writes (songId : string) (evs : list Event) : list (Status * Z) :=
  omap (fun e =>
          match e with
          | EvStatus id st (Some p) => if String.eqb id songId then Some (st, p) else None
          | _ => None
          end) evs.

(** Writes of a job that is running: the status is [processing] and the
    progress stays between [lo] and [hi] and never decreases. *)
Definition steady (lo hi : Z) (ws : list (Status * Z)) : Prop :=
  Forall (fun x => x.1 = processing /\ lo <= x.2 <= hi) ws /\
  StronglySorted Z.le (snd <$> ws).

(** Every [onProgress] report of the collaborators, the late ones
    included, lies between [lo] and [hi], and the reports of one call
    never decrease. *)
Definition reports_within (lo hi : Q) (o : Oracle) : Prop :=
  forall n c, Forall (fun q => lo <= q /\ q <= hi)%Q (reports (o n c) ++ late (o n c)) /\
              StronglySorted Qle (reports (o n c) ++ late (o n c)).

(** No call of the collaborators reports after it has been abandoned. *)
Definition no_late_reports (o : Oracle) : Prop := forall n c, late (o n c) = [].

(** Whatever the state, running [p] from a quiet event loop leaves the
    event loop quiet, appends a history [evs] and ends with a result [r]
    such that [Q r evs]. *)
Definition emits {A : Type} (o : Oracle) (p : Proc A)
    (Q : Error + A -> list Event -> Prop) : Prop :=
  forall cs w, exists evs,
    pending (run o p (idle cs) w).1.2 = [] /\
    trace (run o p (idle cs) w).1.1 = trace w ++ evs /\ Q (run o p (idle cs) w).2 evs.

(** A postcondition: whatever the result, the progress writes of the
    song are those of a running job between [lo] and [hi]. *)
Definition keeps (songId : string) (lo hi : Z) {A : Type}
    (r : Error + A) (evs : list Event) : Prop :=
  steady lo hi (progress_writes songId evs).

(** A history without a status write and without an awaited call. *)
Definition quiet (evs : list Event) : Prop :=
  Forall (fun e => match e with
                   | EvStatus _ _ _ | EvAwait _ => False
                   | _ => True
                   end) evs.

(** A postcondition: a run that returns has written a steady progress
    and then [ready] with 100; a run that throws has only written a
    steady progress. *)
Definition outcome (songId : string) (lo hi : Z) {A : Type}
    (r : Error + A) (evs : list Event) : Prop :=
  match r with
  | inr _ => exists pre, progress_writes songId evs = pre ++ [(ready, 100)] /\ steady lo hi pre
  | inl _ => steady lo hi (progress_writes songId evs)
  end.

(** The progress writes of a whole run: those of a running job, closed
    by the write of a terminal status. *)
Definition run_writes (songId : string) (ws : list (Status * Z)) : Prop :=
  exists pre final,
    ws = pre ++ [final] /\
    Forall (fun x => x.1 = processing) pre /\
    StronglySorted Z.le (snd <$> pre) /\
    (final = (ready, 100) \/ final = (failed, 0)) /\
    (final = (ready, 100) -> StronglySorted Z.le (snd <$> ws)).

(** The part of the state that a submission is about: the users, the
    songs and the two registries of jobs. *)
Definition orchestration (w : World)
    : list User.t * list Song.row * gmap string AutonomousProcessingJob
      * gmap string ProcessingJob :=
  (users w, songs w, autonomous_jobs w, processor_jobs w).

(** Whatever the state, the calls that [p] awaits all satisfy [P]. *)
Definition asks {A : Type} (o : Oracle) (p : Proc A) (P : Call -> bool) : Prop :=
  forall s w, exists cs,
    asked (run o p s w).1.2 = asked s ++ cs /\ forallb P cs = true.

(** A call of the video stage that takes no lyrics. *)
Definition instrumental_only (c : Call) : bool :=
  match c with
  | ReplaceAudio _ _ _ | OptimizeForStreaming _ | ImportVideoGenerator => true
  | CreateLyricVideo [] _ _ => true
  | _ => false
  end.

(** The song is marked with a status and a progress. *)
Definition marked (songId : string) (st : Status) (progress : Z) (w : World) : Prop :=
  Forall (fun r => Song.id r = songId ->
                   Song.status r = st /\ Song.processing_progress r = progress)
         (songs w).

(** What a job of [songId] leaves alone in a row of the songs: the whole
    row of another song, and of its own song all but the status, the
    progress and the four paths, which are blanked here. *)
Definition foreign (songId : string) (r : Song.row) : Song.row :=
  if String.eqb (Song.id r) songId then
    Song.mk (Song.id r) (Song.user_id r) (Song.song_title r) (Song.artist r)
            queued 0 (Song.requested_at r) (Song.started_at r) (Song.completed_at r)
            None None None None (Song.search_query r) (Song.cache_key r)
            (Song.torrent_magnet r) (Song.youtube_video_id r) (Song.processing_method r)
  else r.

(** The two tables, without what a job of [songId] may write. *)
Definition tables_but (songId : string) (w : World) : list Song.row * list User.t :=
  (foreign songId <$> songs w, users w).

(** A callback that writes nothing else. *)
Definition confined (songId : string) (callback : World -> World) : Prop :=
  forall w, tables_but songId (callback w) = tables_but songId w.

(** Whatever the state and the collaborators' replies, [p] writes
    nothing else, and neither do the reports that it leaves to the
    event loop, when those that it finds there do not. *)
Definition writes_within (o : Oracle) (songId : string) {A : Type} (p : Proc A) : Prop :=
  forall s w, Forall (confined songId) (pending s) ->
    tables_but songId (run o p s w).1.1 = tables_but songId w /\
    Forall (confined songId) (pending (run o p s w).1.2).

(* ================================================================== *)
(** ** Sanity checks of the library models *)
(* ================================================================== *)

Example sha256_abc :
  SHA256.sha256_hex "abc"
  = "ba7816bf8f01cfea414140de5dae2223b00361a396177a9cb410ff61f20015ad".
Proof. vm_compute. reflexivity. Qed.

(** The key of a title and an artist with a letter outside ASCII:
    "Halo" by "BEYONC" followed by U+00C9, the key of "halo_beyonc",
    U+00E9, "_high" in UTF-8. *)
Example generateCacheKey_latin1 :
  CacheManager.generateCacheKey " Halo" ("BEYONC" +:+ String "201" "") "high"
  = "5e66bd65561c0383".
Proof. vm_compute. reflexivity. Qed.

Example path_dirname_ex : path.dirname "/srv/output/song/instrumental.wav" = "/srv/output/song".
Proof. reflexivity. Qed.

Example path_join_ex :
  path.join (path.dirname "/srv/output/song/instrumental.wav") "lyrics.lrc"
  = "/srv/output/song/lyrics.lrc".
Proof. reflexivity. Qed.

Example path_join_dots : path.join "/srv/app/" "../uploads/./a.mp3" = "/srv/uploads/a.mp3".
Proof. reflexivity. Qed.

Example convertToLRC_ex :
  LyricsProcessor.convertToLRC [mkLyricLine 500 3000 "Is this the real life?"]
  = "[00:00.50]Is this the real life?".
Proof. reflexivity. Qed.

(* ================================================================== *)
(** ** Strings *)
(* ================================================================== *)

Section Strings.

Lemma toLowerCase_app s t :
  JS.toLowerCase (s +:+ t) = JS.toLowerCase s +:+ JS.toLowerCase t.
Proof. induction s as [|c s IH]; simpl; [reflexivity | now rewrite IH]. Qed.

Lemma is_space_lower c : JS.is_space (JS.lower_char c) = JS.is_space c.
Proof. destruct c as [[] [] [] [] [] [] [] []]; reflexivity. Qed.

Lemma blank_toLowerCase s : blank (JS.toLowerCase s) = blank s.
Proof.
  induction s as [|c s IH]; simpl; [reflexivity|].
  now rewrite is_space_lower, IH.
Qed.

Lemma trimStart_blank s : blank s = true -> JS.trimStart s = "".
Proof.
  induction s as [|c s IH]; simpl; [reflexivity|].
  intros [Hc Hs]%andb_true_iff. rewrite Hc. auto.
Qed.

Lemma trimEnd_blank s : blank s = true -> JS.trimEnd s = "".
Proof.
  induction s as [|c s IH]; simpl; [reflexivity|].
  intros [Hc Hs]%andb_true_iff. rewrite (IH Hs), Hc. reflexivity.
Qed.

Lemma trimStart_app_blank l s : blank l = true -> JS.trimStart (l +:+ s) = JS.trimStart s.
Proof.
  induction l as [|c l IH]; simpl; [reflexivity|].
  intros [Hc Hl]%andb_true_iff. rewrite Hc. auto.
Qed.

Lemma trimEnd_app_blank s r : blank r = true -> JS.trimEnd (s +:+ r) = JS.trimEnd s.
Proof.
  intros Hr. induction s as [|c s IH]; simpl.
  - now apply trimEnd_blank.
  - now rewrite IH.
Qed.

Lemma trim_app_blank_r u r : blank r = true -> JS.trim (u +:+ r) = JS.trim u.
Proof.
  intros Hr. unfold JS.trim. induction u as [|c u IH].
  - change ("" +:+ r) with r. now rewrite (trimStart_blank r Hr).
  - change (String c u +:+ r) with (String c (u +:+ r)). cbn [JS.trimStart].
    destruct (JS.is_space c); [exact IH|].
    change (String c (u +:+ r)) with (String c u +:+ r).
    now apply trimEnd_app_blank.
Qed.

Lemma trim_padded l u r :
  blank l = true -> blank r = true -> JS.trim (l +:+ u +:+ r) = JS.trim u.
Proof.
  intros Hl Hr. unfold JS.trim at 1. rewrite trimStart_app_blank by assumption.
  now apply trim_app_blank_r.
Qed.

(** Case folding then trimming forgets the case and the padding. *)
Lemma variant_folds s s' :
  variant s s' -> JS.trim (JS.toLowerCase s) = JS.trim (JS.toLowerCase s').
Proof.
  intros (l & u & r & l' & u' & r' & -> & -> & Hl & Hr & Hl' & Hr' & Hu).
  rewrite !toLowerCase_app.
  rewrite !trim_padded by (rewrite blank_toLowerCase; assumption).
  now rewrite Hu.
Qed.

End Strings.

(* ================================================================== *)
(** ** The cache key *)
(* ================================================================== *)


Lemma append_empty_r s : s +:+ "" = s.
Proof.
  induction s as [|c s IH]; [reflexivity|].
  change (String c s +:+ "") with (String c (s +:+ "")). now rewrite IH.
Qed.

Lemma variant_pad_recase l u r s :
  blank l = true -> blank r = true -> JS.toLowerCase u = JS.toLowerCase s ->
  variant s (l +:+ u +:+ r).
Proof.
  intros Hl Hr Hu. exists "", s, "", l, u, r.
  change ("" +:+ s +:+ "") with (s +:+ ""). rewrite append_empty_r.
  repeat split; try assumption; try reflexivity. now symmetry.
Qed.



(* ================================================================== *)
(** ** The cache lookup *)
(* ================================================================== *)

Section CheckCache.

Lemma verified_spec col w :
  let out := CacheManager.verified col w in
  out.2 = (if on_disk (fs w) col then col else None) /\
  fs out.1 = fs w /\ processed_cache out.1 = processed_cache w /\
  clock out.1 = clock w /\ trace out.1 = trace w ++ check_of col.
Proof.
  unfold CacheManager.verified, on_disk, check_of, Fs.existsSync.
  destruct (JS.truthy col); simpl.
  - destruct (fs w !! default "" col); auto.
  - rewrite app_nil_r. auto.
Qed.

Lemma truthy_if_on_disk files col :
  JS.truthy (if on_disk files col then col else None) = on_disk files col.
Proof.
  unfold on_disk. destruct (JS.truthy col) eqn:E; simpl; [|reflexivity].
  destruct (files !! default "" col); simpl; auto.
Qed.

Lemma on_disk_if_on_disk files col :
  on_disk files (if on_disk files col then col else None) = on_disk files col.
Proof. destruct (on_disk files col) eqn:E; [exact E | reflexivity]. Qed.



Lemma touched_rows cacheKey now rows r :
  r ∈ map (fun r => if String.eqb (Cache.cache_key r) cacheKey
                    then Cache.set_last_accessed now r else r) rows ->
  Cache.cache_key r = cacheKey -> Cache.last_accessed r = now.
Proof.
  intros Hin Hk. apply list_elem_of_In, in_map_iff in Hin.
  destruct Hin as (r0 & <- & _).
  destruct (String.eqb_spec (Cache.cache_key r0) cacheKey) as [E|E]; [reflexivity|].
  contradiction.
Qed.

(** The whole of [checkCache] on a row that is found. *)
Lemma checkCache_found title artist quality w row :
  let cacheKey := CacheManager.generateCacheKey title artist quality in
  let out := CacheManager.checkCache title artist quality w in
  let touched := processed_cache (CacheManager.updateLastAccessed cacheKey w) in
  let checks := check_of (Cache.original_audio_path row)
                ++ check_of (Cache.instrumental_path row)
                ++ check_of (Cache.lyrics_path row)
                ++ check_of (Cache.video_path row) in
  CacheManager.select_row cacheKey (processed_cache w) = Some row ->
  fs out.1 = fs w /\
  if complete (fs w) row then
    out.2 = Some (ProcessedSong.mk cacheKey
              (ProcessedSong.mkFiles
                 (if on_disk (fs w) (Cache.original_audio_path row)
                  then Cache.original_audio_path row else None)
                 (Cache.instrumental_path row)
                 (if on_disk (fs w) (Cache.lyrics_path row)
                  then Cache.lyrics_path row else None)
                 (Cache.video_path row))
              (ProcessedSong.mkMetadata (Cache.title row) (Cache.artist row)
                 (Cache.processing_quality row) (Cache.youtube_video_id row))) /\
    processed_cache out.1 = touched /\
    trace out.1 = trace w ++ [EvCacheSelect cacheKey; EvCacheTouch cacheKey (clock w)]
                    ++ checks
  else
    out.2 = None /\
    processed_cache out.1 = other_rows cacheKey touched /\
    trace out.1 = trace w ++ [EvCacheSelect cacheKey; EvCacheTouch cacheKey (clock w)]
                    ++ checks ++ [EvCacheDelete cacheKey].
Proof.
  intros cacheKey out touched checks Hsel.
  subst out. unfold CacheManager.checkCache. fold cacheKey.
  cbn [processed_cache emit]. rewrite Hsel.
  set (w1 := CacheManager.updateLastAccessed cacheKey (emit (EvCacheSelect cacheKey) w)).
  assert (Hw1 : fs w1 = fs w /\ processed_cache w1 = touched /\ clock w1 = clock w /\
                trace w1 = trace w ++ [EvCacheSelect cacheKey; EvCacheTouch cacheKey (clock w)]).
  { subst w1 touched. unfold CacheManager.updateLastAccessed. simpl.
    rewrite <- app_assoc. auto. }
  destruct Hw1 as (F1 & C1 & K1 & T1).
  destruct (CacheManager.verified (Cache.original_audio_path row) w1) as [w2 o] eqn:E2.
  pose proof (verified_spec (Cache.original_audio_path row) w1) as H2.
  rewrite E2 in H2. cbn [fst snd] in H2. destruct H2 as (-> & F2 & C2 & K2 & T2).
  destruct (CacheManager.verified (Cache.instrumental_path row) w2) as [w3 i] eqn:E3.
  pose proof (verified_spec (Cache.instrumental_path row) w2) as H3.
  rewrite E3 in H3. cbn [fst snd] in H3. destruct H3 as (-> & F3 & C3 & K3 & T3).
  destruct (CacheManager.verified (Cache.lyrics_path row) w3) as [w4 l] eqn:E4.
  pose proof (verified_spec (Cache.lyrics_path row) w3) as H4.
  rewrite E4 in H4. cbn [fst snd] in H4. destruct H4 as (-> & F4 & C4 & K4 & T4).
  destruct (CacheManager.verified (Cache.video_path row) w4) as [w5 v] eqn:E5.
  pose proof (verified_spec (Cache.video_path row) w4) as H5.
  rewrite E5 in H5. cbn [fst snd] in H5. destruct H5 as (-> & F5 & C5 & K5 & T5).
  rewrite !truthy_if_on_disk.
  assert (Ffs : fs w5 = fs w) by congruence.
  assert (Ftr : trace w5 = trace w ++ [EvCacheSelect cacheKey; EvCacheTouch cacheKey (clock w)]
                             ++ checks).
  { subst checks. rewrite T5, T4, T3, T2, T1. now rewrite <- !app_assoc. }
  assert (Fc : processed_cache w5 = touched) by congruence.
  replace (fs w4) with (fs w) by congruence.
  replace (fs w3) with (fs w) by congruence.
  replace (fs w2) with (fs w) by congruence.
  replace (fs w1) with (fs w) by congruence.
  unfold complete.
  destruct (on_disk (fs w) (Cache.instrumental_path row)) eqn:Ei;
    destruct (on_disk (fs w) (Cache.video_path row)) eqn:Ev; cbn [negb orb andb fst snd].
  1: { split; [exact Ffs|]. auto. }
  all: split; [exact Ffs|]; split; [reflexivity|];
    unfold CacheManager.removeFromCache; cbn [processed_cache trace emit with_cache];
    fold (other_rows cacheKey (processed_cache w5)); rewrite Fc, Ftr;
    split; [reflexivity | now rewrite <- !app_assoc].
Qed.

Lemma checkCache_absent title artist quality w :
  let cacheKey := CacheManager.generateCacheKey title artist quality in
  CacheManager.select_row cacheKey (processed_cache w) = None ->
  CacheManager.checkCache title artist quality w = (emit (EvCacheSelect cacheKey) w, None).
Proof.
  intros cacheKey Hsel. unfold CacheManager.checkCache. fold cacheKey.
  cbn [processed_cache emit]. now rewrite Hsel.
Qed.

(** With the keys unique ([cache_key TEXT UNIQUE]), the row that the
    query selects is the row of the table under that key. *)
Lemma select_row_unique cacheKey rows row :
  NoDup (Cache.cache_key <$> rows) -> row ∈ rows -> Cache.cache_key row = cacheKey ->
  CacheManager.select_row cacheKey rows = Some row.
Proof.
  unfold CacheManager.select_row.
  induction rows as [|r rows IH]; intros Hnd Hin Hk; [now apply elem_of_nil in Hin|].
  cbn [fmap list_fmap] in Hnd. apply NoDup_cons in Hnd as [Hr Hnd]. cbn [find].
  apply elem_of_cons in Hin as [<-|Hin].
  - now rewrite (proj2 (String.eqb_eq _ _) Hk).
  - destruct (String.eqb_spec (Cache.cache_key r) cacheKey) as [E|E]; [|now apply IH].
    exfalso. apply Hr. apply list_elem_of_fmap. exists row. split; [congruence | exact Hin].
Qed.

Lemma select_row_none cacheKey rows :
  (forall row, row ∈ rows -> Cache.cache_key row <> cacheKey) ->
  CacheManager.select_row cacheKey rows = None.
Proof.
  unfold CacheManager.select_row. intros H.
  induction rows as [|r rows IH]; [reflexivity|]. cbn [find].
  destruct (String.eqb_spec (Cache.cache_key r) cacheKey) as [E|E].
  - exfalso. apply (H r); [left | exact E].
  - apply IH. intros row Hrow. apply H. now right.
Qed.

Lemma select_row_some cacheKey rows row :
  CacheManager.select_row cacheKey rows = Some row ->
  row ∈ rows /\ Cache.cache_key row = cacheKey.
Proof.
  unfold CacheManager.select_row. intros H. apply find_some in H as [Hin E].
  split; [now apply list_elem_of_In | now apply String.eqb_eq].
Qed.



End CheckCache.

(** C3: in an index with unique keys, a lookup returns an entry only
    for a stored row under the key whose instrumental and video are both
    on storage, and it then returns those two paths; when the stored row
    under the key misses one of them, the lookup returns a miss and no
    row with that key is left in the index; with no row under the key
    the lookup is a miss. *)
Theorem checkCache_serves_only_complete_entries title artist quality w :
  NoDup (Cache.cache_key <$> processed_cache w) ->
  let cacheKey := CacheManager.generateCacheKey title artist quality in
  let out := CacheManager.checkCache title artist quality w in
  (forall hit, out.2 = Some hit ->
     exists row, row ∈ processed_cache w /\ Cache.cache_key row = cacheKey /\
       complete (fs w) row = true /\
       ProcessedSong.instrumental (ProcessedSong.files hit) = Cache.instrumental_path row /\
       ProcessedSong.video (ProcessedSong.files hit) = Cache.video_path row /\
       on_disk (fs out.1) (ProcessedSong.instrumental (ProcessedSong.files hit)) = true /\
       on_disk (fs out.1) (ProcessedSong.video (ProcessedSong.files hit)) = true) /\
  (forall row, row ∈ processed_cache w -> Cache.cache_key row = cacheKey ->
     if complete (fs w) row then
       exists hit, out.2 = Some hit /\
         ProcessedSong.instrumental (ProcessedSong.files hit) = Cache.instrumental_path row /\
         ProcessedSong.video (ProcessedSong.files hit) = Cache.video_path row
     else
       out.2 = None /\
       Forall (fun r => Cache.cache_key r <> cacheKey) (processed_cache out.1)) /\
  ((forall row, row ∈ processed_cache w -> Cache.cache_key row <> cacheKey) ->
   out.2 = None).
Proof.
  intros Hnd cacheKey out.
  assert (Hrow : forall row, CacheManager.select_row cacheKey (processed_cache w) = Some row ->
            if complete (fs w) row then
              exists hit, out.2 = Some hit /\
                ProcessedSong.instrumental (ProcessedSong.files hit)
                = Cache.instrumental_path row /\
                ProcessedSong.video (ProcessedSong.files hit) = Cache.video_path row /\
                on_disk (fs out.1) (ProcessedSong.instrumental (ProcessedSong.files hit))
                = true /\
                on_disk (fs out.1) (ProcessedSong.video (ProcessedSong.files hit)) = true
            else
              out.2 = None /\
              Forall (fun r => Cache.cache_key r <> cacheKey) (processed_cache out.1)).
  { intros row Hsel.
    destruct (checkCache_found title artist quality w row Hsel) as [Hfs H].
    fold cacheKey out in Hfs, H.
    destruct (complete (fs w) row) eqn:Hc.
    - destruct H as (Hr & _). eexists. split; [exact Hr|]. cbn.
      rewrite Hfs. unfold complete in Hc. apply andb_true_iff in Hc. tauto.
    - destruct H as (Hr & Hrows & _). split; [exact Hr|].
      rewrite Hrows. unfold other_rows. apply Forall_forall. intros r Hr'.
      apply list_elem_of_filter in Hr'. tauto. }
  split; [|split].
  - intros hit Hhit.
    destruct (CacheManager.select_row cacheKey (processed_cache w)) as [row|] eqn:Hsel.
    + destruct (select_row_some _ _ _ Hsel) as [Hin Hk].
      specialize (Hrow row eq_refl). exists row.
      destruct (complete (fs w) row).
      * destruct Hrow as (hit' & Hhit' & Hrest). rewrite Hhit in Hhit'.
        injection Hhit' as <-. tauto.
      * destruct Hrow as [Hnone _]. congruence.
    + subst out. rewrite checkCache_absent in Hhit by exact Hsel. discriminate.
  - intros row Hin Hk. specialize (Hrow row (select_row_unique _ _ _ Hnd Hin Hk)).
    destruct (complete (fs w) row); [|exact Hrow].
    destruct Hrow as (hit & Hhit & Hi & Hv & _). now exists hit.
  - intros Hnone. subst out. now rewrite checkCache_absent by now apply select_row_none.
Qed.

Lemma checkCache_serves_only_complete_entries_witness :
  let w := Sample.world [Sample.bohemian] [Sample.cached_row] ∅ in
  let out := CacheManager.checkCache "Bohemian Rhapsody" "Queen" "high" w in
  out.2 = None /\
  Forall (fun r => Cache.cache_key r
                   <> CacheManager.generateCacheKey "Bohemian Rhapsody" "Queen" "high")
         (processed_cache out.1).
Proof.
  intros w.
  destruct (checkCache_serves_only_complete_entries "Bohemian Rhapsody" "Queen" "high" w)
    as (_ & H & _).
  - cbn. apply NoDup_singleton.
  - apply (H Sample.cached_row); [cbn; left | reflexivity].
Defined.



(* ================================================================== *)
(** ** The queue *)
(* ================================================================== *)

Section StringOrder.

Lemma ascii_compare_lt_trans a b c :
  Ascii.compare a b = Lt -> Ascii.compare b c = Lt -> Ascii.compare a c = Lt.
Proof.
  unfold Ascii.compare. rewrite !N.compare_lt_iff. apply N.lt_trans.
Qed.

Lemma string_compare_trans a : forall b c,
  String.compare a b <> Gt -> String.compare b c <> Gt -> String.compare a c <> Gt.
Proof.
  induction a as [|x a IH]; intros [|y b] [|z c]; cbn [String.compare]; try congruence.
  destruct (Ascii.compare x y) eqn:Exy; [| |congruence];
    destruct (Ascii.compare y z) eqn:Eyz; try congruence.
  - apply Ascii.compare_eq_iff in Exy, Eyz. subst.
    rewrite (proj2 (N.compare_eq_iff _ _) eq_refl : Ascii.compare z z = Eq). apply IH.
  - apply Ascii.compare_eq_iff in Exy. subst. now rewrite Eyz.
  - apply Ascii.compare_eq_iff in Eyz. subst. now rewrite Exy.
  - now rewrite (ascii_compare_lt_trans _ _ _ Exy Eyz).
Qed.

Lemma string_leb_trans a b c :
  String.leb a b = true -> String.leb b c = true -> String.leb a c = true.
Proof.
  unfold String.leb. intros Hab Hbc.
  pose proof (string_compare_trans a b c) as H.
  destruct (String.compare a b), (String.compare b c), (String.compare a c);
    try reflexivity; try discriminate; exfalso; apply H; congruence.
Qed.

#[local] Instance requested_le_total : Total KaraokeDB.requested_le.
Proof.
  intros x y. unfold KaraokeDB.requested_le.
  destruct (String.leb_total (Song.requested_at x.1) (Song.requested_at y.1)) as [H|H];
    rewrite H; [left | right]; exact I.
Qed.

#[local] Instance requested_le_trans : Transitive KaraokeDB.requested_le.
Proof.
  intros x y z. unfold KaraokeDB.requested_le. rewrite !Is_true_true.
  apply string_leb_trans.
Qed.

Lemma getQueue_sorted w : StronglySorted requestedAt_le (KaraokeDB.getQueue w).
Proof.
  unfold KaraokeDB.getQueue.
  apply (StronglySorted_fmap _ KaraokeDB.requested_le).
  - intros [s u] [s' u']. unfold KaraokeDB.requested_le, requestedAt_le. simpl. auto.
  - apply StronglySorted_merge_sort; apply _.
Qed.

Lemma getQueue_perm w :
  KaraokeDB.getQueue w
  ≡ₚ KaraokeDB.to_song <$>
       filter (fun su => KaraokeDB.in_queue (Song.status su.1) = true) (KaraokeDB.joined w).
Proof. unfold KaraokeDB.getQueue. now rewrite merge_sort_Permutation. Qed.

End StringOrder.

(** C9 (as amended): the queue query returns exactly the songs, joined
    with their users, whose status is queued, processing, ready or
    playing (failed songs are left out like completed ones), ordered by
    [requestedAt] ascending. *)
Theorem getQueue_lists_the_active_songs w :
  KaraokeDB.getQueue w
  ≡ₚ KaraokeDB.to_song <$>
       filter (fun su => Song.status su.1 ∈ [queued; processing; ready; playing])
              (KaraokeDB.joined w)
  /\ StronglySorted requestedAt_le (KaraokeDB.getQueue w).
Proof.
  split; [|apply getQueue_sorted].
  rewrite getQueue_perm. apply fmap_Permutation.
  erewrite list_filter_iff; [reflexivity|]. intros [s u]. cbn [fst].
  rewrite !elem_of_cons, elem_of_nil.
  destruct (Song.status s); cbn; intuition congruence.
Qed.

(** C9, as stated, fails: a failed song is not completed, yet the queue
    does not return it. *)
Lemma getQueue_counterexample :
  exists s, s ∈ songs SampleQueue.after_failure /\ Song.status s <> completed /\
            KaraokeDB.getQueue SampleQueue.after_failure = [].
Proof.
  eexists. split; [apply list_elem_of_here|]. split; [discriminate | reflexivity].
Qed.

(* ================================================================== *)
(** ** Running asynchronous functions *)
(* ================================================================== *)

Section Run.

Context (o : Oracle).

Lemma run_bind {A B} (p : Proc A) (f : A -> Proc B) s w :
  run o (bind p f) s w =
  match run o p s w with
  | (w', s', inr a) => run o (f a) s' w'
  | (w', s', inl e) => (w', s', inl e)
  end.
Proof.
  revert s w. induction p as [a|e|X op k IH|k IH|c cb k IH]; intros s w; cbn [bind run].
  - reflexivity.
  - reflexivity.
  - destruct (op w) as [w' x]. apply IH.
  - apply IH.
  - destruct (after_await c cb (o (length (asked s)) c) w s) as [w' s']. apply IH.
Qed.

Lemma run_mbind {A B} (p : Proc A) (f : A -> Proc B) s w :
  run o (p ≫= f) s w =
  match run o p s w with
  | (w', s', inr a) => run o (f a) s' w'
  | (w', s', inl e) => (w', s', inl e)
  end.
Proof. apply run_bind. Qed.

Lemma run_try_catch {A} (p : Proc A) (h : Error -> Proc A) s w :
  run o (try_catch p h) s w =
  match run o p s w with
  | (w', s', inr a) => (w', s', inr a)
  | (w', s', inl e) => run o (h e) s' w'
  end.
Proof.
  revert s w. induction p as [a|e|X op k IH|k IH|c cb k IH]; intros s w;
    cbn [try_catch run].
  - reflexivity.
  - reflexivity.
  - destruct (op w) as [w' x]. apply IH.
  - apply IH.
  - destruct (after_await c cb (o (length (asked s)) c) w s) as [w' s']. apply IH.
Qed.

Lemma run_finally {A} (p : Proc A) (f : Proc unit) s w :
  run o (finally p f) s w =
  match run o p s w with
  | (w', s', r) =>
      match run o f s' w' with
      | (w'', s'', inr _) => (w'', s'', r)
      | (w'', s'', inl e) => (w'', s'', inl e)
      end
  end.
Proof.
  revert s w. induction p as [a|e|X op k IH|k IH|c cb k IH]; intros s w;
    cbn [finally run].
  - rewrite run_bind. destruct (run o f s w) as [[w' s'] [e'|[]]]; reflexivity.
  - rewrite run_bind. destruct (run o f s w) as [[w' s'] [e'|[]]]; reflexivity.
  - destruct (op w) as [w' x]. apply IH.
  - apply IH.
  - destruct (after_await c cb (o (length (asked s)) c) w s) as [w' s']. apply IH.
Qed.

Lemma run_exec (f : World -> World) s w : run o (exec f) s w = (f w, s, inr tt).
Proof. reflexivity. Qed.

Lemma run_read {X} (f : World -> X) s w : run o (read f) s w = (w, s, inr (f w)).
Proof. reflexivity. Qed.

Lemma run_sync {X} (op : World -> World * X) s w :
  run o (sync op) s w = ((op w).1, s, inr (op w).2).
Proof. unfold sync. cbn [run]. now destruct (op w). Qed.

Lemma run_attempt {X} (op : World -> World * (Error + X)) s w :
  run o (attempt op) s w = ((op w).1, s, (op w).2).
Proof. unfold attempt. cbn [run]. destruct (op w) as [w' [e|x]]; reflexivity. Qed.

Lemma run_await_progress c cb s w :
  run o (await_progress c cb) s w =
  ((after_await c cb (o (length (asked s)) c) w s).1,
   (after_await c cb (o (length (asked s)) c) w s).2,
   result (o (length (asked s)) c)).
Proof.
  unfold await_progress. cbn [run].
  destruct (after_await c cb (o (length (asked s)) c) w s) as [w' s'].
  destruct (result (o (length (asked s)) c)); reflexivity.
Qed.

Lemma run_await c s w :
  run o (await c) s w =
  ((after_await c (fun _ w => w) (o (length (asked s)) c) w s).1,
   (after_await c (fun _ w => w) (o (length (asked s)) c) w s).2,
   result (o (length (asked s)) c)).
Proof. apply run_await_progress. Qed.

Lemma run_await_async {X} (body : Proc X) s w :
  run o (await_async body) s w = run o body s w.
Proof.
  unfold await_async. rewrite run_bind.
  destruct (run o body s w) as [[w' s'] [e|x]]; reflexivity.
Qed.

End Run.

(* ================================================================== *)
(** ** Histories of runs *)
(* ================================================================== *)

Section Emits.

Context (o : Oracle).

Lemma emits_conseq {A} (p : Proc A) (Q Q' : Error + A -> list Event -> Prop) :
  emits o p Q -> (forall r evs, Q r evs -> Q' r evs) -> emits o p Q'.
Proof. intros H HQ n w. destruct (H n w) as (evs & Hp & Ht & Hq). eauto. Qed.

Lemma emits_ret {A} (a : A) (Q : Error + A -> list Event -> Prop) :
  Q (inr a) [] -> emits o (Ret a) Q.
Proof. intros H n w. exists []. cbn. now rewrite app_nil_r. Qed.

Lemma emits_throw {A} e (Q : Error + A -> list Event -> Prop) :
  Q (inl e) [] -> emits o (Throw e) Q.
Proof. intros H n w. exists []. cbn. now rewrite app_nil_r. Qed.

Lemma idle_eta s : pending s = [] -> s = idle (asked s).
Proof. destruct s as [cs pend]. cbn. now intros ->. Qed.

Lemma emits_bind {A B} (p : Proc A) (f : A -> Proc B)
    (Q1 : Error + A -> list Event -> Prop) (Q : Error + B -> list Event -> Prop) :
  emits o p Q1 ->
  (forall e evs, Q1 (inl e) evs -> Q (inl e) evs) ->
  (forall a evs1, Q1 (inr a) evs1 ->
                  emits o (f a) (fun r evs2 => Q r (evs1 ++ evs2))) ->
  emits o (p ≫= f) Q.
Proof.
  intros Hp He Hf cs w. rewrite run_mbind.
  destruct (Hp cs w) as (evs1 & Hs1 & Ht1 & Hq1).
  destruct (run o p (idle cs) w) as [[w1 s1] [e|a]]; cbn [fst snd] in *.
  - exists evs1. auto.
  - rewrite (idle_eta s1 Hs1).
    destruct (Hf a evs1 Hq1 (asked s1) w1) as (evs2 & Hs2 & Ht2 & Hq2).
    exists (evs1 ++ evs2). rewrite Ht2, Ht1, app_assoc. auto.
Qed.

Lemma emits_try_catch {A} (p : Proc A) (h : Error -> Proc A)
    (Q1 Q : Error + A -> list Event -> Prop) :
  emits o p Q1 ->
  (forall a evs, Q1 (inr a) evs -> Q (inr a) evs) ->
  (forall e evs1, Q1 (inl e) evs1 ->
                  emits o (h e) (fun r evs2 => Q r (evs1 ++ evs2))) ->
  emits o (try_catch p h) Q.
Proof.
  intros Hp Ha Hh cs w. rewrite run_try_catch.
  destruct (Hp cs w) as (evs1 & Hs1 & Ht1 & Hq1).
  destruct (run o p (idle cs) w) as [[w1 s1] [e|a]]; cbn [fst snd] in *.
  - rewrite (idle_eta s1 Hs1).
    destruct (Hh e evs1 Hq1 (asked s1) w1) as (evs2 & Hs2 & Ht2 & Hq2).
    exists (evs1 ++ evs2). rewrite Ht2, Ht1, app_assoc. auto.
  - exists evs1. auto.
Qed.

(** A [finally] block that only changes the state, without a word. *)
Lemma emits_finally_exec {A} (p : Proc A) (g : World -> World)
    (Q : Error + A -> list Event -> Prop) :
  (forall w, trace (g w) = trace w) ->
  emits o p Q -> emits o (finally p (exec g)) Q.
Proof.
  intros Hg Hp cs w. rewrite run_finally.
  destruct (Hp cs w) as (evs & Hs & Ht & Hq).
  destruct (run o p (idle cs) w) as [[w1 s1] r]; cbn [fst snd] in *.
  rewrite run_exec. cbn [fst snd]. exists evs. rewrite Hg. auto.
Qed.

Lemma emits_exec (g : World -> World) (evs : list Event)
    (Q : Error + unit -> list Event -> Prop) :
  (forall w, trace (g w) = trace w ++ evs) -> Q (inr tt) evs -> emits o (exec g) Q.
Proof. intros Hg HQ n w. exists evs. rewrite run_exec. cbn. auto. Qed.

Lemma emits_read {X} (g : World -> X) (Q : Error + X -> list Event -> Prop) :
  (forall x, Q (inr x) []) -> emits o (read g) Q.
Proof. intros HQ n w. exists []. rewrite run_read. cbn. rewrite app_nil_r. auto. Qed.

Lemma emits_sync {X} (op : World -> World * X) (Q : Error + X -> list Event -> Prop) :
  (forall w, exists evs, trace (op w).1 = trace w ++ evs /\ Q (inr (op w).2) evs) ->
  emits o (sync op) Q.
Proof.
  intros H n w. rewrite run_sync. cbn [fst snd].
  destruct (H w) as (evs & ? & ?). exists evs. auto.
Qed.

Lemma emits_attempt {X} (op : World -> World * (Error + X))
    (Q : Error + X -> list Event -> Prop) :
  (forall w, exists evs, trace (op w).1 = trace w ++ evs /\ Q (op w).2 evs) ->
  emits o (attempt op) Q.
Proof.
  intros H n w. rewrite run_attempt. cbn [fst snd].
  destruct (H w) as (evs & ? & ?). exists evs. auto.
Qed.

Lemma emits_await_async {X} (body : Proc X) (Q : Error + X -> list Event -> Prop) :
  emits o body Q -> emits o (await_async body) Q.
Proof. intros H n w. rewrite run_await_async. apply H. Qed.

(** *** What an awaited call leaves in the history *)

Lemma trace_fold_touch ts w : trace (fold_left touch ts w) = trace w.
Proof.
  revert w. induction ts as [|t ts IH]; intros w; cbn [fold_left]; [reflexivity|].
  rewrite IH. unfold touch. destruct (snd t); reflexivity.
Qed.

(** From a quiet event loop nothing stale is delivered. *)
Lemma trace_after_await_idle {X} c cb (r : Reply X) w cs :
  trace (after_await c cb r w (idle cs)).1
  = trace (fold_left (deliver cb) (reports r) (emit (EvAwait c) w)).
Proof.
  unfold after_await. cbn [fst trace with_clock idle pending].
  rewrite trace_fold_touch, take_nil. reflexivity.
Qed.

Lemma pending_after_await_idle {X} c cb (r : Reply X) w cs :
  late r = [] -> pending (after_await c cb r w (idle cs)).2 = [].
Proof.
  intros Hl. unfold after_await. cbn [snd pending idle].
  rewrite drop_nil, Hl. now destruct (lost_race c (result r)).
Qed.

Lemma fold_deliver_silent qs w : fold_left (deliver (fun _ w => w)) qs w = w.
Proof. induction qs as [|q qs IH]; cbn [fold_left]; [reflexivity | exact IH]. Qed.

(** A callback that writes the status [processing] with a progress
    computed from the report. *)
Lemma trace_fold_deliver_status songId (f : Q -> Z) qs w :
  trace (fold_left
           (deliver (fun q => KaraokeDB.updateSongStatus songId processing (Some (f q))))
           qs w)
  = trace w ++ map (fun q => EvStatus songId processing (Some (f q))) qs.
Proof.
  revert w. induction qs as [|q qs IH]; intros w; cbn [fold_left map].
  - now rewrite app_nil_r.
  - rewrite IH. unfold deliver, KaraokeDB.updateSongStatus. cbn [trace emit with_songs].
    now rewrite <- app_assoc.
Qed.

Hypothesis Hlate : no_late_reports o.

Lemma emits_await c (Q : Error + ret_type c -> list Event -> Prop) :
  (forall r, Q r [EvAwait c]) -> emits o (await c) Q.
Proof.
  intros HQ n w. exists [EvAwait c]. rewrite run_await. cbn [fst snd asked idle].
  rewrite pending_after_await_idle by apply Hlate.
  rewrite trace_after_await_idle, fold_deliver_silent. cbn. auto.
Qed.

Lemma emits_await_status c songId (f : Q -> Z)
    (Q : Error + ret_type c -> list Event -> Prop) :
  (forall n r, Q r (EvAwait c ::
                    map (fun q => EvStatus songId processing (Some (f q)))
                        (reports (o n c)))) ->
  emits o (await_progress c
             (fun q => KaraokeDB.updateSongStatus songId processing (Some (f q)))) Q.
Proof.
  intros HQ n w. eexists. rewrite run_await_progress. cbn [fst snd asked idle].
  rewrite pending_after_await_idle by apply Hlate.
  rewrite trace_after_await_idle, trace_fold_deliver_status. cbn [trace emit].
  rewrite <- app_assoc. split; [reflexivity|]. split; [reflexivity|]. cbn. apply HQ.
Qed.

End Emits.

(* ================================================================== *)
(** ** Progress writes *)
(* ================================================================== *)

Section Steady.

Lemma progress_writes_app songId evs1 evs2 :
  progress_writes songId (evs1 ++ evs2)
  = progress_writes songId evs1 ++ progress_writes songId evs2.
Proof. apply omap_app. Qed.

Lemma progress_writes_status songId st p :
  progress_writes songId [EvStatus songId st (Some p)] = [(st, p)].
Proof. cbn. now rewrite String.eqb_refl. Qed.

Lemma progress_writes_quiet songId evs : quiet evs -> progress_writes songId evs = [].
Proof.
  induction 1 as [|e evs He _ IH]; [reflexivity|].
  cbn. destruct e; try contradiction; exact IH.
Qed.

Lemma quiet_app evs1 evs2 : quiet evs1 -> quiet evs2 -> quiet (evs1 ++ evs2).
Proof. apply Forall_app_2. Qed.

Lemma steady_nil lo hi : steady lo hi [].
Proof. split; constructor. Qed.

Lemma steady_single p : steady p p [(processing, p)].
Proof.
  split.
  - constructor; [|constructor]. cbn. split; [reflexivity | lia].
  - cbn. constructor; constructor.
Qed.

Lemma steady_weaken lo hi lo' hi' ws :
  steady lo hi ws -> lo' <= lo -> hi <= hi' -> steady lo' hi' ws.
Proof.
  intros [Hb Hs] Hlo Hhi. split; [|exact Hs].
  eapply Forall_impl; [exact Hb|]. cbn. intros x [? ?]. split; [assumption | lia].
Qed.

Lemma steady_app lo1 hi1 lo2 hi2 ws1 ws2 :
  steady lo1 hi1 ws1 -> steady lo2 hi2 ws2 -> hi1 <= lo2 ->
  steady (Z.min lo1 lo2) (Z.max hi1 hi2) (ws1 ++ ws2).
Proof.
  intros [Hb1 Hs1] [Hb2 Hs2] Hle. split.
  - apply Forall_app_2; (eapply Forall_impl; [eassumption|]); cbn;
      intros x [? ?]; (split; [assumption | lia]).
  - rewrite fmap_app. apply StronglySorted_app; repeat split; try assumption.
    intros x1 x2 H1 H2.
    apply list_elem_of_fmap in H1 as (y1 & -> & H1).
    apply list_elem_of_fmap in H2 as (y2 & -> & H2).
    rewrite Forall_forall in Hb1, Hb2.
    destruct (Hb1 _ H1) as [_ ?], (Hb2 _ H2) as [_ ?]. lia.
Qed.

(** The writes of a callback whose progress grows with the report. *)
Lemma steady_reports (f : Q -> Z) lo hi (a b : Q) qs :
  (forall q, (a <= q /\ q <= b)%Q -> lo <= f q <= hi) ->
  (forall q q', (q <= q')%Q -> f q <= f q') ->
  Forall (fun q => a <= q /\ q <= b)%Q qs -> StronglySorted Qle qs ->
  steady lo hi (map (fun q => (processing, f q)) qs).
Proof.
  intros Hb Hm Hin Hs. split.
  - clear Hs. induction Hin as [|q qs Hq _ IH]; cbn [map]; [constructor|].
    constructor; [|exact IH]. cbn. split; [reflexivity | now apply Hb].
  - clear Hin. induction Hs as [|q qs _ IH Hq]; cbn; [constructor|].
    constructor; [exact IH|].
    rewrite Forall_forall in Hq. apply Forall_forall. intros x Hx.
    apply list_elem_of_fmap in Hx as (y & -> & Hy).
    apply list_elem_of_In, in_map_iff in Hy as (q' & <- & Hq').
    cbn. apply Hm, Hq. now apply list_elem_of_In.
Qed.

Lemma Math_round_mono x y : (x <= y)%Q -> JS.Math_round x <= JS.Math_round y.
Proof.
  intros H. unfold JS.Math_round. apply Qfloor_resp_le.
  now apply Qplus_le_compat; [|apply Qle_refl].
Qed.

Lemma scaled_round_mono (k : Q) q q' :
  (0 <= k)%Q -> (q <= q')%Q -> JS.Math_round (q * k) <= JS.Math_round (q' * k).
Proof. intros Hk H. apply Math_round_mono. now apply Qmult_le_compat_r. Qed.

Lemma scaled_round_bounds (k b : Q) q :
  (0 <= k)%Q -> (0 <= q /\ q <= b)%Q ->
  0 <= JS.Math_round (q * k) <= JS.Math_round (b * k).
Proof.
  intros Hk [H0 Hb]. split.
  - change 0 with (JS.Math_round 0%Q) at 1. apply Math_round_mono.
    now apply Qmult_le_0_compat.
  - now apply scaled_round_mono.
Qed.

End Steady.

Section Keeps.

Context (o : Oracle) (songId : string).
Hypothesis Hlate : no_late_reports o.

Lemma keeps_weaken {A} (p : Proc A) lo hi lo' hi' :
  emits o p (keeps songId lo hi) -> lo' <= lo -> hi <= hi' ->
  emits o p (keeps songId lo' hi').
Proof.
  intros H Hlo Hhi. eapply emits_conseq; [exact H|].
  intros r evs Hs. unfold keeps in *. eauto using steady_weaken.
Qed.

Lemma keeps_app {A B} lo1 hi1 lo2 hi2 lo hi (r : Error + B) evs1 evs2 :
  steady lo1 hi1 (progress_writes songId evs1) ->
  @keeps songId lo2 hi2 A (inl "") evs2 ->
  hi1 <= lo2 -> lo <= lo1 -> lo <= lo2 -> hi1 <= hi -> hi2 <= hi ->
  keeps songId lo hi r (evs1 ++ evs2).
Proof.
  unfold keeps. intros H1 H2 ? ? ? ? ?. rewrite progress_writes_app.
  eapply steady_weaken; [eapply steady_app; eassumption | lia | lia].
Qed.

Lemma keeps_bind {A B} lo1 hi1 lo2 hi2 lo hi (p : Proc A) (f : A -> Proc B) :
  emits o p (keeps songId lo1 hi1) ->
  (forall a, emits o (f a) (keeps songId lo2 hi2)) ->
  hi1 <= lo2 -> lo <= lo1 -> lo <= lo2 -> hi1 <= hi -> hi2 <= hi ->
  emits o (p ≫= f) (keeps songId lo hi).
Proof.
  intros Hp Hf ? ? ? ? ?. eapply emits_bind; [exact Hp | |].
  - intros e evs Hs. unfold keeps in *. eapply steady_weaken; [exact Hs | lia | lia].
  - intros a evs1 Hs. eapply emits_conseq; [apply Hf|].
    intros r evs2 Hk. eapply (keeps_app (A:=B)); eauto.
Qed.

Lemma keeps_try_catch {A} lo1 hi1 lo2 hi2 lo hi (p : Proc A) (h : Error -> Proc A) :
  emits o p (keeps songId lo1 hi1) ->
  (forall e, emits o (h e) (keeps songId lo2 hi2)) ->
  hi1 <= lo2 -> lo <= lo1 -> lo <= lo2 -> hi1 <= hi -> hi2 <= hi ->
  emits o (try_catch p h) (keeps songId lo hi).
Proof.
  intros Hp Hh ? ? ? ? ?. eapply emits_try_catch; [exact Hp | |].
  - intros a evs Hs. unfold keeps in *. eapply steady_weaken; [exact Hs | lia | lia].
  - intros e evs1 Hs. eapply emits_conseq; [apply Hh|].
    intros r evs2 Hk. eapply (keeps_app (A:=A)); eauto.
Qed.

(** Steps that write no progress for the song. *)
Lemma keeps_quiet {A} (p : Proc A) lo hi :
  emits o p (fun _ evs => progress_writes songId evs = []) ->
  emits o p (keeps songId lo hi).
Proof.
  intros H. eapply emits_conseq; [exact H|]. intros r evs E. unfold keeps.
  rewrite E. apply steady_nil.
Qed.

Lemma keeps_ret {A} (a : A) lo hi : emits o (Ret a) (keeps songId lo hi).
Proof. apply emits_ret, steady_nil. Qed.

Lemma keeps_throw {A} e lo hi : emits o (@Throw A e) (keeps songId lo hi).
Proof. apply emits_throw, steady_nil. Qed.

Lemma keeps_read {X} (g : World -> X) lo hi : emits o (read g) (keeps songId lo hi).
Proof. apply emits_read. intros x. apply steady_nil. Qed.

Lemma keeps_await c lo hi : emits o (await c) (keeps songId lo hi).
Proof. apply emits_await; [exact Hlate|]. intros r. apply steady_nil. Qed.

Lemma keeps_status p :
  emits o (exec (KaraokeDB.updateSongStatus songId processing (Some p)))
        (keeps songId p p).
Proof.
  apply emits_exec with (evs := [EvStatus songId processing (Some p)]).
  - reflexivity.
  - unfold keeps. rewrite progress_writes_status. apply steady_single.
Qed.

Lemma keeps_paths a b c d lo hi :
  emits o (exec (KaraokeDB.updateSongPaths songId a b c d)) (keeps songId lo hi).
Proof.
  apply keeps_quiet. apply (emits_sync o (fun w => (_, tt))). intros w.
  unfold KaraokeDB.updateSongPaths. cbn [fst snd].
  destruct (JS.truthy a || JS.truthy b || JS.truthy c || JS.truthy d).
  - exists [EvPaths songId a b c d]. split; reflexivity.
  - exists []. now rewrite app_nil_r.
Qed.

Lemma keeps_existsSync p lo hi : emits o (sync (Fs.existsSync p)) (keeps songId lo hi).
Proof.
  apply keeps_quiet, emits_sync. intros w. exists [EvExists p]. split; reflexivity.
Qed.

Lemma keeps_writeFileSync p content lo hi :
  emits o (attempt (Fs.writeFileSync p content)) (keeps songId lo hi).
Proof.
  apply keeps_quiet, emits_attempt. intros w. exists []. rewrite app_nil_r.
  unfold Fs.writeFileSync. destruct (fs w !! p) as [[]|]; split; reflexivity.
Qed.

Lemma keeps_unlinkSync p lo hi :
  emits o (attempt (Fs.unlinkSync p)) (keeps songId lo hi).
Proof.
  apply keeps_quiet, emits_attempt. intros w. exists []. rewrite app_nil_r.
  unfold Fs.unlinkSync. destruct (fs w !! p) as [[]|]; split; reflexivity.
Qed.

Lemma keeps_readdirSync p lo hi :
  emits o (attempt (Fs.readdirSync p)) (keeps songId lo hi).
Proof.
  apply keeps_quiet, emits_attempt. intros w. exists []. rewrite app_nil_r.
  unfold Fs.readdirSync. destruct (fs w !! p) as [[]|]; split; reflexivity.
Qed.

Lemma quiet_check_of col : quiet (check_of col).
Proof.
  unfold check_of. destruct (JS.truthy col); repeat constructor.
Qed.

Lemma checkCache_history title artist quality w :
  exists evs, trace (CacheManager.checkCache title artist quality w).1 = trace w ++ evs
              /\ quiet evs.
Proof.
  destruct (CacheManager.select_row (CacheManager.generateCacheKey title artist quality)
              (processed_cache w)) as [row|] eqn:Hsel.
  - destruct (checkCache_found title artist quality w row Hsel) as [_ H].
    destruct (complete (fs w) row); destruct H as (_ & _ & ->); eexists;
      (split; [reflexivity|]); repeat apply quiet_app;
      try apply quiet_check_of; repeat constructor.
  - rewrite checkCache_absent by exact Hsel. eexists. split; [reflexivity|].
    repeat constructor.
Qed.

Lemma keeps_checkCache title artist quality lo hi :
  emits o (sync (CacheManager.checkCache title artist quality)) (keeps songId lo hi).
Proof.
  apply keeps_quiet, emits_sync. intros w.
  destruct (checkCache_history title artist quality w) as (evs & Ht & Hq).
  exists evs. split; [exact Ht | now apply progress_writes_quiet].
Qed.

Lemma add_size_history filePath w total :
  exists evs, trace (CacheManager.add_size filePath (w, total)).1 = trace w ++ evs
              /\ quiet evs.
Proof.
  unfold CacheManager.add_size. destruct (JS.truthy filePath); cbn.
  - eexists. split; [reflexivity|]. repeat constructor.
  - exists []. rewrite app_nil_r. split; [reflexivity | constructor].
Qed.

Lemma addToCache_history title artist quality files youtubeVideoId w :
  exists evs,
    trace (CacheManager.addToCache title artist quality files youtubeVideoId w).1
    = trace w ++ evs /\ quiet evs.
Proof.
  unfold CacheManager.addToCache.
  destruct (add_size_history (ProcessedSong.original files) w 0) as (e1 & T1 & Q1).
  destruct (CacheManager.add_size (ProcessedSong.original files) (w, 0)) as [w1 s1].
  destruct (add_size_history (ProcessedSong.instrumental files) w1 s1) as (e2 & T2 & Q2).
  destruct (CacheManager.add_size (ProcessedSong.instrumental files) (w1, s1)) as [w2 s2].
  destruct (add_size_history (ProcessedSong.lyrics files) w2 s2) as (e3 & T3 & Q3).
  destruct (CacheManager.add_size (ProcessedSong.lyrics files) (w2, s2)) as [w3 s3].
  destruct (add_size_history (ProcessedSong.video files) w3 s3) as (e4 & T4 & Q4).
  destruct (CacheManager.add_size (ProcessedSong.video files) (w3, s3)) as [w4 s4].
  cbn [fst snd] in *. cbn [trace emit with_cache with_cache_seq].
  rewrite T4, T3, T2, T1.
  exists (e1 ++ e2 ++ e3 ++ e4 ++
          [EvCacheInsert (CacheManager.generateCacheKey title artist quality)]).
  split; [now rewrite <- !app_assoc|].
  repeat apply quiet_app; try assumption. repeat constructor.
Qed.

Lemma keeps_addToCache title artist quality files youtubeVideoId lo hi :
  emits o (sync (CacheManager.addToCache title artist quality files youtubeVideoId))
        (keeps songId lo hi).
Proof.
  apply keeps_quiet, emits_sync. intros w.
  destruct (addToCache_history title artist quality files youtubeVideoId w)
    as (evs & Ht & Hq).
  exists evs. split; [exact Ht | now apply progress_writes_quiet].
Qed.

End Keeps.

(* ================================================================== *)
(** ** Progress of [processKaraokeSong] *)
(* ================================================================== *)

Section Progress.

Import AutonomousProcessor.

Context (o : Oracle) (songId : string).
Hypothesis Hlate : no_late_reports o.
Hypothesis Hrep : reports_within 0 100 o.

Ltac seq lo1 hi1 lo2 hi2 :=
  eapply (keeps_bind o songId lo1 hi1 lo2 hi2); [ | | lia | lia | lia | lia | lia].

Ltac awaits :=
  match goal with
  | |- emits _ (await ?c) (keeps _ ?lo ?hi) => exact (keeps_await o songId Hlate c lo hi)
  end.

Lemma progress_writes_callback c (f : Q -> Z) qs :
  progress_writes songId
    (EvAwait c :: map (fun q => EvStatus songId processing (Some (f q))) qs)
  = map (fun q => (processing, f q)) qs.
Proof.
  cbn [progress_writes omap]. induction qs as [|q qs IH]; [reflexivity|].
  cbn. rewrite String.eqb_refl. cbn. f_equal. exact IH.
Qed.

Lemma keeps_await_scaled c (base top : Z) (k : Q) :
  (0 <= k)%Q -> JS.Math_round (100 * k) = top - base ->
  emits o (await_progress c
             (fun q => KaraokeDB.updateSongStatus songId processing
                         (Some (base + JS.Math_round (q * k)))))
        (keeps songId base top).
Proof.
  intros Hk Htop.
  apply (emits_await_status o Hlate c songId (fun q => base + JS.Math_round (q * k))).
  intros n r. unfold keeps. rewrite progress_writes_callback.
  destruct (Hrep n c) as [Hin Hs]. rewrite Hlate, app_nil_r in Hin, Hs.
  apply (steady_reports _ base top 0 100); [| |exact Hin|exact Hs].
  - intros q Hq. pose proof (scaled_round_bounds k 100 q Hk Hq). cbn beta. lia.
  - intros q q' Hq. pose proof (scaled_round_mono k q q' Hk Hq). cbn beta. lia.
Qed.

Lemma first_existing_keeps uploadDir names b :
  emits o (first_existing uploadDir names) (keeps songId b b).
Proof.
  induction names as [|name names IH]; cbn [first_existing].
  - apply keeps_ret.
  - seq b b b b; [apply keeps_existsSync|].
    intros []; [apply keeps_ret | exact IH].
Qed.

Lemma checkUploadsDirectory_keeps title artist b :
  emits o (checkUploadsDirectory title artist) (keeps songId b b).
Proof.
  unfold checkUploadsDirectory.
  seq b b b b; [apply keeps_read|]. intros uploadDir.
  seq b b b b; [apply keeps_existsSync|]. intros present.
  destruct present; cbn [negb]; [|apply keeps_ret].
  seq b b b b; [apply first_existing_keeps|]. intros [filePath|].
  - apply keeps_ret.
  - seq b b b b; [apply keeps_readdirSync|]. intros entries.
    match goal with |- context [find ?f ?l] => destruct (find f l) end; apply keeps_ret.
Qed.

Lemma acquireAudio_keeps songTitle artist job :
  emits o (acquireAudio songId songTitle artist job) (keeps songId 10 25).
Proof.
  unfold acquireAudio.
  seq 10 10 10 25; [apply keeps_status|]. intros _.
  seq 10 10 10 25; [awaits|]. intros torrentResult.
  seq 10 25 25 25.
  { destruct torrentResult as [torrent|]; [|apply keeps_ret].
    eapply (keeps_try_catch o songId 10 25 25 25); [ | | lia..].
    - match goal with |- emits _ (await_progress ?c _) _ =>
        apply (keeps_await_scaled c 10 25 (15 # 100)); [discriminate | reflexivity]
      end.
    - intros e. apply keeps_ret. }
  intros audioPath.
  seq 25 25 25 25.
  { destruct (JS.truthy audioPath); [apply keeps_ret|].
    apply emits_await_async, checkUploadsDirectory_keeps. }
  intros audioPath'. destruct (JS.truthy audioPath'); [|apply keeps_throw].
  seq 25 25 25 25; [apply keeps_paths|]. intros _. apply keeps_ret.
Qed.

Lemma fetchKaraokeVideo_keeps songTitle artist job :
  emits o (fetchKaraokeVideo songId songTitle artist job) (keeps songId 30 30).
Proof.
  unfold fetchKaraokeVideo.
  seq 30 30 30 30; [apply keeps_status|]. intros _.
  eapply (keeps_try_catch o songId 30 30 30 30); [ | | lia..].
  - seq 30 30 30 30; [awaits|]. intros [r|]; apply keeps_ret.
  - intros e. apply keeps_ret.
Qed.

Lemma separate_keeps audioPath options :
  emits o (separate songId audioPath options) (keeps songId 45 70).
Proof.
  unfold separate.
  seq 45 45 45 70; [apply keeps_status|]. intros _.
  seq 45 70 70 70.
  { match goal with |- emits _ (await_progress ?c _) _ =>
      apply (keeps_await_scaled c 45 70 (25 # 100)); [discriminate | reflexivity]
    end. }
  intros stems. seq 70 70 70 70; [apply keeps_paths|]. intros _. apply keeps_ret.
Qed.

Lemma syncLyrics_keeps songTitle artist instrumental :
  emits o (syncLyrics songId songTitle artist instrumental) (keeps songId 75 75).
Proof.
  unfold syncLyrics.
  seq 75 75 75 75; [apply keeps_status|]. intros _.
  seq 75 75 75 75; [awaits|]. intros lyrics.
  destruct (JS.truthy lyrics); [|apply keeps_ret].
  seq 75 75 75 75; [awaits|]. intros syncedLyrics.
  seq 75 75 75 75; [apply keeps_writeFileSync|]. intros _.
  seq 75 75 75 75; [apply keeps_paths|]. intros _. apply keeps_ret.
Qed.

Lemma compose_keeps instrumental karaokeVideoPath lyrics lyricsPath :
  emits o (compose songId instrumental karaokeVideoPath lyrics lyricsPath)
        (keeps songId 85 85).
Proof.
  unfold compose.
  seq 85 85 85 85; [apply keeps_status|]. intros _.
  seq 85 85 85 85.
  { destruct (JS.truthy karaokeVideoPath); [apply keeps_existsSync | apply keeps_ret]. }
  intros present.
  seq 85 85 85 85.
  { destruct present.
    - seq 85 85 85 85; [awaits|]. intros _.
      seq 85 85 85 85; [awaits|]. intros optimizedPath.
      destruct (negb _); [|apply keeps_ret].
      seq 85 85 85 85; [apply keeps_unlinkSync|]. intros _. apply keeps_ret.
    - seq 85 85 85 85; [awaits|]. intros _.
      seq 85 85 85 85; [|intros _; apply keeps_ret].
      destruct (JS.truthy lyricsPath && JS.truthy lyrics).
      + seq 85 85 85 85; [awaits|]. intros syncedLyrics. awaits.
      + awaits. }
  intros finalVideoPath.
  seq 85 85 85 85; [apply keeps_paths|]. intros _. apply keeps_ret.
Qed.

End Progress.

Section ProgressOfRun.

Import AutonomousProcessor.

Context (o : Oracle) (songId : string).
Hypothesis Hlate : no_late_reports o.
Hypothesis Hrep : reports_within 0 100 o.

Lemma outcome_bind {A B} lo1 hi1 lo2 hi2 lo hi (p : Proc A) (f : A -> Proc B) :
  emits o p (keeps songId lo1 hi1) ->
  (forall a, emits o (f a) (outcome songId lo2 hi2)) ->
  hi1 <= lo2 -> lo <= lo1 -> lo <= lo2 -> hi1 <= hi -> hi2 <= hi ->
  emits o (p ≫= f) (outcome songId lo hi).
Proof.
  intros Hp Hf ? ? ? ? ?. eapply emits_bind; [exact Hp | |].
  - intros e evs Hs. unfold keeps in Hs. cbn. eapply steady_weaken; [exact Hs | lia | lia].
  - intros a evs1 Hs. eapply emits_conseq; [apply Hf|].
    unfold keeps in Hs. intros [e|b] evs2 Ho; cbn in *; rewrite progress_writes_app.
    + eapply steady_weaken; [eapply steady_app; eassumption | lia | lia].
    + destruct Ho as (pre & -> & Hpre). exists (progress_writes songId evs1 ++ pre).
      rewrite app_assoc. split; [reflexivity|].
      eapply steady_weaken; [eapply steady_app; eassumption | lia | lia].
Qed.

Lemma finish_outcome songTitle artist options audioPath instrumental lyricsPath
    finalVideoPath karaokeVideoPath youtubeVideoId b :
  emits o (finish songId songTitle artist options audioPath instrumental lyricsPath
             finalVideoPath karaokeVideoPath youtubeVideoId)
        (outcome songId b b).
Proof.
  unfold finish.
  eapply emits_bind with (Q1 := fun r evs => (exists x, r = inr x) /\ quiet evs).
  { apply emits_await_async, emits_sync. intros w.
    destruct (addToCache_history songTitle artist (quality (base options))
                (ProcessedSong.mkFiles (Some audioPath) (Some instrumental)
                   (JS.or_undefined lyricsPath) (Some finalVideoPath))
                (JS.or_undefined youtubeVideoId) w) as (evs & Ht & Hq).
    exists evs. split; [exact Ht|]. split; [eauto | exact Hq]. }
  { intros e evs [[x Hx] _]. discriminate. }
  intros cacheKey evs1 [_ Hq1].
  eapply emits_bind with (Q1 := fun r evs => r = inr tt /\
                                   evs = [EvStatus songId ready (Some 100)]).
  { apply emits_exec with (evs := [EvStatus songId ready (Some 100)]); auto. }
  { intros e evs [Hx _]. discriminate. }
  intros [] evs2 [_ ->].
  assert (Hend : forall r : Error + unit, forall evs3,
            r = inr tt -> evs3 = [] ->
            outcome songId b b r
              (evs1 ++ [EvStatus songId ready (Some 100)] ++ evs3)).
  { intros r evs3 -> ->. unfold outcome. exists [].
    rewrite !progress_writes_app, (progress_writes_quiet _ _ Hq1), progress_writes_status.
    split; [reflexivity | apply steady_nil]. }
  destruct (JS.truthy karaokeVideoPath && _).
  - eapply emits_try_catch with (Q1 := fun r evs => evs = []).
    + apply emits_attempt. intros w. exists []. rewrite app_nil_r.
      unfold Fs.unlinkSync. destruct (fs w !! _) as [[]|]; split; reflexivity.
    + intros [] evs ->. now apply Hend.
    + intros e evs ->. apply emits_ret. now apply Hend.
  - apply emits_ret. now apply Hend.
Qed.

Lemma fullPipeline_outcome songTitle artist options job :
  emits o (fullPipeline songId songTitle artist options job) (outcome songId 10 85).
Proof.
  unfold fullPipeline.
  eapply (outcome_bind 10 25 30 85); [apply acquireAudio_keeps; assumption | | lia..].
  intros audioPath.
  eapply (outcome_bind 30 30 45 85); [apply fetchKaraokeVideo_keeps; assumption | | lia..].
  intros [karaokeVideoPath youtubeVideoId].
  eapply (outcome_bind 45 70 75 85); [apply separate_keeps; assumption | | lia..].
  intros instrumental.
  eapply (outcome_bind 75 75 85 85); [apply syncLyrics_keeps; assumption | | lia..].
  intros [lyrics lyricsPath].
  eapply (outcome_bind 85 85 85 85); [apply compose_keeps; assumption | | lia..].
  intros finalVideoPath. apply finish_outcome.
Qed.

Lemma useCached_outcome cached b : emits o (useCached songId cached) (outcome songId b b).
Proof.
  unfold useCached.
  eapply (outcome_bind b b b b); [apply keeps_paths | | lia..]. intros _.
  apply emits_exec with (evs := [EvStatus songId ready (Some 100)]); [reflexivity|].
  cbn. exists []. rewrite String.eqb_refl. split; [reflexivity | apply steady_nil].
Qed.

Lemma pipeline_outcome options job :
  emits o (pipeline songId options job) (outcome songId 5 85).
Proof.
  unfold pipeline.
  eapply (outcome_bind 5 5 5 85); [apply keeps_read | | lia..].
  intros [song|]; [|apply emits_throw, steady_nil].
  eapply (outcome_bind 5 5 5 85); [apply keeps_status | | lia..]. intros _.
  eapply (outcome_bind 5 5 5 85);
    [apply emits_await_async, keeps_checkCache | | lia..].
  intros cached.
  assert (Hfull : emits o (fullPipeline songId (QueuedSong.songTitle song)
                             (QueuedSong.artist song) options job)
                        (outcome songId 5 85)).
  { eapply emits_conseq; [apply fullPipeline_outcome|].
    intros [e|a] evs; cbn.
    - intros H. eapply steady_weaken; [exact H | lia | lia].
    - intros (pre & -> & H). exists pre. split; [reflexivity|].
      eapply steady_weaken; [exact H | lia | lia]. }
  destruct cached as [cached|]; [|exact Hfull].
  destruct (useCache options) as [[]|]; try exact Hfull.
  eapply emits_conseq; [apply (useCached_outcome cached 5)|].
  intros [e|a] evs; cbn.
  - intros H. eapply steady_weaken; [exact H | lia | lia].
  - intros (pre & -> & H). exists pre. split; [reflexivity|].
    eapply steady_weaken; [exact H | lia | lia].
Qed.

Lemma steady_run_writes pre final :
  steady 5 85 pre -> final = (ready, 100) \/ final = (failed, 0) ->
  run_writes songId (pre ++ [final]).
Proof.
  intros [Hb Hs] Hfin. exists pre, final. split; [reflexivity|].
  split; [eapply Forall_impl; [exact Hb|]; cbn; tauto|].
  split; [exact Hs|]. split; [exact Hfin|].
  intros ->. rewrite fmap_app. apply StronglySorted_app.
  split; [|split; [exact Hs | cbn; repeat constructor]].
  intros x1 x2 H1 H2. apply list_elem_of_fmap in H1 as (y & -> & Hy).
  rewrite Forall_forall in Hb. destruct (Hb y Hy) as [_ ?].
  cbn in H2. apply list_elem_of_singleton in H2. subst. lia.
Qed.

(** The history of a whole call of [processKaraokeSong]. *)
Lemma processKaraokeSong_writes options :
  emits o (processKaraokeSong songId options)
        (fun _ evs => run_writes songId (progress_writes songId evs)).
Proof.
  unfold processKaraokeSong.
  eapply emits_bind with (Q1 := fun r evs => r = inr tt /\ evs = []).
  { apply emits_exec with (evs := []); [|auto].
    intros w. cbn. now rewrite app_nil_r. }
  { intros e evs [? _]. discriminate. }
  intros _ evs0 [_ ->]. cbn [app].
  apply emits_finally_exec; [reflexivity|].
  eapply emits_try_catch; [apply pipeline_outcome | |].
  - intros [] evs (pre & -> & Hpre). apply steady_run_writes; auto.
  - intros e evs1 Hpre. cbn in Hpre.
    apply emits_exec with (evs := [EvStatus songId failed (Some 0)]); [reflexivity|].
    rewrite progress_writes_app, progress_writes_status.
    apply steady_run_writes; auto.
Qed.

End ProgressOfRun.

Lemma reports_within_weaken (a b a' b' : Q) o :
  reports_within a b o -> (a' <= a)%Q -> (b <= b')%Q -> reports_within a' b' o.
Proof.
  intros H Ha Hb n c. destruct (H n c) as [Hin Hs]. split; [|exact Hs].
  eapply Forall_impl; [exact Hin|]. cbn. intros q [? ?].
  split; eapply Qle_trans; eassumption.
Qed.

(** When no abandoned call reports any more, the progress written by a
    run of [processKaraokeSong] never decreases before the terminal
    status, for reports in [0,1] as for percentages. *)
Lemma progress_steady_when_reports_stop o songId options cs w :
  no_late_reports o -> reports_within 0 100 o ->
  exists evs,
    trace (run o (AutonomousProcessor.processKaraokeSong songId options) (idle cs) w).1.1
    = trace w ++ evs /\
    run_writes songId (progress_writes songId evs).
Proof.
  intros Hlate Hrep.
  destruct (processKaraokeSong_writes o songId Hlate Hrep options cs w) as (evs & _ & H).
  exists evs. exact H.
Qed.

Lemma slow_download_reports : reports_within 0 1 (Sample.oracle Sample.slow_download).
Proof.
  intros n c. unfold Sample.oracle.
  induction c; cbn [Sample.scripted]; try exact IHc;
    (split; [repeat constructor; discriminate | repeat constructor; discriminate]).
Qed.

(** C8 (broken by the code): a download that loses the race against its
    wait time is not cancelled, and what it reports afterwards is written
    over the progress of the later stages.  Here every report lies in
    [0,1] and the reports never decrease, yet the progress written goes
    from 30 back to 10. *)
Theorem abandoned_download_lowers_progress :
  reports_within 0 1 (Sample.oracle Sample.slow_download) /\
  progress_writes "s1"
    (trace (run (Sample.oracle Sample.slow_download)
              (AutonomousProcessor.processKaraokeSong "s1" Sample.options) (idle [])
              (Sample.world [Sample.bohemian] [] Sample.uploads)).1.1)
  = [ (processing, 5); (processing, 10); (processing, 10); (processing, 10);
      (processing, 30); (processing, 10);
      (processing, 45); (processing, 45); (processing, 45); (processing, 45);
      (processing, 75); (processing, 85); (ready, 100) ].
Proof. split; [exact slow_download_reports | vm_compute; reflexivity]. Qed.

Lemma no_lyrics_reports :
  no_late_reports (Sample.oracle Sample.no_lyrics) /\
  reports_within 0 100 (Sample.oracle Sample.no_lyrics).
Proof.
  split; intros n c; unfold Sample.oracle;
    induction c; cbn [Sample.scripted]; try exact IHc; try reflexivity;
    (split; [repeat constructor; discriminate | repeat constructor; discriminate]).
Qed.

Lemma progress_steady_when_reports_stop_witness :
  exists evs,
    trace (run (Sample.oracle Sample.no_lyrics)
             (AutonomousProcessor.processKaraokeSong "s1" Sample.options) (idle [])
             (Sample.world [Sample.bohemian] [] ∅)).1.1
    = trace (Sample.world [Sample.bohemian] [] ∅) ++ evs /\
    run_writes "s1" (progress_writes "s1" evs).
Proof.
  apply progress_steady_when_reports_stop; apply no_lyrics_reports.
Defined.

(* ================================================================== *)
(** ** A second submission *)
(* ================================================================== *)

Section Submit.

Lemma verified_frame col w :
  orchestration (CacheManager.verified col w).1 = orchestration w.
Proof.
  unfold CacheManager.verified, Fs.existsSync. destruct (JS.truthy col); reflexivity.
Qed.

Lemma checkCache_frame title artist quality w :
  orchestration (CacheManager.checkCache title artist quality w).1 = orchestration w.
Proof.
  unfold CacheManager.checkCache.
  destruct (CacheManager.select_row _ _) as [row|]; [|reflexivity].
  repeat match goal with
         | |- context [CacheManager.verified ?col ?w0] =>
             pose proof (verified_frame col w0);
             destruct (CacheManager.verified col w0) as [? ?]; cbn [fst] in *
         end.
  destruct (_ || _); cbn [fst]; unfold orchestration in *; cbn in *; congruence.
Qed.

Lemma joined_updateSongStatus id st p w :
  KaraokeDB.joined (KaraokeDB.updateSongStatus id st p w)
  = map (fun su : Song.row * User.t =>
           (if String.eqb (Song.id su.1) id then
              match p with
              | Some n => Song.set_progress n (Song.set_status st su.1)
              | None => Song.set_status st su.1
              end
            else su.1, su.2))
        (KaraokeDB.joined w).
Proof.
  unfold KaraokeDB.joined, KaraokeDB.updateSongStatus.
  cbn [songs users emit with_songs].
  induction (songs w) as [|s l IH]; [reflexivity|].
  cbn [map omap list_omap].
  assert (Hu : forall s' : Song.row,
             Song.user_id (if String.eqb (Song.id s') id then
                             match p with
                             | Some n => Song.set_progress n (Song.set_status st s')
                             | None => Song.set_status st s'
                             end
                           else s') = Song.user_id s').
  { intros s'. destruct (String.eqb _ _); [destruct p|]; reflexivity. }
  rewrite Hu. destruct (find _ (users w)); cbn [map]; now rewrite <- IH.
Qed.

(** A status update does not hide a song, nor change its title or its
    artist. *)
Lemma getSong_updateSongStatus id id' st p w song :
  KaraokeDB.getSong id' w = Some song ->
  exists song',
    KaraokeDB.getSong id' (KaraokeDB.updateSongStatus id st p w) = Some song' /\
    QueuedSong.songTitle song' = QueuedSong.songTitle song /\
    QueuedSong.artist song' = QueuedSong.artist song.
Proof.
  unfold KaraokeDB.getSong. rewrite joined_updateSongStatus.
  induction (KaraokeDB.joined w) as [|[s u] l IH]; [discriminate|].
  cbn [map find fst snd].
  assert (Hid : Song.id (if String.eqb (Song.id s) id then
                           match p with
                           | Some n => Song.set_progress n (Song.set_status st s)
                           | None => Song.set_status st s
                           end
                         else s) = Song.id s).
  { destruct (String.eqb _ _); [destruct p|]; reflexivity. }
  rewrite Hid. destruct (String.eqb (Song.id s) id'); [|exact IH].
  cbn. intros [= <-]. eexists. split; [reflexivity|].
  destruct (String.eqb _ _); [destruct p|]; auto.
Qed.

Lemma first_existing_start uploadDir names w :
  exists w' r,
    start (JobProcessor.first_existing uploadDir names) w = (w', Ret r) /\
    orchestration w' = orchestration w.
Proof.
  revert w. induction names as [|name names IH]; intros w;
    cbn [JobProcessor.first_existing mbind Proc_bind sync bind start Fs.existsSync].
  - eauto.
  - destruct (fs w !! path.join uploadDir name).
    + eexists _, _. split; reflexivity.
    + destruct (IH (emit (EvExists (path.join uploadDir name)) w)) as (w' & r & -> & ?).
      eauto.
Qed.

(** The synchronous part of a compound is that of its first part,
    then that of what is left. *)
Lemma start_bind {A B} (p : Proc A) (f : A -> Proc B) w :
  start (bind p f) w = start (bind (start p w).2 f) (start p w).1.
Proof.
  revert w. induction p as [a0|e|X op k IH|k IH|c cb k IH]; intros w; cbn [start bind];
    try reflexivity.
  destruct (op w) as [w1 x]. apply IH.
Qed.

Lemma start_try_catch {A} (p : Proc A) (h : Error -> Proc A) w :
  start (try_catch p h) w = start (try_catch (start p w).2 h) (start p w).1.
Proof.
  revert w. induction p as [a0|e|X op k IH|k IH|c cb k IH]; intros w;
    cbn [start try_catch]; try reflexivity.
  destruct (op w) as [w1 x]. apply IH.
Qed.

Lemma start_finally {A} (p : Proc A) (f : Proc unit) w :
  start (finally p f) w = start (finally (start p w).2 f) (start p w).1.
Proof.
  revert w. induction p as [a0|e|X op k IH|k IH|c cb k IH]; intros w;
    cbn [start finally]; try reflexivity.
  destruct (op w) as [w1 x]. apply IH.
Qed.

End Submit.

(** C1 (as amended): a second call for a song whose job is still in the
    registry is not rejected.  [processKaraokeSong] puts the new job in
    the place of the old one, writes [processing] with progress 5 to the
    song and is suspended in its own run; [processAudio] does the same
    with progress 0 and then 10. *)
Theorem second_submit_restarts songId options options' w song :
  is_Some (autonomous_jobs w !! songId) ->
  is_Some (processor_jobs w !! songId) ->
  KaraokeDB.getSong songId w = Some song ->
  let out := start (AutonomousProcessor.processKaraokeSong songId options) w in
  let out' := start (JobProcessor.processAudio songId options') w in
  (autonomous_jobs out.1 !! songId = Some (AutonomousProcessor.make_job songId options) /\
   songs out.1 = songs (KaraokeDB.updateSongStatus songId processing (Some 5) w) /\
   suspended out.2 = true) /\
  (processor_jobs out'.1 !! songId = Some (mkProcessingJob songId options') /\
   songs out'.1 = songs (KaraokeDB.updateSongStatus songId processing (Some 10)
                           (KaraokeDB.updateSongStatus songId processing (Some 0) w)) /\
   suspended out'.2 = true).
Proof.
  intros _ _ Hsong out out'. split.
  - subst out. unfold AutonomousProcessor.processKaraokeSong, AutonomousProcessor.pipeline.
    cbn [mbind Proc_bind exec read sync await_async bind finally try_catch start].
    change (KaraokeDB.getSong songId (with_autonomous_jobs _ w))
      with (KaraokeDB.getSong songId w).
    rewrite Hsong.
    cbn [mbind Proc_bind exec read sync await_async bind finally try_catch start].
    match goal with
    | |- context [CacheManager.checkCache ?t ?a ?q ?w0] =>
        pose proof (checkCache_frame t a q w0) as Hf;
        destruct (CacheManager.checkCache t a q w0) as [w1 cached]
    end.
    cbn [fst snd] in Hf. unfold orchestration in Hf. cbn in Hf.
    injection Hf as Hu Hs Hj Hp.
    cbn [bind finally try_catch start fst snd suspended].
    rewrite Hj, Hs. split; [apply lookup_insert_eq | auto].
  - subst out'. unfold JobProcessor.processAudio, JobProcessor.pipeline.
    cbn [mbind Proc_bind exec read sync await_async bind finally try_catch start].
    destruct (getSong_updateSongStatus songId songId processing (Some 0) w song Hsong)
      as (song' & Hsong' & _ & _).
    change (KaraokeDB.getSong songId
              (KaraokeDB.updateSongStatus songId processing (Some 0)
                 (with_processor_jobs _ w)))
      with (KaraokeDB.getSong songId (KaraokeDB.updateSongStatus songId processing (Some 0) w)).
    rewrite Hsong'.
    cbn [mbind Proc_bind exec read sync await_async bind finally try_catch start].
    unfold JobProcessor.acquireAudioFile.
    cbn [mbind Proc_bind exec read sync await_async bind finally try_catch start].
    match goal with
    | |- context [start (finally (try_catch (bind (bind
                    (JobProcessor.first_existing ?d ?ns) ?f) ?g) ?h) ?k) ?w0] =>
        destruct (first_existing_start d ns w0) as (w1 & r & Hst & Hf);
        rewrite (start_finally (try_catch (bind (bind (JobProcessor.first_existing d ns) f) g) h) k w0),
                (start_try_catch (bind (bind (JobProcessor.first_existing d ns) f) g) h w0),
                (start_bind (bind (JobProcessor.first_existing d ns) f) g w0),
                (start_bind (JobProcessor.first_existing d ns) f w0), Hst
    end.
    cbn [fst snd bind finally try_catch start suspended].
    unfold orchestration in Hf. cbn in Hf. injection Hf as Hu Hs Hj Hp.
    rewrite Hp, Hs. split; [apply lookup_insert_eq | auto].
Qed.

Lemma second_submit_restarts_witness :
  is_Some (autonomous_jobs Sample.busy !! "s1") /\
  is_Some (processor_jobs Sample.busy !! "s1") /\
  Song.processing_progress
    <$> songs (start (AutonomousProcessor.processKaraokeSong "s1" Sample.options)
                 Sample.busy).1
  = [5] /\
  Song.processing_progress
    <$> songs (start (JobProcessor.processAudio "s1" (base Sample.options)) Sample.busy).1
  = [10].
Proof.
  assert (H1 : is_Some (autonomous_jobs Sample.busy !! "s1")) by (vm_compute; eauto).
  assert (H2 : is_Some (processor_jobs Sample.busy !! "s1")) by (vm_compute; eauto).
  split; [exact H1|]. split; [exact H2|].
  destruct (second_submit_restarts "s1" Sample.options (base Sample.options) Sample.busy
              (KaraokeDB.to_song
                 (Sample.song "s1" "Bohemian Rhapsody" "Queen" processing 45
                    "2024-05-01T20:00:00.000Z", Sample.alice))
              H1 H2 eq_refl) as ((_ & -> & _) & (_ & -> & _)).
  split; reflexivity.
Defined.

(** C1, as stated, fails: the second call changes the registered job's
    song, whose progress falls from 45 to 5, and leaves a second run
    suspended on its first [await]. *)
Lemma second_submit_counterexample :
  is_Some (autonomous_jobs Sample.busy !! "s1") /\
  Song.processing_progress <$> songs Sample.busy = [45] /\
  Song.processing_progress
    <$> songs (start (AutonomousProcessor.processKaraokeSong "s1" Sample.options)
                 Sample.busy).1
  = [5] /\
  suspended (start (AutonomousProcessor.processKaraokeSong "s1" Sample.options)
               Sample.busy).2 = true.
Proof. split; [vm_compute; eauto|]. repeat split; vm_compute; reflexivity. Qed.


(* ================================================================== *)
(** ** Failed runs *)
(* ================================================================== *)

Section Failure.

Lemma updateSongStatus_marks id st p w :
  Forall (fun r => Song.id r = id ->
                   Song.status r = st /\ Song.processing_progress r = p)
         (songs (KaraokeDB.updateSongStatus id st (Some p) w)).
Proof.
  unfold KaraokeDB.updateSongStatus. cbn [songs emit with_songs].
  apply Forall_forall. intros r Hr. apply list_elem_of_In, in_map_iff in Hr.
  destruct Hr as (r0 & <- & _).
  destruct (String.eqb_spec (Song.id r0) id) as [E|E]; [auto | contradiction].
Qed.

End Failure.

(** C4 (as amended): when the body of a run throws, the run ends with
    the song marked [failed] with progress 0 and the job removed from
    the registry, and awaits no further call (no retry).  The error is
    only logged: the final state is the same whatever was thrown. *)
Theorem failed_run_is_marked_failed o songId options s w e :
  let job := AutonomousProcessor.make_job songId options in
  let body := run o (AutonomousProcessor.pipeline songId options job) s
                  (with_autonomous_jobs (insert songId job) w) in
  body.2 = inl e ->
  let out := run o (AutonomousProcessor.processKaraokeSong songId options) s w in
  out.2 = inr tt /\
  out.1.2 = body.1.2 /\
  songs out.1.1 = songs (KaraokeDB.updateSongStatus songId failed (Some 0) body.1.1) /\
  Forall (fun r => Song.id r = songId ->
                   Song.status r = failed /\ Song.processing_progress r = 0)
         (songs out.1.1) /\
  autonomous_jobs out.1.1 !! songId = None /\
  trace out.1.1 = trace body.1.1 ++ [EvStatus songId failed (Some 0)].
Proof.
  intros job body Hbody out. subst out.
  unfold AutonomousProcessor.processKaraokeSong. fold job.
  rewrite run_mbind, run_exec, run_finally, run_try_catch. fold body.
  destruct body as [[w1 s1] r]. cbn [fst snd] in *. subst r.
  rewrite !run_exec. cbn [fst snd].
  split; [reflexivity|]. split; [reflexivity|]. split; [reflexivity|].
  split; [apply (updateSongStatus_marks songId failed 0 w1)|].
  split; [apply lookup_delete_eq | reflexivity].
Qed.

Lemma failed_run_is_marked_failed_witness :
  let out := run (Sample.oracle (Sample.separation_fails "Demucs failed with exit code 1"))
                 (AutonomousProcessor.processKaraokeSong "s1" Sample.options) (idle [])
                 (Sample.world [Sample.bohemian] [] ∅) in
  out.2 = inr tt /\
  Forall (fun r => Song.id r = "s1" ->
                   Song.status r = failed /\ Song.processing_progress r = 0)
         (songs out.1.1) /\
  autonomous_jobs out.1.1 !! "s1" = None.
Proof.
  destruct (failed_run_is_marked_failed
              (Sample.oracle (Sample.separation_fails "Demucs failed with exit code 1"))
              "s1" Sample.options (idle []) (Sample.world [Sample.bohemian] [] ∅)
              "Demucs failed with exit code 1" eq_refl)
    as (H1 & _ & _ & H2 & H3 & _).
  split; [exact H1|]. split; [exact H2 | exact H3].
Defined.

(** C4, as stated, fails: the record of a song has no field for the
    reason of a failure.  Two runs that fail in the separation for
    different reasons throw different errors and end in the same state,
    songs and history included. *)
Lemma failure_reason_counterexample :
  let failing cause :=
    run (Sample.oracle (Sample.separation_fails cause))
        (AutonomousProcessor.pipeline "s1" Sample.options
           (AutonomousProcessor.make_job "s1" Sample.options)) (idle [])
        (Sample.world [Sample.bohemian] [] ∅) in
  let whole cause :=
    run (Sample.oracle (Sample.separation_fails cause))
        (AutonomousProcessor.processKaraokeSong "s1" Sample.options) (idle [])
        (Sample.world [Sample.bohemian] [] ∅) in
  (failing "Demucs failed with exit code 1").2 = inl "Demucs failed with exit code 1" /\
  (failing "Spleeter failed with exit code 2").2 = inl "Spleeter failed with exit code 2" /\
  (whole "Demucs failed with exit code 1").1.1
  = (whole "Spleeter failed with exit code 2").1.1.
Proof. repeat split; vm_compute; reflexivity. Qed.

(* ================================================================== *)
(** ** The cache hit *)
(* ================================================================== *)

Section CacheHit.

Import AutonomousProcessor.

Lemma updateSongPaths_frame id a b c d w :
  Forall2 (fun r r' => Song.id r' = Song.id r /\ Song.status r' = Song.status r)
          (songs w) (songs (KaraokeDB.updateSongPaths id a b c d w)).
Proof.
  unfold KaraokeDB.updateSongPaths.
  destruct (_ || _); cbn [songs emit with_songs].
  - induction (songs w) as [|r l IH]; constructor; [|exact IH].
    destruct (String.eqb _ _); auto.
  - induction (songs w) as [|r l IH]; constructor; auto.
Qed.

(** With [useCache] given as [true], a served entry ends the run: the
    song is [ready] with 100 and no collaborator is called. *)
Lemma cache_hit_with_flag o songId options s w song hit :
  let job := make_job songId options in
  let looked := CacheManager.checkCache (QueuedSong.songTitle song)
                  (QueuedSong.artist song) (quality (base options))
                  (KaraokeDB.updateSongStatus songId processing (Some 5)
                     (with_autonomous_jobs (insert songId job) w)) in
  KaraokeDB.getSong songId w = Some song ->
  useCache options = Some true ->
  looked.2 = Some hit ->
  let out := run o (processKaraokeSong songId options) s w in
  out.2 = inr tt /\ out.1.2 = s /\ marked songId ready 100 out.1.1 /\
  autonomous_jobs out.1.1 !! songId = None.
Proof.
  intros job looked Hsong Hflag Hhit out. subst out.
  unfold processKaraokeSong. fold job.
  rewrite run_mbind, run_exec, run_finally, run_try_catch.
  unfold pipeline. rewrite run_mbind, run_read.
  change (KaraokeDB.getSong songId (with_autonomous_jobs _ w))
    with (KaraokeDB.getSong songId w).
  rewrite Hsong. rewrite run_mbind, run_exec, run_mbind, run_await_async, run_sync.
  fold looked. rewrite Hhit, Hflag. unfold useCached.
  rewrite run_mbind, !run_exec. cbn [fst snd].
  split; [reflexivity|]. split; [reflexivity|].
  split; [apply updateSongStatus_marks | apply lookup_delete_eq].
Qed.

End CacheHit.

Lemma cache_hit_with_flag_witness :
  let out := run (Sample.oracle Sample.no_lyrics)
                 (AutonomousProcessor.processKaraokeSong "s1" Sample.options_cached)
                 (idle []) Sample.cached in
  out.2 = inr tt /\ asked out.1.2 = [] /\ marked "s1" ready 100 out.1.1.
Proof.
  eassert (Hhit : (CacheManager.checkCache "Bohemian Rhapsody" "Queen" "high"
                     (KaraokeDB.updateSongStatus "s1" processing (Some 5)
                        (with_autonomous_jobs
                           (insert "s1" (AutonomousProcessor.make_job "s1"
                                           Sample.options_cached))
                           Sample.cached))).2 = Some _)
    by (vm_compute; reflexivity).
  destruct (cache_hit_with_flag (Sample.oracle Sample.no_lyrics) "s1" Sample.options_cached
              (idle []) Sample.cached (KaraokeDB.to_song (Sample.bohemian, Sample.alice))
              _ eq_refl eq_refl Hhit) as (H1 & H2 & H3 & _).
  split; [exact H1|]. split; [now rewrite H2 | exact H3].
Defined.

(** C6 (broken by the code): the test of line 53 reads [options.useCache],
    not the [useCache] of the job, which defaults to [true].  With the
    options of the request route, which give no [useCache], a complete
    cache entry is found and then ignored: the run goes on to call the
    acquisition, the separation and the video collaborators. *)
Theorem cache_hit_ignored_without_flag :
  let key := CacheManager.generateCacheKey "Bohemian Rhapsody" "Queen" "high" in
  let out := run (Sample.oracle Sample.no_lyrics)
                 (AutonomousProcessor.processKaraokeSong "s1" Sample.options)
                 (idle []) Sample.cached in
  useCache Sample.options = None /\
  job_useCache (ap_options (AutonomousProcessor.make_job "s1" Sample.options)) = true /\
  (exists row, CacheManager.select_row key (processed_cache Sample.cached) = Some row
               /\ complete (fs Sample.cached) row = true) /\
  asked out.1.2 =
    [ FindBestMatch "Bohemian Rhapsody" "Queen" 3;
      Race (DownloadAudio "magnet:test" "Queen - Bohemian Rhapsody") 300000 "Torrent timeout";
      Race (GetBestKaraokeVideo "Bohemian Rhapsody" "Queen") 120000 "YouTube timeout";
      SeparateVocals "/srv/karaokio/downloads/queen.mp3" (mkProcessingOptions "high" "wav");
      FetchLyrics "Bohemian Rhapsody" "Queen";
      ImportVideoGenerator;
      CreateLyricVideo [] 300000 "/srv/karaokio/output/queen/generated_karaoke.mp4" ].
Proof.
  split; [reflexivity|]. split; [reflexivity|]. split.
  - eexists. split; vm_compute; reflexivity.
  - vm_compute. reflexivity.
Qed.

(* ================================================================== *)
(** ** The stage: one song playing *)
(* ================================================================== *)

Section Stage.

Lemma updateSongStatus_ids id st p w :
  Song.id <$> songs (KaraokeDB.updateSongStatus id st p w) = Song.id <$> songs w.
Proof.
  unfold KaraokeDB.updateSongStatus. cbn [songs emit with_songs].
  induction (songs w) as [|r l IH]; [reflexivity|].
  cbn [map fmap list_fmap]. f_equal; [|exact IH].
  destruct (String.eqb _ _); [destruct p|]; reflexivity.
Qed.

Lemma updateSongStatus_user_ids id st p w :
  Song.user_id <$> songs (KaraokeDB.updateSongStatus id st p w) = Song.user_id <$> songs w.
Proof.
  unfold KaraokeDB.updateSongStatus. cbn [songs emit with_songs].
  induction (songs w) as [|r l IH]; [reflexivity|].
  cbn [map fmap list_fmap]. f_equal; [|exact IH].
  destruct (String.eqb _ _); [destruct p|]; reflexivity.
Qed.

Lemma users_known_transfer w w' :
  users w' = users w -> Song.user_id <$> songs w' = Song.user_id <$> songs w ->
  users_known w -> users_known w'.
Proof.
  unfold users_known. intros Hu Hs H.
  apply Forall_forall. intros r Hr.
  assert (Hid : Song.user_id r ∈ Song.user_id <$> songs w').
  { apply list_elem_of_fmap. now exists r. }
  rewrite Hs in Hid. apply list_elem_of_fmap in Hid as (r0 & E & Hr0).
  rewrite Forall_forall in H. rewrite Hu, E. exact (H r0 Hr0).
Qed.

Lemma no_player_after_completion songId w :
  only_player songId w ->
  playing_count (KaraokeDB.updateSongStatus songId completed None w) = 0%nat.
Proof.
  unfold only_player, playing_count, KaraokeDB.updateSongStatus.
  cbn [songs emit with_songs].
  induction 1 as [|r l Hr Hl IH]; [reflexivity|].
  cbn [map]. rewrite filter_cons. destruct (decide _) as [E|E]; [|exact IH].
  exfalso. destruct (String.eqb_spec (Song.id r) songId) as [Hid|Hid].
  - discriminate E.
  - apply Hid, Hr, E.
Qed.

Lemma update_other_rows (upd : Song.row -> Song.row) id l :
  (forall r, Song.id r <> id -> upd r = r) ->
  id ∉ Song.id <$> l -> map upd l = l.
Proof.
  intros Hupd. induction l as [|r l IH]; intros Hid; [reflexivity|].
  cbn [map]. rewrite fmap_cons in Hid. apply not_elem_of_cons in Hid as [Hr Hl].
  rewrite Hupd by congruence. f_equal. apply IH, Hl.
Qed.

Lemma one_player_after_promotion id w :
  distinct_ids w -> playing_count w = 0%nat ->
  (playing_count (KaraokeDB.updateSongStatus id playing None w) <= 1)%nat.
Proof.
  unfold distinct_ids, playing_count, KaraokeDB.updateSongStatus.
  cbn [songs emit with_songs].
  induction (songs w) as [|r l IH]; intros Hnd Hnone; [cbn; lia|].
  rewrite fmap_cons in Hnd. apply NoDup_cons in Hnd as [Hr Hl].
  rewrite filter_cons in Hnone. destruct (decide (Song.status r = playing)) as [E|E];
    [discriminate Hnone|].
  cbn [map]. rewrite filter_cons.
  destruct (String.eqb_spec (Song.id r) id) as [Hid|Hid].
  - rewrite (update_other_rows _ id l).
    + destruct (decide _); cbn [length]; lia.
    + intros r' Hr'. destruct (String.eqb_spec (Song.id r') id); [contradiction | reflexivity].
    + now rewrite <- Hid.
  - destruct (decide _) as [E'|E']; [contradiction|]. apply IH; assumption.
Qed.

Lemma only_player_count id w :
  distinct_ids w -> only_player id w -> (playing_count w <= 1)%nat.
Proof.
  unfold distinct_ids, only_player, playing_count.
  induction (songs w) as [|r l IH]; intros Hnd Honly; [cbn; lia|].
  rewrite fmap_cons in Hnd. apply NoDup_cons in Hnd as [Hr Hl].
  apply Forall_cons in Honly as [Hhead Htail].
  rewrite filter_cons. destruct (decide _) as [E|E]; [|apply IH; assumption].
  destruct (filter _ l) as [|x t] eqn:F; [cbn; lia|].
  exfalso. assert (Hx : x ∈ filter (fun r => Song.status r = playing) l)
    by (rewrite F; left).
  apply list_elem_of_filter in Hx as [Hplay Hx].
  rewrite Forall_forall in Htail. apply Hr.
  rewrite (Hhead E), <- (Htail x Hx Hplay). apply list_elem_of_fmap. now exists x.
Qed.

Lemma joined_song s u w : (s, u) ∈ KaraokeDB.joined w -> s ∈ songs w.
Proof.
  unfold KaraokeDB.joined. intros H. apply list_elem_of_omap in H as (r & Hr & E).
  destruct (find _ _); [|discriminate E]. now injection E as -> _.
Qed.

Lemma joined_known s w :
  users_known w -> s ∈ songs w -> exists u, (s, u) ∈ KaraokeDB.joined w.
Proof.
  unfold users_known, KaraokeDB.joined. intros Hk Hs.
  rewrite Forall_forall in Hk. destruct (Hk s Hs) as (u & Hu & Hid).
  destruct (find (fun u => String.eqb (User.id u) (Song.user_id s)) (users w)) as [u'|] eqn:F.
  - exists u'. apply list_elem_of_omap. exists s. split; [exact Hs|]. now rewrite F.
  - exfalso. apply list_elem_of_In in Hu.
    pose proof (find_none _ _ F u Hu) as N. cbn beta in N.
    rewrite Hid, String.eqb_refl in N. discriminate N.
Qed.

Lemma current_song_is_the_player w :
  users_known w -> (playing_count w <= 1)%nat ->
  match KaraokeDB.getCurrentSong w with
  | Some currentSong => only_player (QueuedSong.id currentSong) w
  | None => playing_count w = 0%nat
  end.
Proof.
  intros Hk Hone. unfold KaraokeDB.getCurrentSong.
  destruct (find _ (KaraokeDB.joined w)) as [[s u]|] eqn:F; cbn [option_map].
  - apply find_some in F as [Hin Hs]. apply list_elem_of_In, joined_song in Hin.
    cbn [fst] in Hs. apply bool_decide_eq_true in Hs.
    unfold only_player. apply Forall_forall. intros r Hr Hplay.
    change (QueuedSong.id (KaraokeDB.to_song (s, u))) with (Song.id s).
    unfold playing_count in Hone.
    assert (Hr' : r ∈ filter (fun r => Song.status r = playing) (songs w))
      by (apply list_elem_of_filter; auto).
    assert (Hs' : s ∈ filter (fun r => Song.status r = playing) (songs w))
      by (apply list_elem_of_filter; auto).
    destruct (filter _ (songs w)) as [|a [|b l]].
    + inversion Hr'.
    + apply list_elem_of_singleton in Hr', Hs'. congruence.
    + cbn [length] in Hone. lia.
  - unfold playing_count.
    destruct (filter _ (songs w)) as [|r l] eqn:E; [reflexivity|].
    exfalso. assert (Hr : r ∈ filter (fun r => Song.status r = playing) (songs w))
      by (rewrite E; left).
    apply list_elem_of_filter in Hr as [Hplay Hr].
    destruct (joined_known r w Hk Hr) as (u & Hu).
    apply list_elem_of_In in Hu. pose proof (find_none _ _ F _ Hu) as N.
    cbn [fst] in N. apply bool_decide_eq_false in N. contradiction.
Qed.

(** The three conditions under which the stage is in order. *)
Lemma start_keeps_one_player songId w :
  distinct_ids w -> users_known w -> (playing_count w <= 1)%nat ->
  let w' := (QueueRoutes.start songId w).1 in
  distinct_ids w' /\ users_known w' /\ (playing_count w' <= 1)%nat.
Proof.
  intros Hd Hk Hone. unfold QueueRoutes.start.
  destruct (String.eqb songId ""); [cbn; auto|].
  destruct (KaraokeDB.getSong songId w) as [song|]; [|cbn; auto].
  destruct (negb _); [cbn; auto|]. cbn [fst].
  pose proof (current_song_is_the_player w Hk Hone) as Hcur.
  destruct (KaraokeDB.getCurrentSong w) as [currentSong|].
  - split; [|split].
    + unfold distinct_ids. now rewrite !updateSongStatus_ids.
    + eapply users_known_transfer; [| |exact Hk]; [reflexivity|].
      now rewrite !updateSongStatus_user_ids.
    + apply one_player_after_promotion.
      * unfold distinct_ids. now rewrite updateSongStatus_ids.
      * apply no_player_after_completion, Hcur.
  - split; [|split].
    + unfold distinct_ids. now rewrite updateSongStatus_ids.
    + eapply users_known_transfer; [| |exact Hk]; [reflexivity|].
      now rewrite updateSongStatus_user_ids.
    + apply one_player_after_promotion; assumption.
Qed.

(** Completing the song that plays (or any song when none plays) keeps
    the stage in order. *)
Lemma complete_of_the_player_keeps_one_player songId w :
  distinct_ids w -> users_known w -> only_player songId w ->
  let w' := (QueueRoutes.complete songId w).1 in
  distinct_ids w' /\ users_known w' /\ (playing_count w' <= 1)%nat.
Proof.
  intros Hd Hk Honly. unfold QueueRoutes.complete.
  destruct (String.eqb_spec songId "") as [->|Hid].
  - cbn [fst]. split; [exact Hd|]. split; [exact Hk|].
    now apply (only_player_count "").
  - pose proof (no_player_after_completion songId w Honly) as Hnone.
    destruct (find _ _) as [next|]; cbn [fst].
    + split; [|split].
      * unfold distinct_ids. now rewrite !updateSongStatus_ids.
      * eapply users_known_transfer; [| |exact Hk]; [reflexivity|].
        now rewrite !updateSongStatus_user_ids.
      * apply one_player_after_promotion; [|exact Hnone].
        unfold distinct_ids. now rewrite updateSongStatus_ids.
    + split; [|split].
      * unfold distinct_ids. now rewrite updateSongStatus_ids.
      * eapply users_known_transfer; [| |exact Hk]; [reflexivity|].
        now rewrite updateSongStatus_user_ids.
      * rewrite Hnone. lia.
Qed.

Lemma find_first_of_sorted {A} (R : A -> A -> Prop) (f : A -> bool) l x :
  (forall a, R a a) -> StronglySorted R l -> find f l = Some x ->
  f x = true /\ x ∈ l /\ forall y, y ∈ l -> f y = true -> R x y.
Proof.
  intros Hrefl Hsorted. induction Hsorted as [|a l Hl IH Ha]; [discriminate|].
  cbn [find]. destruct (f a) eqn:Fa.
  - intros [= <-]. split; [exact Fa|]. split; [left|].
    intros y Hy _. apply elem_of_cons in Hy as [->|Hy]; [apply Hrefl|].
    rewrite Forall_forall in Ha. now apply Ha.
  - intros Hx. destruct (IH Hx) as (Fx & Hin & Hmin).
    split; [exact Fx|]. split; [now right|].
    intros y Hy Fy. apply elem_of_cons in Hy as [->|Hy]; [congruence|]. now apply Hmin.
Qed.

(** The song that a completion promotes is a ready song of the queue,
    and no ready song of the queue was requested before it. *)
Lemma complete_promotes_the_earliest_ready songId w next :
  (QueueRoutes.complete songId w).2 = SongCompleted (Some next) ->
  let w1 := KaraokeDB.updateSongStatus songId completed None w in
  (QueueRoutes.complete songId w).1 = KaraokeDB.updateSongStatus next playing None w1 /\
  exists song, song ∈ KaraokeDB.getQueue w1 /\ QueuedSong.id song = next /\
               QueuedSong.status song = ready /\
               forall other, other ∈ KaraokeDB.getQueue w1 ->
                             QueuedSong.status other = ready -> requestedAt_le song other.
Proof.
  unfold QueueRoutes.complete.
  destruct (String.eqb songId ""); [discriminate|].
  destruct (find _ _) as [song|] eqn:F; [|discriminate].
  cbn [fst snd]. unfold JS.or_undefined. destruct (JS.truthy _); [|discriminate].
  intros [= <-]. split; [reflexivity|].
  apply (find_first_of_sorted requestedAt_le) in F as (Hready & Hin & Hmin).
  - exists song. apply bool_decide_eq_true in Hready.
    split; [exact Hin|]. split; [reflexivity|]. split; [exact Hready|].
    intros other Hother Hr. apply Hmin; [exact Hother | now apply bool_decide_eq_true].
  - intros a. unfold requestedAt_le.
    now destruct (String.leb_total (QueuedSong.requestedAt a) (QueuedSong.requestedAt a))
      as [-> | ->].
  - apply getQueue_sorted.
Qed.

(** What a start writes: the song that plays is completed, then the
    started song is set to [playing]. *)
Lemma start_completes_then_plays songId w :
  (QueueRoutes.start songId w).2 = SongStarted ->
  trace (QueueRoutes.start songId w).1
  = trace w
    ++ match KaraokeDB.getCurrentSong w with
       | Some currentSong => [EvStatus (QueuedSong.id currentSong) completed None]
       | None => []
       end
    ++ [EvStatus songId playing None].
Proof.
  unfold QueueRoutes.start.
  destruct (String.eqb songId ""); [discriminate|].
  destruct (KaraokeDB.getSong songId w); [|discriminate].
  destruct (negb _); [discriminate|]. intros _. cbn [fst].
  destruct (KaraokeDB.getCurrentSong w); cbn [KaraokeDB.updateSongStatus emit trace];
    unfold KaraokeDB.updateSongStatus; cbn [emit trace with_songs];
    now rewrite <- ?app_assoc.
Qed.

End Stage.

(** C7 (broken by the code): the completion route marks whatever song it
    is given and promotes the next ready one, without looking at the
    song that plays.  From three ready songs, starting "a" and then
    completing "c", which waits, leaves "a" and "b" both playing. *)
Theorem complete_of_waiting_song_adds_a_player :
  let begun := QueueRoutes.start "a" SampleQueue.waiting in
  let ended := QueueRoutes.complete "c" begun.1 in
  playing_count SampleQueue.waiting = 0%nat /\
  begun.2 = SongStarted /\ songs begun.1 = songs SampleQueue.on_stage /\
  playing_count begun.1 = 1%nat /\
  ended.2 = SongCompleted (Some "b") /\
  (Song.id <$> filter (fun r => Song.status r = playing) (songs ended.1)) = ["a"; "b"] /\
  playing_count ended.1 = 2%nat.
Proof. repeat split; vm_compute; reflexivity. Qed.

(* ================================================================== *)
(** ** Runs without lyrics *)
(* ================================================================== *)

Section Asks.

Context (o : Oracle) (P : Call -> bool).

Lemma asks_ret {A} (a : A) : asks o (Ret a) P.
Proof. intros s w. exists []. now rewrite app_nil_r. Qed.

Lemma asks_throw {A} e : asks o (@Throw A e) P.
Proof. intros s w. exists []. now rewrite app_nil_r. Qed.

Lemma asks_bind {A B} (p : Proc A) (f : A -> Proc B) :
  asks o p P -> (forall a, asks o (f a) P) -> asks o (p ≫= f) P.
Proof.
  intros Hp Hf s w. rewrite run_mbind.
  destruct (Hp s w) as (cs & E & Hcs).
  destruct (run o p s w) as [[w' s'] [e|a]]; cbn [fst snd] in *.
  - now exists cs.
  - destruct (Hf a s' w') as (cs' & E' & Hcs').
    exists (cs ++ cs'). rewrite E', E, app_assoc, forallb_app, Hcs, Hcs'. now split.
Qed.

Lemma asks_sync {X} (op : World -> World * X) : asks o (sync op) P.
Proof. intros s w. rewrite run_sync. exists []. now rewrite app_nil_r. Qed.

Lemma asks_exec (f : World -> World) : asks o (exec f) P.
Proof. intros s w. rewrite run_exec. exists []. now rewrite app_nil_r. Qed.

Lemma asks_attempt {X} (op : World -> World * (Error + X)) : asks o (attempt op) P.
Proof. intros s w. rewrite run_attempt. exists []. now rewrite app_nil_r. Qed.

Lemma asks_await c : P c = true -> asks o (await c) P.
Proof.
  intros Hc s w. rewrite run_await. exists [c]. cbn [fst snd after_await asked forallb].
  now rewrite Hc.
Qed.

End Asks.

Section Lyrics.

Import AutonomousProcessor.

Context (o : Oracle).

Ltac asks_call :=
  match goal with
  | |- asks _ (await ?c) _ => apply (asks_await _ _ c); reflexivity
  end.

Lemma compose_without_lyrics songId instrumental karaokeVideoPath lyrics lyricsPath :
  JS.truthy lyricsPath && JS.truthy lyrics = false ->
  asks o (compose songId instrumental karaokeVideoPath lyrics lyricsPath) instrumental_only.
Proof.
  intros Hno. unfold compose.
  apply asks_bind; [apply asks_exec|]. intros _.
  apply asks_bind;
    [destruct (JS.truthy karaokeVideoPath); [apply asks_sync | apply asks_ret]|].
  intros present.
  apply asks_bind; [|intros v; apply asks_bind; [apply asks_exec | intros _; apply asks_ret]].
  destruct present.
  - apply asks_bind; [asks_call|]. intros _.
    apply asks_bind; [asks_call|]. intros optimizedPath.
    destruct (negb _); [|apply asks_ret].
    apply asks_bind; [apply asks_attempt | intros _; apply asks_ret].
  - apply asks_bind; [asks_call|]. intros _.
    apply asks_bind; [|intros _; apply asks_ret].
    rewrite Hno. asks_call.
Qed.

Lemma returned {A R} (r : World * Sched * (Error + A)) (a : A)
    (k : World -> Sched -> A -> R) (h : World -> Sched -> Error -> R) :
  r.2 = inr a ->
  match r with
  | (w', s', inr a) => k w' s' a
  | (w', s', inl e) => h w' s' e
  end = k r.1.1 r.1.2 a.
Proof. destruct r as [[w' s'] [e|a']]; cbn; intros [=]. congruence. Qed.

Lemma unlinkSync_songs p w : songs (Fs.unlinkSync p w).1 = songs w.
Proof. unfold Fs.unlinkSync. destruct (fs w !! p) as [[]|]; reflexivity. Qed.

Lemma finish_marks_ready songId songTitle artist options audioPath instrumental
    lyricsPath finalVideoPath karaokeVideoPath youtubeVideoId s w :
  let out := run o (finish songId songTitle artist options audioPath instrumental
                      lyricsPath finalVideoPath karaokeVideoPath youtubeVideoId) s w in
  out.2 = inr tt /\ out.1.2 = s /\ marked songId ready 100 out.1.1.
Proof.
  unfold finish. rewrite run_mbind, run_await_async, run_sync. cbn [fst snd].
  rewrite run_mbind, run_exec.
  match goal with
  | |- context [KaraokeDB.updateSongStatus songId ready (Some 100) ?w0] =>
      pose proof (updateSongStatus_marks songId ready 100 w0) as Hmark;
      set (w1 := KaraokeDB.updateSongStatus songId ready (Some 100) w0) in *
  end.
  destruct (_ && _); [|now cbn].
  rewrite run_try_catch, run_attempt.
  pose proof (unlinkSync_songs (default "" karaokeVideoPath) w1) as Hsongs.
  destruct (Fs.unlinkSync _ w1) as [w2 [e|[]]]; cbn [fst snd run] in *;
    unfold marked; rewrite Hsongs; auto.
Qed.

Lemma writeFileSync_throws p content w e :
  (Fs.writeFileSync p content w).2 = inl e -> (Fs.writeFileSync p content w).1 = w.
Proof. unfold Fs.writeFileSync. destruct (fs w !! p) as [[]|]; cbn; congruence. Qed.

End Lyrics.

(** C5 (as amended), for a run whose cache lookup, audio, karaoke video
    and separation stages succeed and whose lookup of the lyrics
    returns [lyrics].

    When [lyrics] is none ([null] or an empty text), the lyrics stage
    ends in the state in which the lookup settled: it writes no file
    and records no path, it does not call the synchronisation, and it
    returns without a lyrics path; the video stage awaits only calls
    that take no lyrics, and when it succeeds the run returns with the
    song [ready] at 100 and its slot released.

    When lyrics are found and their synchronisation is rejected, or the
    write of [lyrics.lrc] throws, the lyrics stage throws that error,
    the video stage is not reached, and the run returns with the song
    [failed] at 0 and its slot released. *)
Theorem run_without_lyrics_reaches_ready o songId options s w song audioPath
    karaokeVideoPath youtubeVideoId instrumental lyrics :
  let job := AutonomousProcessor.make_job songId options in
  let songTitle := QueuedSong.songTitle song in
  let artist := QueuedSong.artist song in
  let looked := CacheManager.checkCache songTitle artist (quality (base options))
                  (KaraokeDB.updateSongStatus songId processing (Some 5)
                     (with_autonomous_jobs (insert songId job) w)) in
  let acquired := run o (AutonomousProcessor.acquireAudio songId songTitle artist job)
                      s looked.1 in
  let fetched := run o (AutonomousProcessor.fetchKaraokeVideo songId songTitle artist job)
                     acquired.1.2 acquired.1.1 in
  let separated := run o (AutonomousProcessor.separate songId audioPath options)
                       fetched.1.2 fetched.1.1 in
  let synced := run o (AutonomousProcessor.syncLyrics songId songTitle artist instrumental)
                    separated.1.2 separated.1.1 in
  let looked_up := after_await (FetchLyrics songTitle artist) (fun _ w => w)
                     (o (length (asked separated.1.2)) (FetchLyrics songTitle artist))
                     (KaraokeDB.updateSongStatus songId processing (Some 75) separated.1.1)
                     separated.1.2 in
  let synchronize := SmartSynchronize (default "" lyrics) instrumental in
  let reply := o (length (asked looked_up.2)) synchronize in
  let synchronized := after_await synchronize (fun _ w => w) reply
                        looked_up.1 looked_up.2 in
  let lyricsPath := path.join (path.dirname instrumental) "lyrics.lrc" in
  let out := run o (AutonomousProcessor.processKaraokeSong songId options) s w in
  KaraokeDB.getSong songId w = Some song ->
  (looked.2 = None \/ useCache options <> Some true) ->
  acquired.2 = inr audioPath ->
  fetched.2 = inr (karaokeVideoPath, youtubeVideoId) ->
  separated.2 = inr instrumental ->
  result (o (length (asked separated.1.2)) (FetchLyrics songTitle artist)) = inr lyrics ->
  (JS.truthy lyrics = false ->
   synced = (looked_up, inr (lyrics, None)) /\
   asked synced.1.2 = asked separated.1.2 ++ [FetchLyrics songTitle artist] /\
   forall finalVideoPath,
     let composed := run o (AutonomousProcessor.compose songId instrumental
                              karaokeVideoPath lyrics None)
                         synced.1.2 synced.1.1 in
     composed.2 = inr finalVideoPath ->
     (exists cs, asked composed.1.2 = asked synced.1.2 ++ cs /\
                 forallb instrumental_only cs = true) /\
     out.2 = inr tt /\ asked out.1.2 = asked composed.1.2 /\
     marked songId ready 100 out.1.1 /\
     autonomous_jobs out.1.1 !! songId = None) /\
  (JS.truthy lyrics = true ->
   forall e,
     (result reply = inl e \/
      exists syncedLyrics,
        result reply = inr syncedLyrics /\
        (Fs.writeFileSync lyricsPath (LyricsProcessor.convertToLRC syncedLyrics)
           synchronized.1).2 = inl e) ->
     synced.2 = inl e /\
     asked synced.1.2 = asked separated.1.2 ++ [FetchLyrics songTitle artist; synchronize] /\
     out.2 = inr tt /\ asked out.1.2 = asked synced.1.2 /\
     marked songId failed 0 out.1.1 /\
     autonomous_jobs out.1.1 !! songId = None).
Proof.
  intros job songTitle artist looked acquired fetched separated synced looked_up
         synchronize reply synchronized lyricsPath out
         Hsong Hmiss Hacq Hfetch Hsep Hlyr.
  assert (Hfull : forall X : Proc unit,
            match looked.2, useCache options with
            | Some cached, Some true => AutonomousProcessor.useCached songId cached
            | _, _ => X
            end = X).
  { intros X. destruct Hmiss as [-> | Hflag]; [reflexivity|].
    destruct looked.2; destruct (useCache options) as [[]|]; try reflexivity.
    now contradiction Hflag. }
  (* the run up to the lyrics stage *)
  assert (Hupto : forall rest : option string * option string -> Proc unit,
            (forall lp, rest lp
                        = let '(lyrics0, lyricsPath0) := lp in
                          finalVideoPath ← AutonomousProcessor.compose songId instrumental
                                             karaokeVideoPath lyrics0 lyricsPath0;
                          AutonomousProcessor.finish songId songTitle artist options
                            audioPath instrumental lyricsPath0 finalVideoPath
                            karaokeVideoPath youtubeVideoId) ->
            run o (AutonomousProcessor.pipeline songId options job) s
                (with_autonomous_jobs (insert songId job) w)
            = match synced with
              | (w', s', inr lp) => run o (rest lp) s' w'
              | (w', s', inl e) => (w', s', inl e)
              end).
  { intros rest Hrest.
    unfold AutonomousProcessor.pipeline. rewrite run_mbind, run_read.
    change (KaraokeDB.getSong songId (with_autonomous_jobs _ w))
      with (KaraokeDB.getSong songId w).
    rewrite Hsong. rewrite run_mbind, run_exec, run_mbind, run_await_async, run_sync.
    fold songTitle artist. fold looked. rewrite Hfull.
    unfold AutonomousProcessor.fullPipeline. rewrite run_mbind.
    fold acquired. rewrite (returned acquired audioPath _ _ Hacq).
    rewrite run_mbind. fold fetched.
    rewrite (returned fetched (karaokeVideoPath, youtubeVideoId) _ _ Hfetch).
    rewrite run_mbind. fold separated.
    rewrite (returned separated instrumental _ _ Hsep).
    rewrite run_mbind. fold synced.
    destruct synced as [[w' s'] [e|[lyrics0 lyricsPath0]]]; [reflexivity|].
    now rewrite Hrest. }
  specialize (Hupto _ (fun lp => eq_refl)).
  (* the lyrics stage up to the lookup *)
  assert (Hstage : synced
                   = if JS.truthy lyrics then
                       run o (syncedLyrics ← await synchronize;
                              attempt (Fs.writeFileSync lyricsPath
                                         (LyricsProcessor.convertToLRC syncedLyrics));;
                              exec (KaraokeDB.updateSongPaths songId None None
                                      (Some lyricsPath) None);;
                              Ret (lyrics, Some lyricsPath))
                           looked_up.2 looked_up.1
                     else (looked_up, inr (lyrics, None))).
  { subst synced. unfold AutonomousProcessor.syncLyrics.
    rewrite run_mbind, run_exec, run_mbind.
    rewrite (run_await o (FetchLyrics songTitle artist)). rewrite Hlyr.
    cbn [fst snd]. fold looked_up.
    destruct (JS.truthy lyrics); [reflexivity|].
    cbn [run]. now destruct looked_up. }
  split.
  - intros Hfalsy. rewrite Hfalsy in Hstage.
    split; [exact Hstage|]. split; [now rewrite Hstage|].
    intros finalVideoPath composed Hcomp.
    split; [apply compose_without_lyrics; reflexivity|].
    assert (Hbody : run o (AutonomousProcessor.pipeline songId options job) s
                        (with_autonomous_jobs (insert songId job) w)
                    = run o (AutonomousProcessor.finish songId songTitle artist options
                               audioPath instrumental None finalVideoPath karaokeVideoPath
                               youtubeVideoId) composed.1.2 composed.1.1).
    { rewrite Hupto. subst composed. rewrite Hstage. cbn [fst snd]. destruct looked_up as [w' s'].
      rewrite Hstage in Hcomp. cbn [fst snd] in Hcomp.
      rewrite run_mbind. now rewrite (returned _ finalVideoPath _ _ Hcomp). }
    subst out. unfold AutonomousProcessor.processKaraokeSong. fold job.
    rewrite run_mbind, run_exec, run_finally, run_try_catch. rewrite Hbody.
    destruct (finish_marks_ready o songId songTitle artist options audioPath instrumental
                None finalVideoPath karaokeVideoPath youtubeVideoId
                composed.1.2 composed.1.1) as (Hret & Hsched & Hmark).
    destruct (run o (AutonomousProcessor.finish _ _ _ _ _ _ _ _ _ _) _ _) as [[w' s'] r].
    cbn [fst snd] in Hret, Hsched, Hmark. subst r s'.
    rewrite run_exec. cbn [fst snd].
    split; [reflexivity|]. split; [reflexivity|]. split; [exact Hmark|].
    apply lookup_delete_eq.
  - intros Htruthy e Hfail. rewrite Htruthy in Hstage.
    assert (Hthrown : synced = (synchronized, inl e)).
    { rewrite Hstage. rewrite run_mbind, (run_await o synchronize). fold reply synchronized.
      destruct Hfail as [Hrej | (syncedLyrics & Hres & Hwrite)].
      - rewrite Hrej. now destruct synchronized.
      - rewrite Hres. rewrite run_mbind, run_attempt.
        rewrite Hwrite. rewrite (writeFileSync_throws _ _ _ _ Hwrite).
        now destruct synchronized. }
    assert (Hasked : asked synced.1.2
                     = asked separated.1.2 ++ [FetchLyrics songTitle artist; synchronize]).
    { rewrite Hthrown. subst synchronized looked_up. cbn [fst snd after_await asked].
      now rewrite <- app_assoc. }
    split; [now rewrite Hthrown|]. split; [exact Hasked|].
    assert (Hbody : run o (AutonomousProcessor.pipeline songId options job) s
                        (with_autonomous_jobs (insert songId job) w)
                    = (synced.1.1, synced.1.2, inl e)).
    { rewrite Hupto, Hthrown. now destruct synchronized. }
    subst out. unfold AutonomousProcessor.processKaraokeSong. fold job.
    rewrite run_mbind, run_exec, run_finally, run_try_catch. rewrite Hbody.
    rewrite !run_exec. cbn [fst snd].
    split; [reflexivity|]. split; [reflexivity|].
    split; [apply (updateSongStatus_marks songId failed 0)|].
    apply lookup_delete_eq.
Qed.

Lemma run_without_lyrics_reaches_ready_witness :
  let out := run (Sample.oracle Sample.no_lyrics)
                 (AutonomousProcessor.processKaraokeSong "s1" Sample.options) (idle [])
                 (Sample.world [Sample.bohemian] [] ∅) in
  out.2 = inr tt /\ marked "s1" ready 100 out.1.1 /\
  autonomous_jobs out.1.1 !! "s1" = None.
Proof.
  destruct (run_without_lyrics_reaches_ready
              (Sample.oracle Sample.no_lyrics) "s1" Sample.options (idle [])
              (Sample.world [Sample.bohemian] [] ∅)
              (KaraokeDB.to_song (Sample.bohemian, Sample.alice))
              Sample.audio None None (instrumental Sample.stems) None)
    as [H _];
    [vm_compute; reflexivity | left; vm_compute; reflexivity | vm_compute; reflexivity ..|].
  destruct (H eq_refl) as (_ & _ & Hrun).
  destruct (Hrun Sample.generated) as (_ & H1 & _ & H2 & H3); [vm_compute; reflexivity|].
  split; [exact H1|]. split; [exact H2 | exact H3].
Defined.

(** C5, as stated, fails: the lyrics stage is not protected.  Lyrics are
    found and their synchronisation is rejected; every other stage
    succeeds (the video stage would, too, from the state that the
    lyrics stage leaves), and the run ends with the song [failed]. *)
Lemma syncLyrics_failure_counterexample :
  let o := Sample.oracle Sample.sync_fails in
  let job := AutonomousProcessor.make_job "s1" Sample.options in
  let w := Sample.world [Sample.bohemian] [] ∅ in
  let looked := CacheManager.checkCache "Bohemian Rhapsody" "Queen" "high"
                  (KaraokeDB.updateSongStatus "s1" processing (Some 5)
                     (with_autonomous_jobs (insert "s1" job) w)) in
  let acquired := run o (AutonomousProcessor.acquireAudio "s1" "Bohemian Rhapsody" "Queen" job)
                      (idle []) looked.1 in
  let fetched := run o (AutonomousProcessor.fetchKaraokeVideo "s1" "Bohemian Rhapsody"
                          "Queen" job) acquired.1.2 acquired.1.1 in
  let separated := run o (AutonomousProcessor.separate "s1" Sample.audio Sample.options)
                       fetched.1.2 fetched.1.1 in
  let synced := run o (AutonomousProcessor.syncLyrics "s1" "Bohemian Rhapsody" "Queen"
                         (instrumental Sample.stems)) separated.1.2 separated.1.1 in
  let composed := run o (AutonomousProcessor.compose "s1" (instrumental Sample.stems)
                           None None None) synced.1.2 synced.1.1 in
  let out := run o (AutonomousProcessor.processKaraokeSong "s1" Sample.options) (idle []) w in
  looked.2 = None /\
  acquired.2 = inr Sample.audio /\
  fetched.2 = inr (None, None) /\
  separated.2 = inr (instrumental Sample.stems) /\
  synced.2 = inl "ffprobe failed" /\
  composed.2 = inr Sample.generated /\
  asked out.1.2 =
    [ FindBestMatch "Bohemian Rhapsody" "Queen" 3;
      Race (DownloadAudio "magnet:test" "Queen - Bohemian Rhapsody") 300000 "Torrent timeout";
      Race (GetBestKaraokeVideo "Bohemian Rhapsody" "Queen") 120000 "YouTube timeout";
      SeparateVocals "/srv/karaokio/downloads/queen.mp3" (mkProcessingOptions "high" "wav");
      FetchLyrics "Bohemian Rhapsody" "Queen";
      SmartSynchronize "Is this the real life?"
                       "/srv/karaokio/output/queen/instrumental.wav" ] /\
  (Song.status <$> songs out.1.1) = [failed] /\
  (Song.processing_progress <$> songs out.1.1) = [0].
Proof. repeat split; vm_compute; reflexivity. Qed.

(* ================================================================== *)
(** ** The tables of [KaraokeDB] *)
(* ================================================================== *)

Section Tables.

Lemma find_app_fresh {A} (f : A -> bool) l x :
  Forall (fun y => f y = false) l -> f x = true -> find f (l ++ [x]) = Some x.
Proof.
  induction 1 as [|y l Hy Hl IH]; intros Hx; cbn [app find].
  - now rewrite Hx.
  - rewrite Hy. now apply IH.
Qed.

Lemma find_app_other {A} (f : A -> bool) l x :
  f x = false -> find f (l ++ [x]) = find f l.
Proof.
  intros Hx. induction l as [|y l IH]; cbn [app find]; [now rewrite Hx|].
  destruct (f y); [reflexivity | exact IH].
Qed.

Lemma find_filter_out {A} (f : A -> bool) (P : A -> Prop) `{!forall x, Decision (P x)} l :
  (forall x, f x = true -> P x) -> find f (filter P l) = find f l.
Proof.
  intros Hf. induction l as [|y l IH]; [reflexivity|].
  rewrite filter_cons. cbn [find]. destruct (decide (P y)) as [Hy|Hy]; cbn [find].
  - now rewrite IH.
  - destruct (f y) eqn:E; [now apply Hf in E | exact IH].
Qed.

Lemma find_filter_none {A} (f : A -> bool) (P : A -> Prop) `{!forall x, Decision (P x)} l :
  (forall x, f x = true -> ~ P x) -> find f (filter P l) = None.
Proof.
  intros Hf. induction l as [|y l IH]; [reflexivity|].
  rewrite filter_cons. destruct (decide (P y)) as [Hy|Hy]; [|exact IH].
  cbn [find]. destruct (f y) eqn:E; [now apply Hf in E | exact IH].
Qed.

Lemma joined_ids w : Forall (fun su => Song.id su.1 ∈ Song.id <$> songs w) (KaraokeDB.joined w).
Proof.
  apply Forall_forall. intros [s u] Hsu. apply joined_song in Hsu.
  apply list_elem_of_fmap. now exists s.
Qed.

(** What [addSong] does for a fresh id and a user who is there. *)
Lemma addSong_fresh song user w :
  QueuedSong.id song ∉ Song.id <$> songs w ->
  KaraokeDB.getUser (User.id (QueuedSong.user song)) w = Some user ->
  KaraokeDB.addSong song w
  = (with_songs (fun rows => rows ++ [KaraokeDB.new_row song]) w, inr tt) /\
  KaraokeDB.joined (with_songs (fun rows => rows ++ [KaraokeDB.new_row song]) w)
  = KaraokeDB.joined w ++ [(KaraokeDB.new_row song, user)].
Proof.
  intros Hfresh Huser. unfold KaraokeDB.addSong.
  assert (Hno : existsb (fun r => String.eqb (Song.id r) (QueuedSong.id song)) (songs w)
                = false).
  { apply not_true_is_false. intros H. apply existsb_exists in H as (r & Hr & E).
    apply String.eqb_eq in E. apply Hfresh, list_elem_of_fmap. exists r.
    split; [now symmetry | now apply list_elem_of_In]. }
  assert (Hyes : existsb (fun u => String.eqb (User.id u) (User.id (QueuedSong.user song)))
                   (users w) = true).
  { apply existsb_exists. unfold KaraokeDB.getUser in Huser.
    apply find_some in Huser. now exists user. }
  rewrite Hno, Hyes. cbn [negb]. split; [reflexivity|].
  unfold KaraokeDB.joined. cbn [songs users with_songs]. rewrite omap_app.
  cbn [omap list_omap KaraokeDB.new_row Song.user_id].
  unfold KaraokeDB.getUser in Huser. now rewrite Huser.
Qed.

(** The rows of a table with fresh ids do not answer to the new id. *)
Lemma joined_fresh id w :
  id ∉ Song.id <$> songs w ->
  Forall (fun su : Song.row * User.t => String.eqb (Song.id su.1) id = false)
         (KaraokeDB.joined w).
Proof.
  intros Hfresh. eapply Forall_impl; [apply joined_ids|]. intros [s u] Hs. cbn [fst] in *.
  apply String.eqb_neq. intros E. apply Hfresh. now rewrite <- E.
Qed.

End Tables.

(** X1: A song that is added can be read back: with a fresh id and a user
    who is in the table, [addSong] succeeds and [getSong] returns the song
    with the stored user, progress 0 and no karaoke files; the other
    songs read as before. *)
Theorem addSong_then_getSong song user w :
  QueuedSong.id song ∉ Song.id <$> songs w ->
  KaraokeDB.getUser (User.id (QueuedSong.user song)) w = Some user ->
  let added := KaraokeDB.addSong song w in
  added.2 = inr tt /\
  KaraokeDB.getSong (QueuedSong.id song) added.1
  = Some (QueuedSong.mk (QueuedSong.id song) user (QueuedSong.songTitle song)
            (QueuedSong.artist song) (QueuedSong.requestedAt song)
            (QueuedSong.status song) 0 None) /\
  (forall id, id <> QueuedSong.id song ->
              KaraokeDB.getSong id added.1 = KaraokeDB.getSong id w).
Proof.
  intros Hfresh Huser added. subst added.
  destruct (addSong_fresh song user w Hfresh Huser) as [-> Hj]. cbn [fst snd].
  split; [reflexivity|]. unfold KaraokeDB.getSong. rewrite Hj. split.
  - rewrite find_app_fresh; [reflexivity | now apply joined_fresh |].
    cbn. apply String.eqb_refl.
  - intros id Hid. rewrite find_app_other; [reflexivity|].
    cbn. apply String.eqb_neq. congruence.
Qed.

Lemma addSong_then_getSong_witness :
  KaraokeDB.getSong "s2"
    (KaraokeDB.addSong Sample.africa (Sample.world [Sample.bohemian] [] ∅)).1
  = Some Sample.africa.
Proof.
  apply (addSong_then_getSong Sample.africa Sample.alice
           (Sample.world [Sample.bohemian] [] ∅)).
  - cbn. intros [=]%list_elem_of_singleton.
  - reflexivity.
Defined.

Section TableInvariants.

Lemma updateSongPaths_ids id a b c d w :
  Song.id <$> songs (KaraokeDB.updateSongPaths id a b c d w) = Song.id <$> songs w.
Proof.
  unfold KaraokeDB.updateSongPaths.
  destruct (_ || _); [|reflexivity]. cbn [songs emit with_songs].
  induction (songs w) as [|r l IH]; [reflexivity|].
  cbn [map fmap list_fmap]. f_equal; [|exact IH].
  destruct (String.eqb _ _); reflexivity.
Qed.

Lemma updateSongPaths_user_ids id a b c d w :
  Song.user_id <$> songs (KaraokeDB.updateSongPaths id a b c d w)
  = Song.user_id <$> songs w.
Proof.
  unfold KaraokeDB.updateSongPaths.
  destruct (_ || _); [|reflexivity]. cbn [songs emit with_songs].
  induction (songs w) as [|r l IH]; [reflexivity|].
  cbn [map fmap list_fmap]. f_equal; [|exact IH].
  destruct (String.eqb _ _); reflexivity.
Qed.

Lemma updateSongPaths_users id a b c d w :
  users (KaraokeDB.updateSongPaths id a b c d w) = users w.
Proof. unfold KaraokeDB.updateSongPaths. now destruct (_ || _). Qed.

Lemma NoDup_fmap_filter {A B} (f : A -> B) (P : A -> Prop) `{!forall x, Decision (P x)} l :
  NoDup (f <$> l) -> NoDup (f <$> filter P l).
Proof.
  induction l as [|x l IH]; [trivial|].
  rewrite fmap_cons, filter_cons. intros [Hx Hl]%NoDup_cons.
  destruct (decide (P x)); [|now apply IH].
  rewrite fmap_cons. apply NoDup_cons. split; [|now apply IH].
  intros Hin. apply Hx. apply list_elem_of_fmap in Hin as (y & -> & Hy).
  apply list_elem_of_filter in Hy as [_ Hy]. apply list_elem_of_fmap. now exists y.
Qed.

Lemma addUser_ok u w : db_ok w -> db_ok (KaraokeDB.addUser u w).
Proof.
  intros (Hu & Hs & Hk). unfold db_ok, distinct_ids, users_known, KaraokeDB.addUser.
  cbn [users songs with_users]. split; [|split; [exact Hs|]].
  - rewrite fmap_app. apply NoDup_app. split; [now apply NoDup_fmap_filter|]. split.
    + intros i Hi [->|[]%elem_of_nil]%elem_of_cons.
      apply list_elem_of_fmap in Hi as (y & E & Hy).
      apply list_elem_of_filter in Hy as [Hne _]. now apply Hne.
    + apply NoDup_singleton.
  - eapply Forall_impl; [exact Hk|]. intros r (u0 & Hu0 & E). cbn beta.
    destruct (decide (User.id u0 = User.id u)) as [Heq|Hne].
    + exists u. split; [apply elem_of_app; right; left | congruence].
    + exists u0. split; [|exact E]. apply elem_of_app. left.
      now apply list_elem_of_filter.
Qed.

Lemma addSong_ok song w : db_ok w -> db_ok (KaraokeDB.addSong song w).1.
Proof.
  intros (Hu & Hs & Hk). unfold KaraokeDB.addSong.
  destruct (existsb _ (songs w)) eqn:Hid; [now cbn|].
  destruct (existsb _ (users w)) eqn:Huser; [|now cbn].
  cbn [negb fst]. unfold db_ok, distinct_ids, users_known. cbn [users songs with_songs].
  split; [exact Hu|]. split.
  - rewrite fmap_app. apply NoDup_app. split; [exact Hs|]. split; [|apply NoDup_singleton].
    intros i Hi [->|[]%elem_of_nil]%elem_of_cons.
    apply list_elem_of_fmap in Hi as (r & E & Hr).
    apply not_true_iff_false in Hid. apply Hid, existsb_exists. exists r.
    split; [now apply list_elem_of_In|]. apply String.eqb_eq. now rewrite <- E.
  - apply Forall_app. split; [exact Hk|]. apply Forall_singleton.
    apply existsb_exists in Huser as (u & Hin & E). exists u.
    split; [now apply list_elem_of_In | now apply String.eqb_eq in E].
Qed.

Lemma updateSongStatus_ok id st p w : db_ok w -> db_ok (KaraokeDB.updateSongStatus id st p w).
Proof.
  intros (Hu & Hs & Hk). split; [exact Hu|]. split.
  - unfold distinct_ids. now rewrite updateSongStatus_ids.
  - eapply users_known_transfer; [| |exact Hk]; [reflexivity|].
    apply updateSongStatus_user_ids.
Qed.

Lemma updateSongPaths_ok id a b c d w :
  db_ok w -> db_ok (KaraokeDB.updateSongPaths id a b c d w).
Proof.
  intros (Hu & Hs & Hk). unfold db_ok. rewrite updateSongPaths_users.
  split; [exact Hu|]. split.
  - unfold distinct_ids. now rewrite updateSongPaths_ids.
  - eapply users_known_transfer; [| |exact Hk]; [apply updateSongPaths_users|].
    apply updateSongPaths_user_ids.
Qed.

Lemma removeSong_ok id w : db_ok w -> db_ok (KaraokeDB.removeSong id w).
Proof.
  intros (Hu & Hs & Hk). unfold db_ok, distinct_ids, users_known, KaraokeDB.removeSong.
  cbn [users songs with_songs]. split; [exact Hu|]. split.
  - now apply NoDup_fmap_filter.
  - apply Forall_forall. intros r [_ Hr]%list_elem_of_filter.
    unfold users_known in Hk. rewrite Forall_forall in Hk. now apply Hk.
Qed.

End TableInvariants.

(** X2: The constraints of the tables (unique user ids, unique song ids,
    every song with its user) hold after every operation of [KaraokeDB]
    that writes, whether it succeeds or throws. *)
Theorem db_ok_preserved w :
  db_ok w ->
  (forall user, db_ok (KaraokeDB.addUser user w)) /\
  (forall song, db_ok (KaraokeDB.addSong song w).1) /\
  (forall id st progress, db_ok (KaraokeDB.updateSongStatus id st progress w)) /\
  (forall id o i l v, db_ok (KaraokeDB.updateSongPaths id o i l v w)) /\
  (forall id, db_ok (KaraokeDB.removeSong id w)).
Proof.
  intros H. split; [|split; [|split; [|split]]].
  - intros u. now apply addUser_ok.
  - intros s. now apply addSong_ok.
  - intros id st p. now apply updateSongStatus_ok.
  - intros id o i l v. now apply updateSongPaths_ok.
  - intros id. now apply removeSong_ok.
Qed.

Lemma sample_db_ok : db_ok SampleQueue.on_stage.
Proof.
  split; [|split].
  - apply (bool_decide_unpack _). vm_compute. exact I.
  - apply (bool_decide_unpack _). vm_compute. exact I.
  - repeat constructor; exists Sample.alice; (split; [left | reflexivity]).
Defined.

Lemma db_ok_preserved_witness :
  db_ok (KaraokeDB.addSong Sample.africa SampleQueue.on_stage).1 /\
  db_ok (KaraokeDB.removeSong "a" SampleQueue.on_stage).
Proof.
  destruct (db_ok_preserved SampleQueue.on_stage sample_db_ok) as (_ & H2 & _ & _ & H5).
  split; [apply H2 | apply H5].
Defined.

Section TableLookups.

Lemma find_unique {A} (key : A -> string) l x :
  NoDup (key <$> l) -> x ∈ l -> find (fun y => String.eqb (key y) (key x)) l = Some x.
Proof.
  induction l as [|y l IH]; intros Hnd Hx; [inversion Hx|].
  rewrite fmap_cons in Hnd. apply NoDup_cons in Hnd as [Hy Hl]. cbn [find].
  apply elem_of_cons in Hx as [->|Hx]; [now rewrite String.eqb_refl|].
  destruct (String.eqb_spec (key y) (key x)) as [E|E]; [|now apply IH].
  exfalso. apply Hy. rewrite E. apply list_elem_of_fmap. now exists x.
Qed.

Lemma joined_distinct w : distinct_ids w -> NoDup ((fun su => Song.id su.1) <$> KaraokeDB.joined w).
Proof.
  unfold distinct_ids, KaraokeDB.joined.
  induction (songs w) as [|s l IH]; intros Hnd; [constructor|].
  rewrite fmap_cons in Hnd. apply NoDup_cons in Hnd as [Hs Hl].
  cbn [omap list_omap]. destruct (find _ (users w)) as [u|]; [|now apply IH].
  rewrite fmap_cons. apply NoDup_cons. split; [|now apply IH].
  cbn [fst]. intros Hin. apply Hs.
  apply list_elem_of_fmap in Hin as ([s' u'] & E & Hin).
  apply list_elem_of_omap in Hin as (r & Hr & Er).
  destruct (find _ (users w)); [|discriminate Er]. injection Er as -> _.
  cbn [fst] in E. rewrite E. apply list_elem_of_fmap. now exists s'.
Qed.

Lemma joined_removeSong id w :
  KaraokeDB.joined (KaraokeDB.removeSong id w)
  = filter (fun su => Song.id su.1 ≠ id) (KaraokeDB.joined w).
Proof.
  unfold KaraokeDB.joined, KaraokeDB.removeSong. cbn [songs users with_songs].
  induction (songs w) as [|s l IH]; [reflexivity|].
  rewrite filter_cons. destruct (decide (Song.id s ≠ id)) as [Hs|Hs]; cbn [omap list_omap].
  - destruct (find _ (users w)); [|exact IH].
    rewrite filter_cons. cbn [fst]. destruct (decide _); [|contradiction]. now rewrite IH.
  - destruct (find _ (users w)); [|exact IH].
    rewrite filter_cons. cbn [fst]. destruct (decide _); [contradiction | exact IH].
Qed.

Lemma removeSong_ids id w : id ∉ Song.id <$> songs (KaraokeDB.removeSong id w).
Proof.
  unfold KaraokeDB.removeSong. cbn [songs with_songs].
  intros (r & E & [Hr _]%list_elem_of_filter)%list_elem_of_fmap. congruence.
Qed.

End TableLookups.

(** X3: The two ways of reading a song agree: with unique ids, a song is in
    the queue exactly when [getSong] returns it for its id and its
    status is one of queued, processing, ready and playing. *)
Theorem getQueue_agrees_with_getSong w song :
  distinct_ids w ->
  song ∈ KaraokeDB.getQueue w <->
  KaraokeDB.getSong (QueuedSong.id song) w = Some song /\
  KaraokeDB.in_queue (QueuedSong.status song) = true.
Proof.
  intros Hd. rewrite getQueue_perm, list_elem_of_fmap. unfold KaraokeDB.getSong. split.
  - intros ([s u] & -> & [Hq Hin]%list_elem_of_filter). cbn [fst] in Hq. split; [|exact Hq].
    change (QueuedSong.id (KaraokeDB.to_song (s, u))) with (Song.id (s, u).1).
    now rewrite (find_unique (fun su : Song.row * User.t => Song.id su.1) _ (s, u)
                   (joined_distinct w Hd) Hin).
  - intros [Hfind Hq]. destruct (find _ (KaraokeDB.joined w)) as [[s u]|] eqn:F;
      [|discriminate Hfind].
    injection Hfind as <-. apply find_some in F as [Hin _].
    exists (s, u). split; [reflexivity|]. apply list_elem_of_filter.
    split; [exact Hq | now apply list_elem_of_In].
Qed.

Lemma getQueue_agrees_with_getSong_witness :
  QueuedSong.mk "b" Sample.alice "Believe" "Cher" "2024-05-01T20:01:00.000Z" ready 100 None
  ∈ KaraokeDB.getQueue SampleQueue.on_stage.
Proof.
  apply getQueue_agrees_with_getSong.
  - apply (bool_decide_unpack _). vm_compute. exact I.
  - split; reflexivity.
Defined.

(** X4: A user can be read back after [addUser]; a user added again under
    the same id replaces the old one, and the other users stay. *)
Theorem addUser_then_getUser user w :
  KaraokeDB.getUser (User.id user) (KaraokeDB.addUser user w) = Some user /\
  (forall id, id <> User.id user ->
              KaraokeDB.getUser id (KaraokeDB.addUser user w) = KaraokeDB.getUser id w).
Proof.
  unfold KaraokeDB.getUser, KaraokeDB.addUser. cbn [users with_users]. split.
  - apply find_app_fresh; [|apply String.eqb_refl].
    apply Forall_forall. intros u [Hne _]%list_elem_of_filter. now apply String.eqb_neq.
  - intros id Hid. rewrite find_app_other by (apply String.eqb_neq; congruence).
    apply find_filter_out. intros u E%String.eqb_eq. congruence.
Qed.

(** X5: A removed song cannot be read any more, and the other songs read as
    before. *)
Theorem removeSong_then_getSong id w :
  KaraokeDB.getSong id (KaraokeDB.removeSong id w) = None /\
  (forall id', id' <> id ->
               KaraokeDB.getSong id' (KaraokeDB.removeSong id w) = KaraokeDB.getSong id' w).
Proof.
  unfold KaraokeDB.getSong. rewrite joined_removeSong. split.
  - rewrite find_filter_none; [reflexivity|]. intros [s u] E%String.eqb_eq. cbn [fst] in *. tauto.
  - intros id' Hid. rewrite find_filter_out; [reflexivity|].
    intros [s u] E%String.eqb_eq. cbn [fst] in *. congruence.
Qed.

(** X6: A status update and a path update write different columns: done in
    either order they leave the same songs. *)
Theorem status_and_paths_commute id st progress id' o i l v w :
  songs (KaraokeDB.updateSongPaths id' o i l v (KaraokeDB.updateSongStatus id st progress w))
  = songs (KaraokeDB.updateSongStatus id st progress (KaraokeDB.updateSongPaths id' o i l v w)).
Proof.
  unfold KaraokeDB.updateSongPaths, KaraokeDB.updateSongStatus.
  destruct (_ || _); cbn [songs emit with_songs]; [|reflexivity].
  rewrite !map_map. apply map_ext. intros r.
  destruct r as [rid ? ? ? ? ? ? ? ? ? ? ? ? ? ? ? ? ?]. cbn [Song.id].
  destruct (String.eqb rid id) eqn:E, (String.eqb rid id') eqn:E'; try destruct progress;
    cbn; rewrite ?E, ?E'; reflexivity.
Qed.

Section Karaoke.

Lemma getSong_updateSongStatus_karaoke id id' st p w song :
  KaraokeDB.getSong id' w = Some song ->
  exists song',
    KaraokeDB.getSong id' (KaraokeDB.updateSongStatus id st p w) = Some song' /\
    QueuedSong.karaoke song' = QueuedSong.karaoke song.
Proof.
  unfold KaraokeDB.getSong. rewrite joined_updateSongStatus.
  induction (KaraokeDB.joined w) as [|[s u] l IH]; [discriminate|].
  cbn [map find fst snd].
  assert (Hid : Song.id (if String.eqb (Song.id s) id then
                           match p with
                           | Some n => Song.set_progress n (Song.set_status st s)
                           | None => Song.set_status st s
                           end
                         else s) = Song.id s).
  { destruct (String.eqb _ _); [destruct p|]; reflexivity. }
  rewrite Hid. destruct (String.eqb (Song.id s) id'); [|exact IH].
  cbn. intros [= <-]. eexists. split; [reflexivity|].
  destruct (String.eqb _ _); [destruct p|]; reflexivity.
Qed.

Lemma joined_updateSongPaths id o i l v w :
  KaraokeDB.joined (KaraokeDB.updateSongPaths id o i l v w)
  = map (fun su : Song.row * User.t =>
           (if JS.truthy o || JS.truthy i || JS.truthy l || JS.truthy v then
              if String.eqb (Song.id su.1) id then
                Song.set_paths
                  (if JS.truthy o then o else Song.original_audio_path su.1)
                  (if JS.truthy i then i else Song.instrumental_path su.1)
                  (if JS.truthy l then l else Song.lyrics_path su.1)
                  (if JS.truthy v then v else Song.video_path su.1) su.1
              else su.1
            else su.1, su.2))
        (KaraokeDB.joined w).
Proof.
  unfold KaraokeDB.joined, KaraokeDB.updateSongPaths.
  destruct (_ || _); cbn [songs users emit with_songs].
  - induction (songs w) as [|s rows IH]; [reflexivity|].
    cbn [map omap list_omap].
    assert (Hu : forall s' : Song.row,
               Song.user_id
                 (if String.eqb (Song.id s') id then
                    Song.set_paths
                      (if JS.truthy o then o else Song.original_audio_path s')
                      (if JS.truthy i then i else Song.instrumental_path s')
                      (if JS.truthy l then l else Song.lyrics_path s')
                      (if JS.truthy v then v else Song.video_path s') s'
                  else s') = Song.user_id s').
    { intros s'. destruct (String.eqb _ _); reflexivity. }
    rewrite Hu. destruct (find _ (users w)); cbn [map fst snd]; now rewrite <- IH.
  - induction (omap _ (songs w)) as [|[s u] rows IH]; [reflexivity|].
    cbn [map fst snd]. now rewrite <- IH.
Qed.

Lemma getSong_updateSongPaths_karaoke id id' o i l v w song :
  KaraokeDB.getSong id' w = Some song ->
  exists song',
    KaraokeDB.getSong id' (KaraokeDB.updateSongPaths id o i l v w) = Some song' /\
    (is_Some (QueuedSong.karaoke song) -> is_Some (QueuedSong.karaoke song')).
Proof.
  unfold KaraokeDB.getSong. rewrite joined_updateSongPaths.
  induction (KaraokeDB.joined w) as [|[s u] rows IH]; [discriminate|].
  cbn [map find fst snd].
  assert (Hid : Song.id
                  (if JS.truthy o || JS.truthy i || JS.truthy l || JS.truthy v then
                     if String.eqb (Song.id s) id then
                       Song.set_paths
                         (if JS.truthy o then o else Song.original_audio_path s)
                         (if JS.truthy i then i else Song.instrumental_path s)
                         (if JS.truthy l then l else Song.lyrics_path s)
                         (if JS.truthy v then v else Song.video_path s) s
                     else s
                   else s) = Song.id s).
  { destruct (_ || _); [destruct (String.eqb _ _)|]; reflexivity. }
  rewrite Hid. destruct (String.eqb (Song.id s) id'); [|exact IH].
  cbn [option_map]. intros [= <-]. eexists. split; [reflexivity|].
  destruct (_ || _); [|trivial]. destruct (String.eqb _ _); [|trivial].
  unfold KaraokeDB.to_song. cbn [QueuedSong.karaoke Song.set_paths Song.instrumental_path].
  destruct (JS.truthy i) eqn:Ei; [rewrite Ei; intros _; eexists; reflexivity|].
  destruct (JS.truthy (Song.instrumental_path s)); trivial.
Qed.

End Karaoke.

(** X7: The karaoke files of a song, once [getSong] shows them, are not
    withdrawn by a status update or by a path update of any song: path
    updates only set columns, they never clear one. *)
Theorem karaoke_is_not_withdrawn id w song :
  KaraokeDB.getSong id w = Some song ->
  is_Some (QueuedSong.karaoke song) ->
  (forall id' st progress, exists song',
      KaraokeDB.getSong id (KaraokeDB.updateSongStatus id' st progress w) = Some song' /\
      is_Some (QueuedSong.karaoke song')) /\
  (forall id' o i l v, exists song',
      KaraokeDB.getSong id (KaraokeDB.updateSongPaths id' o i l v w) = Some song' /\
      is_Some (QueuedSong.karaoke song')).
Proof.
  intros Hsong Hk. split.
  - intros id' st p.
    destruct (getSong_updateSongStatus_karaoke id' id st p w song Hsong) as (song' & H & E).
    exists song'. split; [exact H | now rewrite E].
  - intros id' o i l v.
    destruct (getSong_updateSongPaths_karaoke id' id o i l v w song Hsong) as (song' & H & E).
    exists song'. split; [exact H | now apply E].
Qed.

Lemma karaoke_is_not_withdrawn_witness :
  let w := KaraokeDB.updateSongPaths "s1" None (Some (instrumental Sample.stems)) None None
             (Sample.world [Sample.bohemian] [] ∅) in
  exists song',
    KaraokeDB.getSong "s1" (KaraokeDB.updateSongPaths "s1" None (Some "") None (Some "v.mp4") w)
    = Some song' /\ is_Some (QueuedSong.karaoke song').
Proof.
  intros w.
  eapply (karaoke_is_not_withdrawn "s1" w); [reflexivity|]. cbn. eexists. reflexivity.
Defined.

(* ================================================================== *)
(** ** The cache index *)
(* ================================================================== *)

Section CacheIndex.

Lemma add_size_frame filePath w total :
  let out := (CacheManager.add_size filePath (w, total)).1 in
  processed_cache out = processed_cache w /\ cache_seq out = cache_seq w /\
  fs out = fs w /\ clock out = clock w.
Proof.
  unfold CacheManager.add_size. destruct (JS.truthy filePath); cbn; auto.
Qed.

(** The table and the counter after [addToCache]. *)
Lemma addToCache_rows title artist quality files youtubeVideoId w :
  let cacheKey := CacheManager.generateCacheKey title artist quality in
  let out := (CacheManager.addToCache title artist quality files youtubeVideoId w).1 in
  exists totalSize,
    processed_cache out
    = other_rows cacheKey (processed_cache w)
      ++ [Cache.mk (cache_seq w + 1) cacheKey title artist
            (JS.or_undefined (ProcessedSong.original files))
            (JS.or_undefined (ProcessedSong.instrumental files))
            (JS.or_undefined (ProcessedSong.lyrics files))
            (JS.or_undefined (ProcessedSong.video files))
            (JS.or_undefined youtubeVideoId) (Some quality)
            (clock w) (clock w) totalSize] /\
    cache_seq out = cache_seq w + 1 /\ fs out = fs w /\ clock out = clock w.
Proof.
  intros cacheKey out. subst out. unfold CacheManager.addToCache. fold cacheKey.
  pose proof (add_size_frame (ProcessedSong.original files) w 0) as H1.
  destruct (CacheManager.add_size (ProcessedSong.original files) (w, 0)) as [w1 s1].
  pose proof (add_size_frame (ProcessedSong.instrumental files) w1 s1) as H2.
  destruct (CacheManager.add_size (ProcessedSong.instrumental files) (w1, s1)) as [w2 s2].
  pose proof (add_size_frame (ProcessedSong.lyrics files) w2 s2) as H3.
  destruct (CacheManager.add_size (ProcessedSong.lyrics files) (w2, s2)) as [w3 s3].
  pose proof (add_size_frame (ProcessedSong.video files) w3 s3) as H4.
  destruct (CacheManager.add_size (ProcessedSong.video files) (w3, s3)) as [w4 s4].
  cbn [fst snd] in *.
  destruct H1 as (C1 & S1 & F1 & K1), H2 as (C2 & S2 & F2 & K2),
           H3 as (C3 & S3 & F3 & K3), H4 as (C4 & S4 & F4 & K4).
  exists s4. cbn [processed_cache cache_seq fs clock emit with_cache with_cache_seq].
  unfold other_rows. rewrite C4, C3, C2, C1, S4, S3, S2, S1, K4, K3, K2, K1.
  repeat split; congruence.
Qed.

Lemma other_rows_keys cacheKey rows :
  NoDup (Cache.cache_key <$> rows) -> NoDup (Cache.cache_key <$> other_rows cacheKey rows).
Proof. apply NoDup_fmap_filter. Qed.

Lemma other_rows_fresh cacheKey rows : cacheKey ∉ Cache.cache_key <$> other_rows cacheKey rows.
Proof.
  intros (r & E & [Hne _]%list_elem_of_filter)%list_elem_of_fmap. now apply Hne.
Qed.

Lemma other_rows_sub cacheKey rows r : r ∈ other_rows cacheKey rows -> r ∈ rows.
Proof. now intros [_ H]%list_elem_of_filter. Qed.

Lemma touch_keys cacheKey now rows :
  Cache.cache_key <$> map (fun r => if String.eqb (Cache.cache_key r) cacheKey
                                    then Cache.set_last_accessed now r else r) rows
  = Cache.cache_key <$> rows.
Proof.
  induction rows as [|r rows IH]; [reflexivity|]. cbn [map]. rewrite !fmap_cons, IH.
  f_equal. now destruct (String.eqb _ _).
Qed.

Lemma touch_ids cacheKey now rows :
  Cache.id <$> map (fun r => if String.eqb (Cache.cache_key r) cacheKey
                             then Cache.set_last_accessed now r else r) rows
  = Cache.id <$> rows.
Proof.
  induction rows as [|r rows IH]; [reflexivity|]. cbn [map]. rewrite !fmap_cons, IH.
  f_equal. now destruct (String.eqb _ _).
Qed.

(** The constraints depend on the keys, the ids and the counter only. *)
Lemma cache_ok_rows w w' :
  cache_seq w' = cache_seq w ->
  Cache.cache_key <$> processed_cache w' = Cache.cache_key <$> processed_cache w ->
  Cache.id <$> processed_cache w' = Cache.id <$> processed_cache w ->
  cache_ok w -> cache_ok w'.
Proof.
  unfold cache_ok. intros Hs Hk Hi (Hkeys & Hids & Hseq). rewrite Hs, Hk, Hi.
  split; [exact Hkeys|]. split; [exact Hids|].
  apply Forall_forall. intros r Hr.
  assert (Hin : Cache.id r ∈ Cache.id <$> processed_cache w').
  { apply list_elem_of_fmap. now exists r. }
  rewrite Hi in Hin. apply list_elem_of_fmap in Hin as (r0 & -> & Hr0).
  rewrite Forall_forall in Hseq. now apply Hseq.
Qed.

Lemma cache_ok_filter (P : Cache.row -> Prop) `{!forall r, Decision (P r)} w w' :
  cache_seq w' = cache_seq w ->
  processed_cache w' = filter P (processed_cache w) ->
  cache_ok w -> cache_ok w'.
Proof.
  unfold cache_ok. intros Hs Hc (Hkeys & Hids & Hseq). rewrite Hs, Hc.
  split; [now apply NoDup_fmap_filter|]. split; [now apply NoDup_fmap_filter|].
  apply Forall_forall. intros r [_ Hr]%list_elem_of_filter.
  rewrite Forall_forall in Hseq. now apply Hseq.
Qed.

Lemma removeFromCache_ok cacheKey w : cache_ok w -> cache_ok (CacheManager.removeFromCache cacheKey w).
Proof. apply (cache_ok_filter (fun r => Cache.cache_key r ≠ cacheKey)); reflexivity. Qed.

Lemma addToCache_ok title artist quality files youtubeVideoId w :
  cache_ok w ->
  cache_ok (CacheManager.addToCache title artist quality files youtubeVideoId w).1.
Proof.
  intros (Hkeys & Hids & Hseq).
  destruct (addToCache_rows title artist quality files youtubeVideoId w)
    as (totalSize & Hrows & Hs & _).
  unfold cache_ok. rewrite Hrows, Hs, !fmap_app. cbn [fmap list_fmap Cache.cache_key Cache.id].
  rewrite Forall_forall in Hseq. split; [|split].
  - apply NoDup_app. split; [now apply other_rows_keys|]. split; [|apply NoDup_singleton].
    intros k Hk [->|[]%elem_of_nil]%elem_of_cons. now apply other_rows_fresh in Hk.
  - apply NoDup_app. split; [now apply NoDup_fmap_filter|]. split; [|apply NoDup_singleton].
    intros i Hi [->|[]%elem_of_nil]%elem_of_cons.
    apply list_elem_of_fmap in Hi as (r & E & Hr%other_rows_sub).
    specialize (Hseq r Hr). lia.
  - apply Forall_app. split; [|apply Forall_singleton; cbn; lia].
    apply Forall_forall. intros r Hr%other_rows_sub. specialize (Hseq r Hr). lia.
Qed.

Lemma checkCache_rows title artist quality w :
  let cacheKey := CacheManager.generateCacheKey title artist quality in
  let out := (CacheManager.checkCache title artist quality w).1 in
  let touched := map (fun r => if String.eqb (Cache.cache_key r) cacheKey
                               then Cache.set_last_accessed (clock w) r else r)
                     (processed_cache w) in
  cache_seq out = cache_seq w /\
  (processed_cache out = processed_cache w \/ processed_cache out = touched \/
   processed_cache out = other_rows cacheKey touched).
Proof.
  intros cacheKey out touched. subst out.
  destruct (CacheManager.select_row cacheKey (processed_cache w)) as [row|] eqn:Hsel.
  - pose proof (checkCache_found title artist quality w row Hsel) as [_ H].
    assert (Hseq : cache_seq (CacheManager.checkCache title artist quality w).1 = cache_seq w).
    { unfold CacheManager.checkCache. fold cacheKey. cbn [processed_cache emit]. rewrite Hsel.
      unfold CacheManager.verified, Fs.existsSync, CacheManager.removeFromCache.
      repeat (destruct (JS.truthy _); cbn [fst snd]); repeat destruct (_ !! _);
        cbn; reflexivity. }
    split; [exact Hseq|]. fold cacheKey in H.
    destruct (complete (fs w) row); destruct H as (_ & H & _); rewrite H; auto.
  - rewrite (checkCache_absent title artist quality w Hsel). cbn. auto.
Qed.

Lemma checkCache_ok title artist quality w :
  cache_ok w -> cache_ok (CacheManager.checkCache title artist quality w).1.
Proof.
  intros Hok. destruct (checkCache_rows title artist quality w) as (Hs & [H|[H|H]]).
  - eapply cache_ok_rows; [exact Hs | now rewrite H | now rewrite H | exact Hok].
  - eapply cache_ok_rows; [exact Hs | | | exact Hok]; rewrite H;
      [apply touch_keys | apply touch_ids].
  - set (cacheKey := CacheManager.generateCacheKey title artist quality) in *.
    apply (cache_ok_filter (fun r => Cache.cache_key r ≠ cacheKey)
             (CacheManager.updateLastAccessed cacheKey w)).
    + exact Hs.
    + exact H.
    + eapply cache_ok_rows; [| | |exact Hok]; [reflexivity|apply touch_keys|apply touch_ids].
Qed.

End CacheIndex.

Section Cleanup.

Lemma remove_file_frame w p :
  let out := CacheManager.remove_file w p in
  processed_cache out = processed_cache w /\ cache_seq out = cache_seq w /\
  clock out = clock w /\ songs out = songs w /\ users out = users w.
Proof.
  unfold CacheManager.remove_file, Fs.existsSync, Fs.unlinkSync. cbn [fs emit].
  destruct (fs w !! p) as [[]|]; cbn; auto.
Qed.

Lemma remove_files_frame ps : forall w,
  let out := fold_left CacheManager.remove_file ps w in
  processed_cache out = processed_cache w /\ cache_seq out = cache_seq w /\
  clock out = clock w /\ songs out = songs w /\ users out = users w.
Proof.
  induction ps as [|p ps IH]; intros w; cbn [fold_left]; [auto|].
  destruct (IH (CacheManager.remove_file w p)) as (C & S & K & G & U).
  destruct (remove_file_frame w p) as (C' & S' & K' & G' & U').
  cbn zeta in *. repeat split; congruence.
Qed.

Lemma remove_entry_frame w entry :
  let out := CacheManager.remove_entry w entry in
  processed_cache out = other_rows (Cache.cache_key entry) (processed_cache w) /\
  cache_seq out = cache_seq w /\ clock out = clock w /\ songs out = songs w /\
  users out = users w.
Proof.
  unfold CacheManager.remove_entry, CacheManager.removeFromCache.
  destruct (remove_files_frame (CacheManager.entry_files entry) w) as (C & S & K & G & U).
  cbn [processed_cache cache_seq clock songs users emit with_cache]. unfold other_rows.
  cbn zeta in *. rewrite C. auto.
Qed.

(** The rows that are left when the entries [es] have been removed. *)
Lemma remove_entries_frame es : forall w,
  let out := fold_left CacheManager.remove_entry es w in
  processed_cache out
  = filter (fun r => Cache.cache_key r ∉ Cache.cache_key <$> es) (processed_cache w) /\
  cache_seq out = cache_seq w /\ clock out = clock w /\ songs out = songs w /\
  users out = users w.
Proof.
  induction es as [|e es IH]; intros w; cbn [fold_left].
  - split; [|auto]. induction (processed_cache w) as [|r rows IH]; [reflexivity|].
    rewrite filter_cons_True by apply not_elem_of_nil. now rewrite <- IH.
  - destruct (IH (CacheManager.remove_entry w e)) as (C & S & K & G & U).
    destruct (remove_entry_frame w e) as (C' & S' & K' & G' & U').
    cbn zeta in *. split; [|repeat split; congruence].
    rewrite C, C'. unfold other_rows. rewrite list_filter_filter.
    apply list_filter_iff. intros r. rewrite fmap_cons, not_elem_of_cons. tauto.
Qed.

Lemma cleanupOldEntries_ok maxAgeDays maxEntries w :
  cache_ok w -> cache_ok (CacheManager.cleanupOldEntries maxAgeDays maxEntries w).
Proof.
  unfold CacheManager.cleanupOldEntries.
  destruct (remove_entries_frame (CacheManager.entriesToRemove maxAgeDays maxEntries w) w)
    as (C & S & _).
  now apply (cache_ok_filter _ w _ S C).
Qed.

End Cleanup.

(** X8: The constraints of the cache table (unique keys, unique ids, no id
    above the counter) hold after every operation of [CacheManager] that
    writes. *)
Theorem cache_ok_preserved w :
  cache_ok w ->
  (forall title artist quality files youtubeVideoId,
      cache_ok (CacheManager.addToCache title artist quality files youtubeVideoId w).1) /\
  (forall title artist quality, cache_ok (CacheManager.checkCache title artist quality w).1) /\
  (forall cacheKey, cache_ok (CacheManager.removeFromCache cacheKey w)) /\
  (forall maxAgeDays maxEntries,
      cache_ok (CacheManager.cleanupOldEntries maxAgeDays maxEntries w)).
Proof.
  intros H. split; [|split; [|split]].
  - intros. now apply addToCache_ok.
  - intros. now apply checkCache_ok.
  - intros. now apply removeFromCache_ok.
  - intros. now apply cleanupOldEntries_ok.
Qed.

Lemma sample_cache_ok : cache_ok Sample.three_entries.
Proof.
  split; [|split].
  - apply (bool_decide_unpack _). vm_compute. exact I.
  - apply (bool_decide_unpack _). vm_compute. exact I.
  - repeat constructor; cbn; lia.
Defined.

Lemma cache_ok_preserved_witness :
  cache_ok (CacheManager.addToCache "Africa" "Toto" "high" Sample.finished_files None
              Sample.three_entries).1 /\
  cache_ok (CacheManager.cleanupOldEntries 30 2 Sample.three_entries).
Proof.
  destruct (cache_ok_preserved Sample.three_entries sample_cache_ok) as (H1 & _ & _ & H4).
  split; [apply H1 | apply H4].
Defined.

(** X9: After a cleanup with a limit of [maxEntries] rows, no more than that
    many rows are left, none of them was last accessed more than
    [maxAgeDays] days ago, and the rows that are left are rows of before,
    unchanged and in their order. *)
Theorem cleanupOldEntries_bounds maxAgeDays maxEntries w :
  NoDup (Cache.id <$> processed_cache w) -> 0 <= maxEntries ->
  let out := CacheManager.cleanupOldEntries maxAgeDays maxEntries w in
  Z.of_nat (length (processed_cache out)) <= maxEntries /\
  (0 <= maxAgeDays ->
   Forall (fun r => clock w - maxAgeDays * 86400 <= Cache.last_accessed r)
          (processed_cache out)) /\
  sublist (processed_cache out) (processed_cache w) /\
  songs out = songs w /\ users out = users w.
Proof.
  intros Hids Hn out. subst out. unfold CacheManager.cleanupOldEntries.
  set (es := CacheManager.entriesToRemove maxAgeDays maxEntries w).
  destruct (remove_entries_frame es w) as (C & _ & _ & G & U). cbn zeta in *.
  rewrite C, G, U.
  assert (Hkept : forall r,
             r ∈ filter (fun r => Cache.cache_key r ∉ Cache.cache_key <$> es) (processed_cache w) ->
             ~ (0 <= maxAgeDays /\ Cache.last_accessed r < clock w - maxAgeDays * 86400) /\
             Cache.id r ∈ CacheManager.most_recent maxEntries (processed_cache w)).
  { intros r [Hk Hr]%list_elem_of_filter.
    assert (Hnot : r ∉ es).
    { intros Hin. apply Hk, list_elem_of_fmap. now exists r. }
    subst es. unfold CacheManager.entriesToRemove in Hnot.
    rewrite list_elem_of_filter in Hnot.
    split.
    - intros Hold. apply Hnot. split; [now left | exact Hr].
    - destruct (decide (Cache.id r ∈ CacheManager.most_recent maxEntries (processed_cache w)))
        as [Hin|Hout]; [exact Hin|].
      exfalso. apply Hnot. split; [now right | exact Hr]. }
  split; [|split; [|split; [apply sublist_filter | auto]]].
  - assert (Hsub : Cache.id <$> filter (fun r => Cache.cache_key r ∉ Cache.cache_key <$> es)
                                  (processed_cache w)
                   ⊆+ CacheManager.most_recent maxEntries (processed_cache w)).
    { apply NoDup_submseteq; [now apply NoDup_fmap_filter|].
      intros i (r & -> & Hr)%list_elem_of_fmap. now apply Hkept. }
    apply submseteq_length in Hsub.
    unfold CacheManager.most_recent in Hsub.
    replace (maxEntries <? 0) with false in Hsub by (symmetry; apply Z.ltb_ge; lia).
    rewrite !length_fmap, length_take in Hsub. lia.
  - intros Hd. apply Forall_forall. intros r Hr. destruct (Hkept r Hr) as [Hold _]. lia.
Qed.

Lemma cleanupOldEntries_bounds_witness :
  let out := CacheManager.cleanupOldEntries 30 2 Sample.three_entries in
  Z.of_nat (length (processed_cache out)) <= 2 /\
  Forall (fun r => 1700000000 - 30 * 86400 <= Cache.last_accessed r) (processed_cache out).
Proof.
  destruct (cleanupOldEntries_bounds 30 2 Sample.three_entries) as (H1 & H2 & _).
  - apply (bool_decide_unpack _). vm_compute. exact I.
  - lia.
  - split; [exact H1 | apply H2; lia].
Defined.

Section CacheRoundTrip.

Lemma on_disk_or_undefined files col :
  on_disk files (JS.or_undefined col) = on_disk files col.
Proof.
  unfold JS.or_undefined, on_disk. destruct (JS.truthy col) eqn:E; [now rewrite E|].
  reflexivity.
Qed.

Lemma or_undefined_on_disk files col :
  on_disk files col = true -> JS.or_undefined col = col.
Proof.
  unfold JS.or_undefined, on_disk. destruct (JS.truthy col); [reflexivity | discriminate].
Qed.

Lemma if_on_disk_or_undefined files col :
  (if on_disk files (JS.or_undefined col) then JS.or_undefined col else None)
  = (if on_disk files col then col else None).
Proof.
  rewrite on_disk_or_undefined. destruct (on_disk files col) eqn:E; [|reflexivity].
  now apply or_undefined_on_disk in E.
Qed.

Lemma select_row_other_rows cacheKey rows :
  CacheManager.select_row cacheKey (other_rows cacheKey rows) = None.
Proof.
  unfold CacheManager.select_row, other_rows. apply find_filter_none.
  intros r E%String.eqb_eq. tauto.
Qed.

Lemma select_row_added cacheKey rows row :
  Cache.cache_key row = cacheKey ->
  CacheManager.select_row cacheKey (other_rows cacheKey rows ++ [row]) = Some row.
Proof.
  intros Hk. unfold CacheManager.select_row. apply find_app_fresh.
  - apply Forall_forall. intros r [Hne _]%list_elem_of_filter. now apply String.eqb_neq.
  - now apply String.eqb_eq.
Qed.

End CacheRoundTrip.

(** X11: An entry that is added is found again: when the instrumental and the
    video that [addToCache] is given are on disk, a lookup under the same
    quality and under any variant of the title and of the artist (letter
    case and white space around, for the characters below U+0100 that
    the strings of the model hold) returns the entry, with those of the four
    files that are on disk and with the title, artist and quality as
    they were given. *)
Theorem addToCache_then_checkCache title artist quality files youtubeVideoId w
    title' artist' :
  variant title title' -> variant artist artist' ->
  on_disk (fs w) (ProcessedSong.instrumental files) = true ->
  on_disk (fs w) (ProcessedSong.video files) = true ->
  let added := CacheManager.addToCache title artist quality files youtubeVideoId w in
  added.2 = CacheManager.generateCacheKey title artist quality /\
  (CacheManager.checkCache title' artist' quality added.1).2
  = Some (ProcessedSong.mk added.2
            (ProcessedSong.mkFiles
               (if on_disk (fs w) (ProcessedSong.original files)
                then ProcessedSong.original files else None)
               (ProcessedSong.instrumental files)
               (if on_disk (fs w) (ProcessedSong.lyrics files)
                then ProcessedSong.lyrics files else None)
               (ProcessedSong.video files))
            (ProcessedSong.mkMetadata title artist (Some quality)
               (JS.or_undefined youtubeVideoId))).
Proof.
  intros Ht Ha Hi Hv added.
  assert (Hkey : added.2 = CacheManager.generateCacheKey title artist quality).
  { subst added. unfold CacheManager.addToCache.
    repeat destruct (CacheManager.add_size _ _). reflexivity. }
  split; [exact Hkey|]. rewrite Hkey.
  assert (Hk' : CacheManager.generateCacheKey title' artist' quality
                = CacheManager.generateCacheKey title artist quality).
  { unfold CacheManager.generateCacheKey, CacheManager.normalized.
    now rewrite (variant_folds _ _ Ht), (variant_folds _ _ Ha). }
  destruct (addToCache_rows title artist quality files youtubeVideoId w)
    as (totalSize & Hrows & _ & Hfs & _). fold added in Hrows, Hfs.
  match type of Hrows with _ = _ ++ [?r] => set (row := r) in * end.
  assert (Hsel : CacheManager.select_row
                   (CacheManager.generateCacheKey title' artist' quality)
                   (processed_cache added.1) = Some row).
  { rewrite Hk', Hrows. now apply select_row_added. }
  pose proof (checkCache_found title' artist' quality added.1 row Hsel) as [_ H].
  rewrite Hfs in H. unfold complete in H.
  cbn [row Cache.instrumental_path Cache.video_path Cache.original_audio_path
       Cache.lyrics_path Cache.title Cache.artist Cache.processing_quality
       Cache.youtube_video_id] in H.
  rewrite !if_on_disk_or_undefined in H.
  rewrite !on_disk_or_undefined, Hi, Hv in H. cbn [andb] in H.
  destruct H as (H & _). rewrite H, Hk'.
  now rewrite (or_undefined_on_disk _ _ Hi), (or_undefined_on_disk _ _ Hv).
Qed.

Lemma addToCache_then_checkCache_witness :
  let w := Sample.world [Sample.bohemian] [] Sample.finished_disk in
  let added := CacheManager.addToCache "Bohemian Rhapsody" "Queen" "high"
                 Sample.finished_files None w in
  (CacheManager.checkCache "  bohemian RHAPSODY" "QUEEN " "high" added.1).2
  = Some (ProcessedSong.mk added.2 Sample.finished_files
            (ProcessedSong.mkMetadata "Bohemian Rhapsody" "Queen" (Some "high") None)).
Proof.
  intros w added.
  destruct (addToCache_then_checkCache "Bohemian Rhapsody" "Queen" "high"
              Sample.finished_files None w "  bohemian RHAPSODY" "QUEEN ") as [_ H].
  - apply (variant_pad_recase "  " "bohemian RHAPSODY" ""); reflexivity.
  - apply (variant_pad_recase "" "QUEEN" " "); reflexivity.
  - reflexivity.
  - reflexivity.
  - exact H.
Defined.

(** X12: A lookup that fails keeps failing: whether there was no row or the
    row was purged, the next lookup finds no row, checks no file and
    writes nothing. *)
Theorem failed_lookup_is_stable title artist quality w :
  (CacheManager.checkCache title artist quality w).2 = None ->
  let w1 := (CacheManager.checkCache title artist quality w).1 in
  CacheManager.checkCache title artist quality w1
  = (emit (EvCacheSelect (CacheManager.generateCacheKey title artist quality)) w1, None).
Proof.
  intros Hnone w1. apply checkCache_absent. subst w1.
  destruct (CacheManager.select_row (CacheManager.generateCacheKey title artist quality)
              (processed_cache w)) as [row|] eqn:Hsel.
  - pose proof (checkCache_found title artist quality w row Hsel) as [_ H].
    destruct (complete (fs w) row).
    + destruct H as (H & _). rewrite H in Hnone. discriminate Hnone.
    + destruct H as (_ & H & _). rewrite H. apply select_row_other_rows.
  - now rewrite (checkCache_absent title artist quality w Hsel).
Qed.

Lemma failed_lookup_is_stable_witness :
  let w := Sample.world [Sample.bohemian] [Sample.cached_row] ∅ in
  let w1 := (CacheManager.checkCache "Bohemian Rhapsody" "Queen" "high" w).1 in
  processed_cache w1 = [] /\
  (CacheManager.checkCache "Bohemian Rhapsody" "Queen" "high" w1).2 = None.
Proof.
  intros w w1. split; [vm_compute; reflexivity|]. subst w1.
  rewrite (failed_lookup_is_stable "Bohemian Rhapsody" "Queen" "high" w); [reflexivity|].
  vm_compute. reflexivity.
Defined.

Section Deleting.

(** A step that deletes the regular files among its targets and nothing
    else, repeated. *)
Context {X : Type} (step : World -> X -> World) (targets : X -> list string).

Hypothesis Hstep : forall w x q,
  (q ∈ targets x -> is_file (fs w) q -> fs (step w x) !! q = None) /\
  (q ∉ targets x \/ ~ is_file (fs w) q -> fs (step w x) !! q = fs w !! q).

Lemma fold_deletes xs : forall w q,
  (q ∈ xs ≫= targets -> is_file (fs w) q -> fs (fold_left step xs w) !! q = None) /\
  (q ∉ xs ≫= targets \/ ~ is_file (fs w) q -> fs (fold_left step xs w) !! q = fs w !! q).
Proof.
  induction xs as [|x xs IH]; intros w q; cbn [fold_left].
  - split; [intros H; inversion H | reflexivity].
  - destruct (IH (step w x) q) as [IH1 IH2]. destruct (Hstep w x q) as [H1 H2].
    rewrite bind_cons, elem_of_app. split.
    + intros Hin Hf. destruct (decide (q ∈ targets x)) as [Hx|Hx].
      * rewrite IH2; [now apply H1|]. right. intros [size Hs].
        rewrite (H1 Hx Hf) in Hs. discriminate Hs.
      * destruct Hin as [Hin|Hin]; [contradiction|]. apply IH1; [exact Hin|].
        destruct Hf as [size Hf]. exists size. rewrite H2; [exact Hf | now left].
    + intros Hnot.
      assert (Hsame : fs (step w x) !! q = fs w !! q).
      { apply H2. destruct Hnot as [Hn|Hn]; [left; tauto | now right]. }
      rewrite IH2; [exact Hsame|].
      destruct Hnot as [Hn|Hn]; [left; tauto|]. right.
      intros [size Hs]. apply Hn. exists size. now rewrite <- Hsame.
Qed.

End Deleting.

Section CleanupFiles.

Lemma remove_file_fs w p q :
  fs (CacheManager.remove_file w p) !! q
  = if decide (q = p /\ is_file (fs w) p) then None else fs w !! q.
Proof.
  unfold CacheManager.remove_file, Fs.existsSync, Fs.unlinkSync. cbn [fs emit].
  destruct (decide (q = p /\ is_file (fs w) p)) as [[-> [size Hs]]|Hn].
  - rewrite Hs. cbn [fst fs with_fs emit]. apply lookup_delete_eq.
  - destruct (fs w !! p) as [[size|size entries]|] eqn:E; cbn [fst fs with_fs emit];
      [|reflexivity..].
    rewrite lookup_delete_ne; [reflexivity|]. intros ->. apply Hn. split; [reflexivity|].
    now exists size.
Qed.

Lemma remove_file_deletes w p q :
  (q ∈ [p] -> is_file (fs w) q -> fs (CacheManager.remove_file w p) !! q = None) /\
  (q ∉ [p] \/ ~ is_file (fs w) q -> fs (CacheManager.remove_file w p) !! q = fs w !! q).
Proof.
  rewrite remove_file_fs, list_elem_of_singleton. split.
  - intros -> Hf. destruct (decide _); [reflexivity | tauto].
  - intros Hn. destruct (decide _) as [[-> Hf]|]; [tauto | reflexivity].
Qed.

Lemma bind_singletons (ps : list string) : ps ≫= (fun p => [p]) = ps.
Proof. induction ps as [|p ps IH]; [reflexivity|]. now rewrite bind_cons, IH. Qed.

Lemma remove_entry_deletes w entry q :
  (q ∈ CacheManager.entry_files entry -> is_file (fs w) q ->
   fs (CacheManager.remove_entry w entry) !! q = None) /\
  (q ∉ CacheManager.entry_files entry \/ ~ is_file (fs w) q ->
   fs (CacheManager.remove_entry w entry) !! q = fs w !! q).
Proof.
  unfold CacheManager.remove_entry, CacheManager.removeFromCache. cbn [fs emit with_cache].
  pose proof (fold_deletes CacheManager.remove_file (fun p => [p]) remove_file_deletes
                (CacheManager.entry_files entry) w q) as H.
  now rewrite bind_singletons in H.
Qed.

End CleanupFiles.

(** X10: What a cleanup deletes: the regular files that the removed entries
    name, and nothing else; every other path of the file system is as
    before (a file that a kept entry shares with a removed one is
    deleted too). *)
Theorem cleanupOldEntries_files maxAgeDays maxEntries w q :
  let removed := CacheManager.entriesToRemove maxAgeDays maxEntries w in
  let out := CacheManager.cleanupOldEntries maxAgeDays maxEntries w in
  ((exists entry, entry ∈ removed /\ q ∈ CacheManager.entry_files entry) ->
   is_file (fs w) q -> fs out !! q = None) /\
  ((forall entry, entry ∈ removed -> q ∉ CacheManager.entry_files entry)
   \/ ~ is_file (fs w) q -> fs out !! q = fs w !! q).
Proof.
  intros removed out. subst out. unfold CacheManager.cleanupOldEntries. fold removed.
  destruct (fold_deletes CacheManager.remove_entry CacheManager.entry_files
              remove_entry_deletes removed w q) as [H1 H2].
  split.
  - intros (entry & He & Hq) Hf. apply H1; [|exact Hf].
    apply list_elem_of_bind. now exists entry.
  - intros [Hn|Hn]; apply H2; [left | now right].
    intros (entry & Hq & He)%list_elem_of_bind. now apply (Hn entry).
Qed.

Section Stats.

Lemma fold_min_le values : forall v,
  fold_left Z.min values v <= v /\ Forall (fun x => fold_left Z.min values v <= x) values.
Proof.
  induction values as [|x values IH]; intros v; cbn [fold_left]; [split; [lia|constructor]|].
  destruct (IH (Z.min v x)) as [H1 H2]. split; [lia|]. constructor; [lia | exact H2].
Qed.

Lemma fold_max_ge values : forall v,
  v <= fold_left Z.max values v /\ Forall (fun x => x <= fold_left Z.max values v) values.
Proof.
  induction values as [|x values IH]; intros v; cbn [fold_left]; [split; [lia|constructor]|].
  destruct (IH (Z.max v x)) as [H1 H2]. split; [lia|]. constructor; [lia | exact H2].
Qed.

Lemma fold_min_in values : forall v, fold_left Z.min values v ∈ v :: values.
Proof.
  induction values as [|x values IH]; intros v; cbn [fold_left]; [left|].
  specialize (IH (Z.min v x)). apply elem_of_cons in IH as [E|IH].
  - rewrite E. destruct (Z.min_spec v x) as [[_ ->]|[_ ->]]; [left | right; left].
  - right. now right.
Qed.

Lemma fold_max_in values : forall v, fold_left Z.max values v ∈ v :: values.
Proof.
  induction values as [|x values IH]; intros v; cbn [fold_left]; [left|].
  specialize (IH (Z.max v x)). apply elem_of_cons in IH as [E|IH].
  - rewrite E. destruct (Z.max_spec v x) as [[_ ->]|[_ ->]]; [right; left | left].
  - right. now right.
Qed.

Lemma Math_round_mebibytes total :
  let mb := JS.Math_round (inject_Z total / 1024 / 1024)%Q in
  1048576 * mb - 524288 <= total < 1048576 * mb + 524288.
Proof.
  unfold JS.Math_round, Qfloor, Qplus, Qdiv, Qmult, Qinv, inject_Z. cbn.
  change (Z.pos (1 * 1024 * 1024 * 2)) with 2097152.
  change (Z.pos (1 * 1024 * 1024)) with 1048576.
  pose proof (Z.div_mod (total * 1 * 1 * 2 + 1 * 1048576) 2097152 ltac:(lia)) as E.
  pose proof (Z.mod_pos_bound (total * 1 * 1 * 2 + 1 * 1048576) 2097152 ltac:(lia)) as B.
  lia.
Qed.

End Stats.

(** X13: The statistics of the cache: the count is the number of rows, the
    size in MiB is within half a MiB of the sum of the sizes, and the two
    dates are those of a row created first and of a row created last,
    each as [new Date] reads the stored text, in the zone of the host;
    over an empty table the counts are 0 and there are no dates. *)
Theorem getCacheStats_bounds localTime w :
  let stats := CacheManager.getCacheStats localTime w in
  let total := fold_left Z.add (Cache.file_size <$> processed_cache w) 0 in
  CacheManager.totalEntries stats = Z.of_nat (length (processed_cache w)) /\
  1048576 * CacheManager.totalSizeMB stats - 524288 <= total
    < 1048576 * CacheManager.totalSizeMB stats + 524288 /\
  (processed_cache w = [] -> stats = CacheManager.mkCacheStats 0 0 None None) /\
  (forall r, r ∈ processed_cache w ->
     exists first last,
       first ∈ processed_cache w /\ last ∈ processed_cache w /\
       CacheManager.oldestEntry stats = Some (localTime (Cache.created_at first)) /\
       CacheManager.newestEntry stats = Some (localTime (Cache.created_at last)) /\
       Cache.created_at first <= Cache.created_at r <= Cache.created_at last).
Proof.
  intros stats total. subst stats. unfold CacheManager.getCacheStats.
  cbn [CacheManager.totalEntries CacheManager.totalSizeMB CacheManager.oldestEntry
       CacheManager.newestEntry].
  split; [reflexivity|]. split; [apply Math_round_mebibytes|]. split.
  - intros ->. reflexivity.
  - intros r Hr. destruct (processed_cache w) as [|r0 rows] eqn:Hrows; [inversion Hr|].
    rewrite fmap_cons. cbn [CacheManager.aggregate fmap option_fmap option_map].
    destruct (fold_min_le (Cache.created_at <$> rows) (Cache.created_at r0)) as [L1 L2].
    destruct (fold_max_ge (Cache.created_at <$> rows) (Cache.created_at r0)) as [G1 G2].
    pose proof (fold_min_in (Cache.created_at <$> rows) (Cache.created_at r0)) as Imin.
    pose proof (fold_max_in (Cache.created_at <$> rows) (Cache.created_at r0)) as Imax.
    rewrite <- fmap_cons in Imin, Imax.
    apply list_elem_of_fmap in Imin as (first & Efirst & Hfirst).
    apply list_elem_of_fmap in Imax as (last & Elast & Hlast).
    exists first, last. rewrite <- Efirst, <- Elast.
    split; [exact Hfirst|]. split; [exact Hlast|].
    split; [reflexivity|]. split; [reflexivity|].
    apply elem_of_cons in Hr as [->|Hr]; [lia|].
    rewrite Forall_forall in L2, G2.
    assert (Hin : Cache.created_at r ∈ Cache.created_at <$> rows)
      by (apply list_elem_of_fmap; now exists r).
    specialize (L2 _ Hin). specialize (G2 _ Hin). lia.
Qed.

(* ================================================================== *)
(** ** How runs end *)
(* ================================================================== *)

Section Settles.

Context (o : Oracle).

(** When [p] returns, [P] holds of the state. *)
Lemma ends_bind {A B} (p : Proc A) (f : A -> Proc B) (P : World -> Prop) :
  (forall a s w, match (run o (f a) s w).2 with
                 | inr _ => P (run o (f a) s w).1.1
                 | inl _ => True
                 end) ->
  forall s w, match (run o (p ≫= f) s w).2 with
              | inr _ => P (run o (p ≫= f) s w).1.1
              | inl _ => True
              end.
Proof.
  intros Hf s w. rewrite run_mbind.
  destruct (run o p s w) as [[w' s'] [e|a]]; cbn [fst snd]; [exact I | apply Hf].
Qed.

Lemma fullPipeline_ends_ready songId songTitle artist options job s w :
  let out := run o (AutonomousProcessor.fullPipeline songId songTitle artist options job) s w in
  match out.2 with
  | inr _ => marked songId ready 100 out.1.1
  | inl _ => True
  end.
Proof.
  unfold AutonomousProcessor.fullPipeline. cbn zeta. revert s w.
  apply ends_bind. intros audioPath.
  apply ends_bind. intros [karaokeVideoPath youtubeVideoId].
  apply ends_bind. intros instrumental.
  apply ends_bind. intros [lyrics lyricsPath].
  apply ends_bind. intros finalVideoPath s w.
  destruct (finish_marks_ready o songId songTitle artist options audioPath instrumental
              lyricsPath finalVideoPath karaokeVideoPath youtubeVideoId s w)
    as (H1 & _ & H3).
  cbn zeta in H1, H3. rewrite H1. exact H3.
Qed.

(** The part of the [try] block that follows the lookup in the cache. *)
Lemma after_lookup_ends_ready songId songTitle artist options job cached s w :
  let rest := match cached, useCache options with
              | Some cached, Some true => AutonomousProcessor.useCached songId cached
              | _, _ => AutonomousProcessor.fullPipeline songId songTitle artist options job
              end in
  match (run o rest s w).2 with
  | inr _ => marked songId ready 100 (run o rest s w).1.1
  | inl _ => True
  end.
Proof.
  assert (Hcached : forall hit,
            match (run o (AutonomousProcessor.useCached songId hit) s w).2 with
            | inr _ => marked songId ready 100
                         (run o (AutonomousProcessor.useCached songId hit) s w).1.1
            | inl _ => True
            end).
  { intros hit. unfold AutonomousProcessor.useCached. rewrite run_mbind, !run_exec.
    cbn [fst snd]. apply updateSongStatus_marks. }
  destruct cached as [hit|]; [destruct (useCache options) as [[]|]|];
    first [apply Hcached | apply fullPipeline_ends_ready].
Qed.

Lemma pipeline_ends_ready songId options job s w :
  let out := run o (AutonomousProcessor.pipeline songId options job) s w in
  match out.2 with
  | inr _ => marked songId ready 100 out.1.1
  | inl _ => True
  end.
Proof.
  unfold AutonomousProcessor.pipeline. cbn zeta. revert s w.
  apply ends_bind. intros [song|]; [|intros; exact I].
  apply ends_bind. intros _. apply ends_bind. intros cached s w.
  apply after_lookup_ends_ready.
Qed.

Lemma processAudio_pipeline_ends_ready songId options s w :
  let out := run o (JobProcessor.pipeline songId options) s w in
  match out.2 with
  | inr _ => marked songId ready 100 out.1.1
  | inl _ => True
  end.
Proof.
  unfold JobProcessor.pipeline. cbn zeta. revert s w.
  apply ends_bind. intros _. apply ends_bind. intros [song|]; [|intros; exact I].
  apply ends_bind. intros _. apply ends_bind. intros audioPath.
  destruct (negb (JS.truthy audioPath)); [intros; exact I|].
  apply ends_bind. intros _. apply ends_bind. intros _. apply ends_bind. intros stems.
  apply ends_bind. intros _. apply ends_bind. intros _. apply ends_bind. intros lyrics.
  apply ends_bind. intros _ s w. rewrite run_exec. cbn [fst snd].
  apply updateSongStatus_marks.
Qed.

End Settles.

(** X14: A run of [processKaraokeSong] in which every awaited call settles
    never rejects: whether the collaborators resolve or reject, and
    whatever they report, it returns with its slot released and the
    song marked either ready with 100 or failed with 0. *)
Theorem processKaraokeSong_settles o songId options s w :
  let out := run o (AutonomousProcessor.processKaraokeSong songId options) s w in
  out.2 = inr tt /\
  autonomous_jobs out.1.1 !! songId = None /\
  (marked songId ready 100 out.1.1 \/ marked songId failed 0 out.1.1).
Proof.
  unfold AutonomousProcessor.processKaraokeSong. cbn zeta.
  rewrite run_mbind, run_exec, run_finally, run_try_catch.
  pose proof (pipeline_ends_ready o songId options
                (AutonomousProcessor.make_job songId options) s
                (with_autonomous_jobs
                   (insert songId (AutonomousProcessor.make_job songId options)) w)) as H.
  cbn zeta in H.
  destruct (run o (AutonomousProcessor.pipeline _ _ _) _ _) as [[w1 s1] [e|[]]];
    cbn [fst snd] in H; rewrite !run_exec; cbn [fst snd].
  - split; [reflexivity|]. split; [apply lookup_delete_eq|]. right.
    apply (updateSongStatus_marks songId failed 0 w1).
  - split; [reflexivity|]. split; [apply lookup_delete_eq|]. left. exact H.
Qed.

(** X15: A run of [processAudio] in which every awaited call settles never
    rejects either: whether the collaborators resolve or reject, it
    returns with its slot released and the song marked either ready
    with 100 or failed with 0. *)
Theorem processAudio_settles o songId options s w :
  let out := run o (JobProcessor.processAudio songId options) s w in
  out.2 = inr tt /\
  processor_jobs out.1.1 !! songId = None /\
  (marked songId ready 100 out.1.1 \/ marked songId failed 0 out.1.1).
Proof.
  unfold JobProcessor.processAudio. cbn zeta.
  rewrite run_mbind, run_exec, run_finally, run_try_catch.
  pose proof (processAudio_pipeline_ends_ready o songId options s
                (with_processor_jobs (insert songId (mkProcessingJob songId options)) w))
    as H.
  cbn zeta in H.
  destruct (run o (JobProcessor.pipeline _ _) _ _) as [[w1 s1] [e|[]]];
    cbn [fst snd] in H; rewrite !run_exec; cbn [fst snd].
  - split; [reflexivity|]. split; [apply lookup_delete_eq|]. right.
    apply (updateSongStatus_marks songId failed 0 w1).
  - split; [reflexivity|]. split; [apply lookup_delete_eq|]. left. exact H.
Qed.

(** X16: A run for a song that [getSong] does not find ends at once: no
    collaborator is called, the cache and the files are not looked at,
    and the only writes are the status updates, which end with failed
    and 0; [processAudio] writes processing with 0 before it looks for
    the song. *)
Theorem run_for_a_missing_song o songId s w :
  KaraokeDB.getSong songId w = None ->
  (forall options,
     let out := run o (AutonomousProcessor.processKaraokeSong songId options) s w in
     out.2 = inr tt /\ out.1.2 = s /\
     trace out.1.1 = trace w ++ [EvStatus songId failed (Some 0)] /\
     processed_cache out.1.1 = processed_cache w /\ fs out.1.1 = fs w) /\
  (forall options,
     let out := run o (JobProcessor.processAudio songId options) s w in
     out.2 = inr tt /\ out.1.2 = s /\
     trace out.1.1 = trace w ++ [EvStatus songId processing (Some 0);
                                 EvStatus songId failed (Some 0)] /\
     processed_cache out.1.1 = processed_cache w /\ fs out.1.1 = fs w).
Proof.
  intros Hsong. split; intros options.
  - unfold AutonomousProcessor.processKaraokeSong. cbn zeta.
    rewrite run_mbind, run_exec, run_finally, run_try_catch.
    unfold AutonomousProcessor.pipeline. rewrite run_mbind, run_read.
    change (KaraokeDB.getSong songId (with_autonomous_jobs _ w))
      with (KaraokeDB.getSong songId w).
    rewrite Hsong. cbn [run]. rewrite !run_exec. cbn [fst snd]. auto.
  - unfold JobProcessor.processAudio. cbn zeta.
    rewrite run_mbind, run_exec, run_finally, run_try_catch.
    unfold JobProcessor.pipeline. rewrite run_mbind, run_exec, run_mbind, run_read.
    assert (Hnone : KaraokeDB.getSong songId
                      (KaraokeDB.updateSongStatus songId processing (Some 0)
                         (with_processor_jobs
                            (insert songId (mkProcessingJob songId options)) w)) = None).
    { destruct (KaraokeDB.getSong songId (KaraokeDB.updateSongStatus _ _ _ _))
        as [song|] eqn:E; [|reflexivity].
      exfalso. revert E. unfold KaraokeDB.getSong. rewrite joined_updateSongStatus.
      change (KaraokeDB.joined (with_processor_jobs _ w)) with (KaraokeDB.joined w).
      unfold KaraokeDB.getSong in Hsong.
      induction (KaraokeDB.joined w) as [|[r u] l IH]; [discriminate|].
      cbn [map find fst snd] in *.
      replace (Song.id (if String.eqb (Song.id r) songId
                        then Song.set_progress 0 (Song.set_status processing r) else r))
        with (Song.id r) by (now destruct (String.eqb _ _)).
      destruct (String.eqb (Song.id r) songId); [discriminate Hsong | now apply IH]. }
    rewrite Hnone. cbn [run]. rewrite !run_exec. cbn [fst snd].
    cbn [trace emit KaraokeDB.updateSongStatus with_songs with_processor_jobs
         processed_cache fs].
    unfold KaraokeDB.updateSongStatus. cbn. rewrite <- app_assoc. auto.
Qed.

Lemma run_for_a_missing_song_witness :
  let out := run (Sample.oracle Sample.no_lyrics)
                 (AutonomousProcessor.processKaraokeSong "s9" Sample.options) (idle [])
                 (Sample.world [Sample.bohemian] [] ∅) in
  out.2 = inr tt /\ asked out.1.2 = [].
Proof.
  destruct (run_for_a_missing_song (Sample.oracle Sample.no_lyrics) "s9" (idle [])
              (Sample.world [Sample.bohemian] [] ∅) eq_refl) as [H _].
  destruct (H Sample.options) as (H1 & H2 & _). cbn zeta in *.
  split; [exact H1 | now rewrite H2].
Defined.

(* ================================================================== *)
(** ** What a run writes *)
(* ================================================================== *)

Section Within.

Context (o : Oracle) (songId : string).

Lemma within_ret {A} (a : A) : writes_within o songId (Ret a).
Proof. intros s w Hs. now split. Qed.

Lemma within_throw {A} e : writes_within o songId (@Throw A e).
Proof. intros s w Hs. now split. Qed.

Lemma within_bind {A B} (p : Proc A) (f : A -> Proc B) :
  writes_within o songId p -> (forall a, writes_within o songId (f a)) ->
  writes_within o songId (p ≫= f).
Proof.
  intros Hp Hf s w Hs. rewrite run_mbind.
  destruct (Hp s w Hs) as [E Hs'].
  destruct (run o p s w) as [[w' s'] [e|a]]; cbn [fst snd] in *; [now split|].
  destruct (Hf a s' w' Hs') as [E' Hs'']. split; [congruence | exact Hs''].
Qed.

Lemma within_try_catch {A} (p : Proc A) (h : Error -> Proc A) :
  writes_within o songId p -> (forall e, writes_within o songId (h e)) ->
  writes_within o songId (try_catch p h).
Proof.
  intros Hp Hh s w Hs. rewrite run_try_catch.
  destruct (Hp s w Hs) as [E Hs'].
  destruct (run o p s w) as [[w' s'] [e|a]]; cbn [fst snd] in *; [|now split].
  destruct (Hh e s' w' Hs') as [E' Hs'']. split; [congruence | exact Hs''].
Qed.

Lemma within_finally {A} (p : Proc A) (f : Proc unit) :
  writes_within o songId p -> writes_within o songId f ->
  writes_within o songId (finally p f).
Proof.
  intros Hp Hf s w Hs. rewrite run_finally.
  destruct (Hp s w Hs) as [E Hs'].
  destruct (run o p s w) as [[w' s'] r]; cbn [fst snd] in *.
  destruct (Hf s' w' Hs') as [E' Hs''].
  destruct (run o f s' w') as [[w'' s''] [e|[]]]; cbn [fst snd] in *;
    (split; [congruence | exact Hs'']).
Qed.

Lemma within_sync {X} (op : World -> World * X) :
  (forall w, tables_but songId (op w).1 = tables_but songId w) ->
  writes_within o songId (sync op).
Proof. intros Hop s w Hs. rewrite run_sync. cbn [fst snd]. now split. Qed.

Lemma within_attempt {X} (op : World -> World * (Error + X)) :
  (forall w, tables_but songId (op w).1 = tables_but songId w) ->
  writes_within o songId (attempt op).
Proof. intros Hop s w Hs. rewrite run_attempt. cbn [fst snd]. now split. Qed.

Lemma within_exec (f : World -> World) :
  confined songId f -> writes_within o songId (exec f).
Proof. intros Hf s w Hs. rewrite run_exec. cbn [fst snd]. now split. Qed.

Lemma within_read {X} (f : World -> X) : writes_within o songId (read f).
Proof. intros s w Hs. rewrite run_read. cbn [fst snd]. now split. Qed.

Lemma within_await_async {X} (body : Proc X) :
  writes_within o songId body -> writes_within o songId (await_async body).
Proof. intros Hb s w Hs. rewrite run_await_async. now apply Hb. Qed.

Lemma fold_confined (callbacks : list (World -> World)) : forall w,
  Forall (confined songId) callbacks ->
  tables_but songId (fold_left fire callbacks w) = tables_but songId w.
Proof.
  induction callbacks as [|f l IH]; intros w Hl; [reflexivity|].
  apply Forall_cons in Hl as [Hf Hl]. cbn [fold_left]. rewrite IH by exact Hl.
  apply Hf.
Qed.

Lemma fold_deliver cb (qs : list Q) : forall w,
  (forall q, confined songId (cb q)) ->
  tables_but songId (fold_left (deliver cb) qs w) = tables_but songId w.
Proof.
  induction qs as [|q l IH]; intros w Hcb; [reflexivity|].
  cbn [fold_left]. rewrite IH by exact Hcb. apply Hcb.
Qed.

Lemma fold_touch (ts : list (string * option FNode)) : forall w,
  tables_but songId (fold_left touch ts w) = tables_but songId w.
Proof.
  induction ts as [|t l IH]; intros w; [reflexivity|].
  cbn [fold_left]. rewrite IH. unfold touch. now destruct (snd t).
Qed.

Lemma within_await_progress c cb :
  (forall q, confined songId (cb q)) -> writes_within o songId (await_progress c cb).
Proof.
  intros Hcb s w Hs. rewrite run_await_progress. unfold after_await. cbn [fst snd].
  split.
  - change (tables_but songId (with_clock ?t ?w0)) with (tables_but songId w0).
    rewrite fold_touch, fold_deliver by exact Hcb.
    rewrite fold_confined by (apply Forall_take, Hs). reflexivity.
  - cbn [pending]. apply Forall_app. split; [apply Forall_drop, Hs|].
    destruct (lost_race _ _); [|constructor].
    apply Forall_forall. intros f Hf. apply list_elem_of_In, in_map_iff in Hf.
    destruct Hf as (q & <- & _). apply Hcb.
Qed.

Lemma within_await c : writes_within o songId (await c).
Proof. apply within_await_progress. intros q w. reflexivity. Qed.

End Within.

Section Confined.

Context (o : Oracle) (songId : string).

Lemma foreign_set_status st r :
  String.eqb (Song.id r) songId = true ->
  foreign songId (Song.set_status st r) = foreign songId r.
Proof. intros E. unfold foreign. cbn. now rewrite E. Qed.

Lemma foreign_set_progress p r :
  String.eqb (Song.id r) songId = true ->
  foreign songId (Song.set_progress p r) = foreign songId r.
Proof. intros E. unfold foreign. cbn. now rewrite E. Qed.

Lemma foreign_set_paths a b c d r :
  String.eqb (Song.id r) songId = true ->
  foreign songId (Song.set_paths a b c d r) = foreign songId r.
Proof. intros E. unfold foreign. cbn. now rewrite E. Qed.

Lemma updateSongStatus_confined st p :
  confined songId (KaraokeDB.updateSongStatus songId st p).
Proof.
  intros w. unfold tables_but, KaraokeDB.updateSongStatus. cbn [songs users emit with_songs].
  f_equal. rewrite <- list_fmap_compose. apply list_fmap_ext. intros _ r _. cbn.
  destruct (String.eqb (Song.id r) songId) eqn:E; [|reflexivity].
  destruct p; [rewrite foreign_set_progress by exact E|]; now apply foreign_set_status.
Qed.

Lemma updateSongPaths_confined a b c d :
  confined songId (KaraokeDB.updateSongPaths songId a b c d).
Proof.
  intros w. unfold tables_but, KaraokeDB.updateSongPaths.
  destruct (_ || _); [|reflexivity]. cbn [songs users emit with_songs].
  f_equal. rewrite <- list_fmap_compose. apply list_fmap_ext. intros _ r _. cbn.
  destruct (String.eqb (Song.id r) songId) eqn:E; [|reflexivity].
  now apply foreign_set_paths.
Qed.

Lemma existsSync_tables p w : tables_but songId (Fs.existsSync p w).1 = tables_but songId w.
Proof. reflexivity. Qed.

Lemma readdirSync_tables p w : tables_but songId (Fs.readdirSync p w).1 = tables_but songId w.
Proof. unfold Fs.readdirSync. destruct (fs w !! p) as [[]|]; reflexivity. Qed.

Lemma writeFileSync_tables p content w :
  tables_but songId (Fs.writeFileSync p content w).1 = tables_but songId w.
Proof. unfold Fs.writeFileSync. destruct (fs w !! p) as [[]|]; reflexivity. Qed.

Lemma unlinkSync_tables p w : tables_but songId (Fs.unlinkSync p w).1 = tables_but songId w.
Proof. unfold Fs.unlinkSync. destruct (fs w !! p) as [[]|]; reflexivity. Qed.

Lemma orchestration_tables w w' :
  orchestration w' = orchestration w -> tables_but songId w' = tables_but songId w.
Proof. unfold orchestration, tables_but. intros [= -> -> _ _]. reflexivity. Qed.

Lemma checkCache_tables title artist quality w :
  tables_but songId (CacheManager.checkCache title artist quality w).1 = tables_but songId w.
Proof. apply orchestration_tables, checkCache_frame. Qed.

Lemma add_size_tables filePath acc :
  tables_but songId (CacheManager.add_size filePath acc).1 = tables_but songId acc.1.
Proof.
  destruct acc as [w total]. unfold CacheManager.add_size.
  destruct (JS.truthy filePath); reflexivity.
Qed.

Lemma addToCache_tables title artist quality files youtubeVideoId w :
  tables_but songId (CacheManager.addToCache title artist quality files youtubeVideoId w).1
  = tables_but songId w.
Proof.
  unfold CacheManager.addToCache.
  assert (H : tables_but songId
                (CacheManager.add_size (ProcessedSong.video files)
                   (CacheManager.add_size (ProcessedSong.lyrics files)
                      (CacheManager.add_size (ProcessedSong.instrumental files)
                         (CacheManager.add_size (ProcessedSong.original files) (w, 0))))).1
              = tables_but songId w) by now rewrite !add_size_tables.
  destruct (CacheManager.add_size (ProcessedSong.video files) _) as [w1 totalSize].
  cbn [fst] in *. exact H.
Qed.

End Confined.

Section RunWithin.

Import AutonomousProcessor.

Context (o : Oracle) (songId : string).

Ltac within :=
  repeat first
    [ apply within_ret | apply within_throw | apply within_read
    | match goal with
      | |- writes_within _ _ (await ?c) => apply (within_await o songId c)
      | |- writes_within _ _ (await_progress ?c ?cb) =>
          apply (within_await_progress o songId c cb); intros ? ?;
          apply updateSongStatus_confined
      end
    | apply within_exec; first [apply updateSongStatus_confined | apply updateSongPaths_confined]
    | apply within_sync; intros ?;
      first [apply existsSync_tables | apply checkCache_tables | apply addToCache_tables]
    | apply within_attempt; intros ?;
      first [apply readdirSync_tables | apply writeFileSync_tables | apply unlinkSync_tables]
    | apply within_await_async
    | apply within_try_catch; [|intros ?]
    | apply within_bind; [|intros ?] ].

Lemma first_existing_within uploadDir names :
  writes_within o songId (first_existing uploadDir names).
Proof.
  induction names as [|filename names IH]; cbn [first_existing]; [within|].
  apply within_bind; [within|]. intros []; [within | exact IH].
Qed.

Lemma checkUploadsDirectory_within title artist :
  writes_within o songId (checkUploadsDirectory title artist).
Proof.
  unfold checkUploadsDirectory.
  apply within_bind; [within|]. intros uploadDir.
  apply within_bind; [within|]. intros present.
  destruct (negb present); [within|].
  apply within_bind; [apply first_existing_within|]. intros [filePath|]; [within|].
  apply within_bind; [within|]. intros entries.
  destruct (find _ _); within.
Qed.

Lemma acquireAudio_within songTitle artist job :
  writes_within o songId (acquireAudio songId songTitle artist job).
Proof.
  unfold acquireAudio.
  apply within_bind; [within|]. intros _.
  apply within_bind; [within|]. intros torrentResult.
  apply within_bind; [destruct torrentResult; within|]. intros audioPath.
  apply within_bind.
  - destruct (JS.truthy audioPath); [within|].
    apply within_await_async, checkUploadsDirectory_within.
  - intros audioPath'. destruct (JS.truthy audioPath'); within.
Qed.

Lemma fetchKaraokeVideo_within songTitle artist job :
  writes_within o songId (fetchKaraokeVideo songId songTitle artist job).
Proof.
  unfold fetchKaraokeVideo.
  apply within_bind; [within|]. intros _.
  apply within_try_catch; [|intros; within].
  apply within_bind; [within|]. intros [r|]; within.
Qed.

Lemma separate_within audioPath options :
  writes_within o songId (separate songId audioPath options).
Proof. unfold separate. within. Qed.

Lemma syncLyrics_within songTitle artist instrumental :
  writes_within o songId (syncLyrics songId songTitle artist instrumental).
Proof.
  unfold syncLyrics.
  apply within_bind; [within|]. intros _.
  apply within_bind; [within|]. intros lyrics.
  destruct (JS.truthy lyrics); within.
Qed.

Lemma compose_within instrumental karaokeVideoPath lyrics lyricsPath :
  writes_within o songId (compose songId instrumental karaokeVideoPath lyrics lyricsPath).
Proof.
  unfold compose.
  apply within_bind; [within|]. intros _.
  apply within_bind; [destruct (JS.truthy karaokeVideoPath); within|]. intros present.
  apply within_bind; [|intros; within].
  destruct present.
  - apply within_bind; [within|]. intros _.
    apply within_bind; [within|]. intros optimizedPath.
    destruct (negb _); within.
  - apply within_bind; [within|]. intros _.
    apply within_bind; [|intros; within].
    destruct (_ && _); within.
Qed.

Lemma finish_within songTitle artist options audioPath instrumental lyricsPath
    finalVideoPath karaokeVideoPath youtubeVideoId :
  writes_within o songId
    (finish songId songTitle artist options audioPath instrumental lyricsPath
       finalVideoPath karaokeVideoPath youtubeVideoId).
Proof.
  unfold finish.
  apply within_bind; [within|]. intros _.
  apply within_bind; [within|]. intros _.
  destruct (_ && _); within.
Qed.

(** The part of the [try] block that follows the lookup in the cache. *)
Lemma after_lookup_within songTitle artist options job cached :
  writes_within o songId
    (match cached, useCache options with
     | Some cached, Some true => useCached songId cached
     | _, _ => fullPipeline songId songTitle artist options job
     end).
Proof.
  assert (Hfull : writes_within o songId (fullPipeline songId songTitle artist options job)).
  { unfold fullPipeline.
    apply within_bind; [apply acquireAudio_within|]. intros audioPath.
    apply within_bind; [apply fetchKaraokeVideo_within|].
    intros [karaokeVideoPath youtubeVideoId].
    apply within_bind; [apply separate_within|]. intros instrumental.
    apply within_bind; [apply syncLyrics_within|]. intros [lyrics lyricsPath].
    apply within_bind; [apply compose_within|]. intros finalVideoPath.
    apply finish_within. }
  destruct cached as [hit|]; [destruct (useCache options) as [[]|]|]; try exact Hfull.
  unfold useCached. within.
Qed.

Lemma processKaraokeSong_within options :
  writes_within o songId (processKaraokeSong songId options).
Proof.
  unfold processKaraokeSong.
  apply within_bind; [apply within_exec; intros w; reflexivity|]. intros _.
  apply within_finally; [|apply within_exec; intros w; reflexivity].
  apply within_try_catch; [|intros; within].
  unfold pipeline.
  apply within_bind; [within|]. intros [song|]; [|within].
  apply within_bind; [within|]. intros _.
  apply within_bind; [within|]. intros cached.
  apply after_lookup_within.
Qed.

End RunWithin.

(* ================================================================== *)
(** ** Cancelling *)
(* ================================================================== *)

Section Cancelling.

Lemma updateSongStatus_keeps_progress id st p w :
  marked id processing p w ->
  marked id st p (KaraokeDB.updateSongStatus id st None w).
Proof.
  unfold marked, KaraokeDB.updateSongStatus. cbn [songs emit with_songs].
  rewrite !Forall_forall. intros H r Hr.
  apply list_elem_of_In, in_map_iff in Hr. destruct Hr as (r0 & <- & Hr0).
  apply list_elem_of_In in Hr0. specialize (H r0 Hr0).
  destruct (String.eqb (Song.id r0) id) eqn:E.
  - cbn. intros _. split; [reflexivity|]. apply H. now apply String.eqb_eq.
  - intros Hid. apply String.eqb_neq in E. contradiction.
Qed.

(** The synchronous part of a run for a song that is found. *)
Lemma processKaraokeSong_start songId options w song :
  KaraokeDB.getSong songId w = Some song ->
  let out := start (AutonomousProcessor.processKaraokeSong songId options) w in
  autonomous_jobs out.1 !! songId = Some (AutonomousProcessor.make_job songId options) /\
  songs out.1 = songs (KaraokeDB.updateSongStatus songId processing (Some 5) w) /\
  users out.1 = users w /\ suspended out.2 = true.
Proof.
  intros Hsong out. subst out.
  unfold AutonomousProcessor.processKaraokeSong, AutonomousProcessor.pipeline.
  cbn [mbind Proc_bind exec read sync await_async bind finally try_catch start].
  change (KaraokeDB.getSong songId (with_autonomous_jobs _ w))
    with (KaraokeDB.getSong songId w).
  rewrite Hsong.
  cbn [mbind Proc_bind exec read sync await_async bind finally try_catch start].
  match goal with
  | |- context [CacheManager.checkCache ?t ?a ?q ?w0] =>
      pose proof (checkCache_frame t a q w0) as Hf;
      destruct (CacheManager.checkCache t a q w0) as [w1 cached]
  end.
  cbn [fst snd] in Hf. unfold orchestration in Hf. cbn in Hf.
  injection Hf as Hu Hs Hj Hp.
  cbn [bind finally try_catch start fst snd suspended].
  rewrite Hj, Hs, Hu. split; [apply lookup_insert_eq | auto].
Qed.

(** The run of [processKaraokeSong] that was suspended on the lookup in
    the cache, when the song was found. *)
Lemma processKaraokeSong_suspended songId options w song :
  KaraokeDB.getSong songId w = Some song ->
  exists cached,
    (start (AutonomousProcessor.processKaraokeSong songId options) w).2
    = Yield (finally
        (try_catch
           (match cached, useCache options with
            | Some cached, Some true => AutonomousProcessor.useCached songId cached
            | _, _ => AutonomousProcessor.fullPipeline songId (QueuedSong.songTitle song)
                        (QueuedSong.artist song) options
                        (AutonomousProcessor.make_job songId options)
            end)
           (fun error => exec (KaraokeDB.updateSongStatus songId failed (Some 0))))
        (exec (with_autonomous_jobs (delete songId)))).
Proof.
  intros Hsong.
  unfold AutonomousProcessor.processKaraokeSong, AutonomousProcessor.pipeline.
  cbn [mbind Proc_bind exec read sync await_async bind finally try_catch start].
  change (KaraokeDB.getSong songId (with_autonomous_jobs _ w))
    with (KaraokeDB.getSong songId w).
  rewrite Hsong.
  cbn [mbind Proc_bind exec read sync await_async bind finally try_catch start].
  destruct (CacheManager.checkCache _ _ _ _) as [w1 cached].
  exists cached. reflexivity.
Qed.

End Cancelling.

(** X17: [cancelProcessing] edits the records and stops nothing.  When it is
    called while a run of the song is suspended on its first [await],
    the song reads as failed, with the progress 5 that the run had
    written, and as not processing; the run then goes on to its end and
    writes the song again: ready with 100, or failed with 0. *)
Theorem cancelProcessing_stops_nothing o songId options s w song :
  KaraokeDB.getSong songId w = Some song ->
  let st := start (AutonomousProcessor.processKaraokeSong songId options) w in
  let cancelled := AutonomousProcessor.cancelProcessing songId st.1 in
  let out := run o st.2 s cancelled in
  (isProcessing (AutonomousProcessor.getProcessingStatus songId st.1) = true /\
   isProcessing (AutonomousProcessor.getProcessingStatus songId cancelled) = false /\
   marked songId failed 5 cancelled) /\
  out.2 = inr tt /\
  (marked songId ready 100 out.1.1 \/ marked songId failed 0 out.1.1).
Proof.
  intros Hsong st cancelled out.
  destruct (processKaraokeSong_start songId options w song Hsong) as (Hjob & Hs & _ & _).
  fold st in Hjob, Hs. split; [split; [|split]|].
  - unfold AutonomousProcessor.getProcessingStatus. cbn [isProcessing].
    rewrite Hjob. apply bool_decide_eq_true. eauto.
  - unfold AutonomousProcessor.getProcessingStatus. cbn [isProcessing].
    apply bool_decide_eq_false. unfold cancelled, AutonomousProcessor.cancelProcessing.
    change (autonomous_jobs (KaraokeDB.updateSongStatus songId failed None ?w0))
      with (autonomous_jobs w0).
    cbn [autonomous_jobs with_autonomous_jobs]. rewrite lookup_delete_eq.
    intros [? [=]].
  - unfold cancelled, AutonomousProcessor.cancelProcessing.
    apply updateSongStatus_keeps_progress. unfold marked.
    change (songs (with_autonomous_jobs (delete songId) st.1)) with (songs st.1).
    rewrite Hs. apply updateSongStatus_marks.
  - destruct (processKaraokeSong_suspended songId options w song Hsong) as [cached Hjobs].
    subst out. fold st in Hjobs. rewrite Hjobs. cbn [run].
    rewrite run_finally, run_try_catch.
    pose proof (after_lookup_ends_ready o songId (QueuedSong.songTitle song)
                  (QueuedSong.artist song) options
                  (AutonomousProcessor.make_job songId options) cached s cancelled) as H.
    cbn zeta in H.
    destruct (run o _ s cancelled) as [[w1 s1] [e|[]]];
      cbn [fst snd] in H; rewrite !run_exec; cbn [fst snd].
    + split; [reflexivity|]. right. apply (updateSongStatus_marks songId failed 0 w1).
    + split; [reflexivity|]. left. exact H.
Qed.

Lemma cancelProcessing_stops_nothing_witness :
  let w := Sample.world [Sample.bohemian] [] ∅ in
  let st := start (AutonomousProcessor.processKaraokeSong "s1" Sample.options) w in
  let cancelled := AutonomousProcessor.cancelProcessing "s1" st.1 in
  let out := run (Sample.oracle Sample.no_lyrics) st.2 (idle []) cancelled in
  marked "s1" failed 5 cancelled /\
  (marked "s1" ready 100 out.1.1 \/ marked "s1" failed 0 out.1.1).
Proof.
  intros w.
  destruct (cancelProcessing_stops_nothing (Sample.oracle Sample.no_lyrics) "s1"
              Sample.options (idle []) w _ eq_refl)
    as ((_ & _ & H1) & _ & H2).
  split; [exact H1 | exact H2].
Defined.

Section OtherSongs.

Context (songId : string).

Lemma foreign_id r : Song.id (foreign songId r) = Song.id r.
Proof. unfold foreign. now destruct (String.eqb (Song.id r) songId). Qed.

Lemma foreign_user_id r : Song.user_id (foreign songId r) = Song.user_id r.
Proof. unfold foreign. now destruct (String.eqb (Song.id r) songId). Qed.

Lemma foreign_other r : Song.id r <> songId -> foreign songId r = r.
Proof. intros H. unfold foreign. apply String.eqb_neq in H. now rewrite H. Qed.

Lemma tables_but_ids w w' :
  tables_but songId w' = tables_but songId w -> Song.id <$> songs w' = Song.id <$> songs w.
Proof.
  unfold tables_but. intros [= Hs _].
  apply (f_equal (fmap Song.id)) in Hs. rewrite <- !list_fmap_compose in Hs.
  rewrite <- (list_fmap_ext (Song.id ∘ foreign songId) Song.id (songs w'))
    by (intros; apply foreign_id).
  rewrite <- (list_fmap_ext (Song.id ∘ foreign songId) Song.id (songs w))
    by (intros; apply foreign_id).
  exact Hs.
Qed.

(** The other songs read the same when the tables agree up to what a
    job of [songId] writes. *)
Lemma tables_but_getSong w w' id :
  tables_but songId w' = tables_but songId w -> id <> songId ->
  KaraokeDB.getSong id w' = KaraokeDB.getSong id w.
Proof.
  unfold tables_but, KaraokeDB.getSong, KaraokeDB.joined. intros [= Hs Hu] Hid.
  rewrite Hu. f_equal. clear Hu. revert Hs. generalize (songs w'). 
  induction (songs w) as [|r l IH]; intros [|r' l']; cbn [fmap list_fmap]; try discriminate;
    [reflexivity|].
  intros [= Hr Hl]. specialize (IH l' Hl). cbn [omap list_omap].
  destruct (decide (Song.id r = songId)) as [E|E].
  - assert (E' : Song.id r' = songId) by (rewrite <- (foreign_id r'), Hr, foreign_id; exact E).
    assert (Hu : Song.user_id r' = Song.user_id r)
      by (rewrite <- (foreign_user_id r'), Hr; apply foreign_user_id).
    rewrite Hu. destruct (find _ (users w)) as [u|]; [|exact IH].
    cbn [find fst]. rewrite E, E'.
    replace (String.eqb songId id) with false
      by (symmetry; apply String.eqb_neq; congruence).
    exact IH.
  - assert (E' : Song.id r' <> songId) by (rewrite <- (foreign_id r'), Hr, foreign_id; exact E).
    rewrite (foreign_other r E), (foreign_other r' E') in Hr. subst r'.
    destruct (find _ (users w)) as [u|]; [|exact IH].
    cbn [find fst]. now rewrite IH.
Qed.

Lemma getSong_fresh id w : id ∉ Song.id <$> songs w -> KaraokeDB.getSong id w = None.
Proof.
  intros Hfresh. unfold KaraokeDB.getSong.
  pose proof (joined_fresh id w Hfresh) as H.
  induction H as [|su l Hsu _ IH]; [reflexivity|]. cbn [find]. now rewrite Hsu.
Qed.

End OtherSongs.

Section Suspended.

Context (o : Oracle) (songId : string).

(** The end of a run that was suspended on the lookup in the cache. *)
Lemma suspended_run_ends songTitle artist options cached s w :
  let rest := match cached, useCache options with
              | Some cached, Some true => AutonomousProcessor.useCached songId cached
              | _, _ => AutonomousProcessor.fullPipeline songId songTitle artist options
                          (AutonomousProcessor.make_job songId options)
              end in
  let out := run o (Yield (finally
                 (try_catch rest
                    (fun error => exec (KaraokeDB.updateSongStatus songId failed (Some 0))))
                 (exec (with_autonomous_jobs (delete songId))))) s w in
  out.2 = inr tt /\ autonomous_jobs out.1.1 !! songId = None /\
  (marked songId ready 100 out.1.1 \/ marked songId failed 0 out.1.1) /\
  (Forall (confined songId) (pending s) ->
   tables_but songId out.1.1 = tables_but songId w).
Proof.
  intros rest out.
  assert (Hin : Forall (confined songId) (pending s) ->
                tables_but songId out.1.1 = tables_but songId w).
  { intros Hs. subst out. cbn [run].
    apply (within_finally o songId); [|apply within_exec; intros w0; reflexivity|exact Hs].
    apply within_try_catch; [apply after_lookup_within|].
    intros e. apply within_exec, updateSongStatus_confined. }
  subst out. cbn [run] in *. rewrite run_finally, run_try_catch in *.
  pose proof (after_lookup_ends_ready o songId songTitle artist options
                (AutonomousProcessor.make_job songId options) cached s w) as H.
  cbn zeta in H. fold rest in H.
  destruct (run o rest s w) as [[w1 s1] [e|[]]];
    cbn [fst snd] in H; rewrite !run_exec in *; cbn [fst snd] in *.
  - split; [reflexivity|]. split; [apply lookup_delete_eq|]. split; [|exact Hin].
    right. apply (updateSongStatus_marks songId failed 0 w1).
  - split; [reflexivity|]. split; [apply lookup_delete_eq|]. split; [|exact Hin].
    left. exact H.
Qed.

End Suspended.

(** X18: A run writes the status, the progress and the four paths of its own
    song and nothing else in the two tables: whatever the collaborators
    do, the users, the rows of the other songs and the other columns of
    its own row are the same after the run, so every other song reads as
    before. *)
Theorem run_writes_only_its_song o songId options s w :
  Forall (confined songId) (pending s) ->
  let out := (run o (AutonomousProcessor.processKaraokeSong songId options) s w).1.1 in
  users out = users w /\
  foreign songId <$> songs out = foreign songId <$> songs w /\
  (forall id, id <> songId -> KaraokeDB.getSong id out = KaraokeDB.getSong id w).
Proof.
  intros Hs out.
  destruct (processKaraokeSong_within o songId options s w Hs) as [E _].
  fold out in E. split; [|split].
  - now injection E.
  - now injection E.
  - intros id Hid. now apply (tables_but_getSong songId).
Qed.

Lemma run_writes_only_its_song_witness :
  let out := (run (Sample.oracle Sample.no_lyrics)
                (AutonomousProcessor.processKaraokeSong "a" Sample.options) (idle [])
                SampleQueue.on_stage).1.1 in
  KaraokeDB.getSong "b" out = KaraokeDB.getSong "b" SampleQueue.on_stage.
Proof.
  intros out.
  destruct (run_writes_only_its_song (Sample.oracle Sample.no_lyrics) "a" Sample.options
              (idle []) SampleQueue.on_stage) as (_ & _ & H).
  - constructor.
  - apply H. discriminate.
Defined.

(** X19: A song that is removed while its run is suspended: the route answers
    with success and the song is gone, but its job stays in the
    registry, so the song is reported as processing; the run goes on to
    its end, releases the job, and does not bring the song back. *)
Theorem DELETE_during_a_run o songId options s w song :
  KaraokeDB.getSong songId w = Some song -> JS.truthy (Some songId) = true ->
  Forall (confined songId) (pending s) ->
  let st := start (AutonomousProcessor.processKaraokeSong songId options) w in
  let deleted := QueueRoutes.DELETE (Some songId) st.1 in
  let out := run o st.2 s deleted.1 in
  deleted.2 = inr true /\
  AutonomousProcessor.getProcessingStatus songId deleted.1
  = mkProcessingStatus true None true /\
  out.2 = inr tt /\
  AutonomousProcessor.getProcessingStatus songId out.1.1
  = mkProcessingStatus false None false /\
  (forall id, id <> songId -> KaraokeDB.getSong id out.1.1 = KaraokeDB.getSong id w).
Proof.
  intros Hsong Hid Hs st deleted out.
  destruct (processKaraokeSong_start songId options w song Hsong) as (Hjob & Hsongs & Hu & _).
  destruct (processKaraokeSong_suspended songId options w song Hsong) as [cached Hst].
  fold st in Hjob, Hsongs, Hu, Hst.
  assert (Hdel : deleted = (KaraokeDB.removeSong songId st.1, inr true)).
  { unfold deleted, QueueRoutes.DELETE. now rewrite Hid. }
  assert (Hgone : KaraokeDB.getSong songId (KaraokeDB.removeSong songId st.1) = None)
    by apply getSong_fresh, removeSong_ids.
  destruct (suspended_run_ends o songId (QueuedSong.songTitle song) (QueuedSong.artist song)
              options cached s deleted.1) as (Hret & Hreleased & _ & Hin).
  cbn zeta in Hret, Hreleased, Hin. rewrite <- Hst in Hret, Hreleased, Hin.
  fold out in Hret, Hreleased, Hin. specialize (Hin Hs).
  rewrite Hdel in *. cbn [fst snd] in *.
  split; [reflexivity|]. split; [|split; [exact Hret|split]].
  - unfold AutonomousProcessor.getProcessingStatus. rewrite Hgone.
    change (autonomous_jobs (KaraokeDB.removeSong songId st.1)) with (autonomous_jobs st.1).
    rewrite Hjob. reflexivity.
  - unfold AutonomousProcessor.getProcessingStatus. rewrite Hreleased.
    rewrite (getSong_fresh songId out.1.1); [reflexivity|].
    rewrite (tables_but_ids songId _ _ Hin). apply removeSong_ids.
  - intros id Hne. rewrite (tables_but_getSong songId _ _ id Hin Hne).
    transitivity (KaraokeDB.getSong id st.1).
    + unfold KaraokeDB.getSong. rewrite joined_removeSong. f_equal.
      apply find_filter_out. intros [r u] E%String.eqb_eq. cbn [fst] in *. congruence.
    + apply (tables_but_getSong songId); [|exact Hne].
      unfold tables_but. rewrite Hsongs, Hu.
      apply (updateSongStatus_confined songId processing (Some 5) w).
Qed.

Lemma DELETE_during_a_run_witness :
  let w := Sample.world [Sample.bohemian] [] ∅ in
  let st := start (AutonomousProcessor.processKaraokeSong "s1" Sample.options) w in
  let deleted := QueueRoutes.DELETE (Some "s1") st.1 in
  let out := run (Sample.oracle Sample.no_lyrics) st.2 (idle []) deleted.1 in
  AutonomousProcessor.getProcessingStatus "s1" deleted.1 = mkProcessingStatus true None true /\
  AutonomousProcessor.getProcessingStatus "s1" out.1.1 = mkProcessingStatus false None false.
Proof.
  intros w.
  destruct (DELETE_during_a_run (Sample.oracle Sample.no_lyrics) "s1" Sample.options
              (idle []) w _ eq_refl eq_refl) as (_ & H1 & _ & H2 & _).
  - constructor.
  - split; [exact H1 | exact H2].
Defined.

(* ================================================================== *)
(** ** Searching: duplicates and ranking *)
(* ================================================================== *)

Section Unseen.

Context {A : Type} (key : A -> string).

Lemma filter_unseen_sublist xs : forall seen, sublist (Arrays.filter_unseen key seen xs) xs.
Proof.
  induction xs as [|x xs IH]; intros seen; cbn [Arrays.filter_unseen]; [constructor|].
  destruct (decide _); [apply sublist_cons | apply sublist_skip]; apply IH.
Qed.

Lemma filter_unseen_fresh xs : forall seen x,
  x ∈ Arrays.filter_unseen key seen xs -> key x ∉ seen.
Proof.
  induction xs as [|y xs IH]; intros seen x; cbn [Arrays.filter_unseen]; [inversion 1|].
  destruct (decide (key y ∈ seen)) as [Hy|Hy]; [apply IH|].
  intros [->|Hx]%elem_of_cons; [exact Hy|]. apply IH in Hx. set_solver.
Qed.

Lemma filter_unseen_NoDup xs : forall seen, NoDup (key <$> Arrays.filter_unseen key seen xs).
Proof.
  induction xs as [|y xs IH]; intros seen; cbn [Arrays.filter_unseen]; [constructor|].
  destruct (decide (key y ∈ seen)) as [Hy|Hy]; [apply IH|].
  rewrite fmap_cons. apply NoDup_cons. split; [|apply IH].
  intros (x & E & Hx)%list_elem_of_fmap. apply filter_unseen_fresh in Hx. set_solver.
Qed.

Lemma filter_unseen_covers xs : forall seen x,
  x ∈ xs -> key x ∈ seen \/ exists x', x' ∈ Arrays.filter_unseen key seen xs /\ key x' = key x.
Proof.
  induction xs as [|y xs IH]; intros seen x; cbn [Arrays.filter_unseen]; [inversion 1|].
  intros [->|Hx]%elem_of_cons.
  - destruct (decide (key y ∈ seen)) as [Hy|Hy]; [now left|].
    right. exists y. split; [left | reflexivity].
  - destruct (decide (key y ∈ seen)) as [Hy|Hy]; [now apply IH|].
    destruct (IH ({[key y]} ∪ seen) x Hx) as [Hin|(x' & Hx' & E)].
    + apply elem_of_union in Hin as [->%elem_of_singleton|Hin]; [|now left].
      right. exists y. split; [left | reflexivity].
    + right. exists x'. split; [now right | exact E].
Qed.

Lemma filter_unseen_first xs : forall seen x,
  x ∈ Arrays.filter_unseen key seen xs ->
  find (fun y => String.eqb (key y) (key x)) xs = Some x.
Proof.
  induction xs as [|y xs IH]; intros seen x; cbn [Arrays.filter_unseen find]; [inversion 1|].
  destruct (decide (key y ∈ seen)) as [Hy|Hy].
  - intros Hx. pose proof (filter_unseen_fresh _ _ _ Hx) as Hfresh.
    destruct (String.eqb_spec (key y) (key x)) as [E|E]; [congruence | now apply (IH seen)].
  - intros [->|Hx]%elem_of_cons; [now rewrite String.eqb_refl|].
    pose proof (filter_unseen_fresh _ _ _ Hx) as Hfresh.
    destruct (String.eqb_spec (key y) (key x)) as [E|E]; [|now apply (IH _ _ Hx)].
    exfalso. apply Hfresh. rewrite <- E. set_solver.
Qed.

End Unseen.

(** X20: [searchAll] returns no song twice: the keys (title and artist in
    lower case) of its results are distinct, every key of the two
    searches is still there, and from the results of a key the first is
    kept, Spotify's before MusicBrainz's, in the order of the searches. *)
Theorem searchAll_deduplicates spotifyResults musicBrainzResults :
  let all := spotifyResults ++ musicBrainzResults in
  let out := MusicSearch.searchAll (inr spotifyResults) (inr musicBrainzResults) in
  NoDup (MusicSearch.key <$> out) /\
  sublist out all /\
  (forall r, r ∈ all -> exists r', r' ∈ out /\ MusicSearch.key r' = MusicSearch.key r) /\
  (forall r, r ∈ out ->
     find (fun x => String.eqb (MusicSearch.key x) (MusicSearch.key r)) all = Some r).
Proof.
  intros all out. subst out. unfold MusicSearch.searchAll. fold all.
  split; [apply filter_unseen_NoDup|]. split; [apply filter_unseen_sublist|]. split.
  - intros r Hr. destruct (filter_unseen_covers MusicSearch.key all ∅ r Hr) as [Hin|H];
      [set_solver | exact H].
  - intros r Hr. now apply (filter_unseen_first MusicSearch.key all ∅).
Qed.

Section SortDesc.

Context {A : Type} (rank : A -> Q).

Lemma insert_desc_perm x sorted : Arrays.insert_desc rank x sorted ≡ₚ x :: sorted.
Proof.
  induction sorted as [|y sorted IH]; cbn [Arrays.insert_desc]; [reflexivity|].
  destruct (Qle_bool _ _); [reflexivity|]. rewrite IH. apply Permutation_swap.
Qed.

Lemma sort_desc_perm xs : Arrays.sort_desc rank xs ≡ₚ xs.
Proof.
  induction xs as [|x xs IH]; [reflexivity|].
  cbn [Arrays.sort_desc foldr]. rewrite insert_desc_perm. now rewrite <- IH at 2.
Qed.

Lemma insert_desc_sorted x sorted :
  StronglySorted (fun a b => (rank b <= rank a)%Q) sorted ->
  StronglySorted (fun a b => (rank b <= rank a)%Q) (Arrays.insert_desc rank x sorted).
Proof.
  induction 1 as [|y sorted Hs IH Hy]; cbn [Arrays.insert_desc]; [repeat constructor|].
  destruct (Qle_bool (rank y) (rank x)) eqn:E.
  - apply Qle_bool_iff in E. constructor; [now constructor|].
    constructor; [exact E|]. eapply Forall_impl; [exact Hy|]. intros z Hz. cbn beta in *.
    now apply Qle_trans with (rank y).
  - assert (Hlt : (rank x <= rank y)%Q).
    { apply Qlt_le_weak, Qnot_le_lt. intros H. apply Qle_bool_iff in H. congruence. }
    constructor; [exact IH|]. rewrite insert_desc_perm. now constructor.
Qed.

Lemma sort_desc_sorted xs :
  StronglySorted (fun a b => (rank b <= rank a)%Q) (Arrays.sort_desc rank xs).
Proof.
  induction xs as [|x xs IH]; [constructor|]. now apply insert_desc_sorted.
Qed.

(** The head of the sorted list: of the best rank, and the first of
    that rank in the list as it was. *)
Lemma sort_desc_head xs best rest :
  Arrays.sort_desc rank xs = best :: rest ->
  Forall (fun x => (rank x <= rank best)%Q) xs /\
  find (fun x => Qle_bool (rank best) (rank x)) xs = Some best.
Proof.
  revert best rest. induction xs as [|x xs IH]; intros best rest; [discriminate|].
  cbn [Arrays.sort_desc foldr]. fold (Arrays.sort_desc rank xs).
  destruct (Arrays.sort_desc rank xs) as [|h sorted] eqn:E; cbn [Arrays.insert_desc].
  - intros [= <- <-]. pose proof (sort_desc_perm xs) as P. rewrite E in P.
    apply Permutation_nil_l in P. subst xs. cbn [find].
    assert (R : Qle_bool (rank x) (rank x) = true) by (apply Qle_bool_iff, Qle_refl).
    rewrite R. split; [|reflexivity]. repeat constructor. apply Qle_refl.
  - destruct (IH h sorted eq_refl) as [Hmax Hfirst].
    destruct (Qle_bool (rank h) (rank x)) eqn:Hx; intros [= <- <-]; cbn [find].
    + apply Qle_bool_iff in Hx.
      assert (R : Qle_bool (rank x) (rank x) = true) by (apply Qle_bool_iff, Qle_refl).
      rewrite R. split; [|reflexivity]. constructor; [apply Qle_refl|].
      eapply Forall_impl; [exact Hmax|]. intros z Hz. cbn beta in *.
      now apply Qle_trans with (rank h).
    + rewrite Hx. split; [|exact Hfirst]. constructor; [|exact Hmax].
      apply Qlt_le_weak, Qnot_le_lt. intros H. apply Qle_bool_iff in H. congruence.
Qed.

End SortDesc.

Lemma StronglySorted_take {A} (R : A -> A -> Prop) (l : list A) : forall n,
  StronglySorted R l -> StronglySorted R (take n l).
Proof.
  induction l as [|x l IH]; intros [|n] H; cbn [take]; try constructor.
  - apply IH. now apply StronglySorted_inv in H.
  - apply Forall_take. now apply StronglySorted_inv in H.
Qed.

(** X21: The ranking of the karaoke videos: no more than [limit] results, no
    video twice, the most relevant first, and every result one of those
    that were found. *)
Theorem rank_orders_the_videos limit allResults :
  0 <= limit ->
  let out := YouTubeClient.rank limit allResults in
  Z.of_nat (length out) <= limit /\
  NoDup ((fun r => YouTubeClient.id (YouTubeClient.video r)) <$> out) /\
  StronglySorted (fun a b => (YouTubeClient.relevanceScore b
                              <= YouTubeClient.relevanceScore a)%Q) out /\
  Forall (fun r => r ∈ allResults) out.
Proof.
  intros Hlimit out. subst out. unfold YouTubeClient.rank, Arrays.slice_to.
  replace (limit <? 0) with false by (symmetry; apply Z.ltb_ge; lia).
  set (unique := YouTubeClient.removeDuplicates allResults).
  set (sorted := Arrays.sort_desc YouTubeClient.relevanceScore unique).
  assert (Hsub : sublist (take (Z.to_nat limit) sorted) sorted) by apply sublist_take.
  split; [rewrite length_take; lia|]. split; [|split].
  - eapply sublist_NoDup; [|apply fmap_sublist, Hsub].
    unfold sorted. rewrite sort_desc_perm. apply filter_unseen_NoDup.
  - apply StronglySorted_take, sort_desc_sorted.
  - apply Forall_forall. intros r Hr.
    apply (elem_of_sublist _ _ _ Hr) in Hsub.
    unfold sorted in Hsub. rewrite sort_desc_perm in Hsub.
    eapply elem_of_sublist; [exact Hsub|]. apply filter_unseen_sublist.
Qed.

Lemma rank_orders_the_videos_witness :
  let v id := YouTubeClient.mkVideo id "Africa (Karaoke)" 295 "" "" "KaraFun" in
  let found := [ YouTubeClient.mkResult (v "a") (3 # 10) false false;
                 YouTubeClient.mkResult (v "b") (9 # 10) false true;
                 YouTubeClient.mkResult (v "a") (7 # 10) true false;
                 YouTubeClient.mkResult (v "c") (5 # 10) true false ] in
  let out := YouTubeClient.rank 2 found in
  Z.of_nat (length out) <= 2 /\
  NoDup ((fun r => YouTubeClient.id (YouTubeClient.video r)) <$> out) /\
  StronglySorted (fun a b => (YouTubeClient.relevanceScore b
                              <= YouTubeClient.relevanceScore a)%Q) out /\
  Forall (fun r => r ∈ found) out.
Proof.
  intros v found. apply (rank_orders_the_videos 2 found). lia.
Defined.

Section BestMatch.

Context (search : nat -> string -> list TorrentResult) (title artist : string)
        (minSeeders : Z).

Lemma goodResults_none results :
  TorrentClient.goodResults title artist minSeeders results = [] ->
  forall r, r ∈ results -> TorrentClient.good title artist minSeeders r = false.
Proof.
  unfold TorrentClient.goodResults. intros E r Hr.
  pose proof (sort_desc_perm (fun r => inject_Z (seeders r))
                (List.filter (TorrentClient.good title artist minSeeders) results)) as P.
  rewrite E in P. apply Permutation_nil_l in P.
  destruct (TorrentClient.good title artist minSeeders r) eqn:G; [|reflexivity].
  exfalso. assert (Hin : In r (List.filter (TorrentClient.good title artist minSeeders) results)).
  { apply filter_In. split; [now apply list_elem_of_In | exact G]. }
  first [rewrite P in Hin | rewrite <- P in Hin]. exact Hin.
Qed.

Lemma goodResults_best results best rest :
  TorrentClient.goodResults title artist minSeeders results = best :: rest ->
  best ∈ results /\ TorrentClient.good title artist minSeeders best = true /\
  forall r, r ∈ results -> TorrentClient.good title artist minSeeders r = true ->
            seeders r <= seeders best.
Proof.
  unfold TorrentClient.goodResults. intros E.
  pose proof (sort_desc_perm (fun r => inject_Z (seeders r))
                (List.filter (TorrentClient.good title artist minSeeders) results)) as P.
  destruct (sort_desc_head _ _ _ _ E) as [Hmax _].
  assert (Hin : In best (List.filter (TorrentClient.good title artist minSeeders) results)).
  { apply list_elem_of_In. rewrite <- P, E. left. }
  apply filter_In in Hin as [Hin G].
  split; [now apply list_elem_of_In|]. split; [exact G|].
  intros r Hr Gr. rewrite Forall_forall in Hmax.
  assert (Hq : (inject_Z (seeders r) <= inject_Z (seeders best))%Q).
  { apply Hmax, list_elem_of_In, filter_In. split; [now apply list_elem_of_In | exact Gr]. }
  now rewrite <- Zle_Qle in Hq.
Qed.

Lemma first_good_picks qs : forall n0,
  match TorrentClient.first_good search title artist minSeeders n0 qs with
  | Some best =>
      exists k query,
        qs !! k = Some query /\ best ∈ search (n0 + k)%nat query /\
        TorrentClient.good title artist minSeeders best = true /\
        (forall r, r ∈ search (n0 + k)%nat query ->
                   TorrentClient.good title artist minSeeders r = true ->
                   seeders r <= seeders best) /\
        (forall j query', (j < k)%nat -> qs !! j = Some query' ->
           forall r, r ∈ search (n0 + j)%nat query' ->
                     TorrentClient.good title artist minSeeders r = false)
  | None =>
      forall k query, qs !! k = Some query ->
        forall r, r ∈ search (n0 + k)%nat query ->
                  TorrentClient.good title artist minSeeders r = false
  end.
Proof.
  induction qs as [|q qs IH]; intros n0; cbn [TorrentClient.first_good].
  - intros k query H. discriminate H.
  - destruct (TorrentClient.goodResults title artist minSeeders (search n0 q))
      as [|best rest] eqn:E.
    + pose proof (goodResults_none _ E) as Hnone. specialize (IH (S n0)).
      destruct (TorrentClient.first_good search title artist minSeeders (S n0) qs) as [best|].
      * destruct IH as (k & query & Hk & Hin & G & Hmax & Hbefore).
        exists (S k), query. replace (n0 + S k)%nat with (S n0 + k)%nat by lia.
        split; [exact Hk|]. split; [exact Hin|]. split; [exact G|]. split; [exact Hmax|].
        intros [|j] query' Hj Hq r Hr.
        -- injection Hq as <-. rewrite Nat.add_0_r in Hr. now apply Hnone.
        -- replace (n0 + S j)%nat with (S n0 + j)%nat in Hr by lia.
           apply (Hbefore j query'); [lia | exact Hq | exact Hr].
      * intros [|k] query Hq r Hr.
        -- injection Hq as <-. rewrite Nat.add_0_r in Hr. now apply Hnone.
        -- replace (n0 + S k)%nat with (S n0 + k)%nat in Hr by lia.
           now apply (IH k query).
    + destruct (goodResults_best _ _ _ E) as (Hin & G & Hmax).
      exists 0%nat, q. rewrite Nat.add_0_r.
      split; [reflexivity|]. split; [exact Hin|]. split; [exact G|]. split; [exact Hmax|].
      intros j query' Hj. lia.
Qed.

End BestMatch.

(** X22: What [findBestMatch] returns: a result of the first of its four
    queries that has an acceptable result (at least [minSeeders] seeders
    and a title that contains the artist and the song, whatever the
    case), and among those of that query one with the most seeders; it
    returns nothing only when no query has an acceptable result. *)
Theorem findBestMatch_picks search title artist minSeeders :
  match TorrentClient.findBestMatch search title artist minSeeders with
  | Some best =>
      exists n query,
        TorrentClient.queries title artist !! n = Some query /\
        best ∈ search n query /\
        minSeeders <= seeders best /\
        JS.includes (JS.toLowerCase (torrent_title best)) (JS.toLowerCase artist) = true /\
        JS.includes (JS.toLowerCase (torrent_title best)) (JS.toLowerCase title) = true /\
        (forall r, r ∈ search n query ->
                   TorrentClient.good title artist minSeeders r = true ->
                   seeders r <= seeders best) /\
        (forall m query', (m < n)%nat ->
           TorrentClient.queries title artist !! m = Some query' ->
           forall r, r ∈ search m query' ->
                     TorrentClient.good title artist minSeeders r = false)
  | None =>
      forall n query, TorrentClient.queries title artist !! n = Some query ->
        forall r, r ∈ search n query ->
                  TorrentClient.good title artist minSeeders r = false
  end.
Proof.
  unfold TorrentClient.findBestMatch.
  pose proof (first_good_picks search title artist minSeeders
                (TorrentClient.queries title artist) 0%nat) as H.
  destruct (TorrentClient.first_good _ _ _ _ _ _) as [best|]; [|exact H].
  destruct H as (n & query & Hq & Hin & G & Hmax & Hbefore).
  exists n, query. cbn [Nat.add] in *.
  unfold TorrentClient.good in G. apply andb_prop in G as [G1 G2].
  apply andb_prop in G2 as [G2 G3]. apply Z.leb_le in G1.
  repeat split; assumption.
Qed.

(* ================================================================== *)
(** ** Time stamps *)
(* ================================================================== *)

Section TimeStamps.

Lemma formatTime_fields ms :
  0 <= ms ->
  ms / 1000 / 3600 = ms / 3600000 /\
  Z.rem (ms / 1000) 3600 / 60 = Z.rem ms 3600000 / 60000 /\
  Z.rem (ms / 1000) 60 = Z.rem ms 60000 / 1000.
Proof.
  intros H.
  assert (0 <= ms / 1000) by (apply Z.div_pos; lia).
  rewrite !Z.rem_mod_nonneg by lia.
  repeat split; Z.to_euclidean_division_equations; lia.
Qed.

End TimeStamps.

(** X23: The two writers of SRT times agree on times that are not negative:
    [VideoGenerator.formatTime], which goes through the whole seconds,
    gives the text of [LyricsProcessor.formatSRTTime], and the subtitle
    file of [generateSubtitleFile] is the text of [convertToSRT]. *)
Theorem srt_writers_agree lyrics :
  Forall (fun line => 0 <= startTime line /\ 0 <= endTime line) lyrics ->
  (forall ms, 0 <= ms -> VideoGenerator.formatTime ms = LyricsProcessor.formatSRTTime ms) /\
  VideoGenerator.srtContent lyrics = LyricsProcessor.convertToSRT lyrics.
Proof.
  intros Htimes.
  assert (Hfmt : forall ms, 0 <= ms ->
                   VideoGenerator.formatTime ms = LyricsProcessor.formatSRTTime ms).
  { intros ms Hms. unfold VideoGenerator.formatTime, LyricsProcessor.formatSRTTime.
    destruct (formatTime_fields ms Hms) as (-> & -> & ->). reflexivity. }
  split; [exact Hfmt|].
  unfold VideoGenerator.srtContent, LyricsProcessor.convertToSRT, LyricsProcessor.srt.
  f_equal. apply imap_ext. intros i line Hline.
  rewrite Forall_forall in Htimes.
  destruct (Htimes line (list_elem_of_lookup_2 _ _ _ Hline)) as [Hs He].
  unfold LyricsProcessor.srt_entry. now rewrite !Hfmt.
Qed.

Lemma srt_writers_agree_witness :
  let lyrics := [ mkLyricLine 0 2500 "Is this the real life?";
                  mkLyricLine 2500 3723004 "Is this just fantasy?" ] in
  VideoGenerator.formatTime 3723004 = LyricsProcessor.formatSRTTime 3723004 /\
  VideoGenerator.srtContent lyrics = LyricsProcessor.convertToSRT lyrics.
Proof.
  intros lyrics.
  destruct (srt_writers_agree lyrics) as [Hfmt Hfile].
  - repeat constructor; cbn; lia.
  - split; [apply Hfmt; lia | exact Hfile].
Defined.

Section Fields.

Import LyricsProcessor.

(** A field of two digits, padded: two characters that read back as the
    number. *)
Lemma padStart2_field x :
  0 <= x < 100 ->
  exists c1 c2,
    padStart2 (toString x) = String c1 (String c2 "") /\
    option_map Z.of_int (NilZero.int_of_string (String c1 (String c2 ""))) = Some x.
Proof.
  intros Hx.
  assert (Hall : forallb
            (fun n => match padStart2 (toString (Z.of_nat n)) with
                      | String c1 (String c2 "") =>
                          bool_decide (option_map Z.of_int
                                         (NilZero.int_of_string (String c1 (String c2 "")))
                                       = Some (Z.of_nat n))
                      | _ => false
                      end) (seq 0 100) = true) by (vm_compute; reflexivity).
  rewrite forallb_forall in Hall. specialize (Hall (Z.to_nat x)).
  rewrite Z2Nat.id in Hall by lia.
  assert (Hin : In (Z.to_nat x) (seq 0 100)) by (apply in_seq; lia).
  specialize (Hall Hin).
  destruct (padStart2 (toString x)) as [|c1 [|c2 [|]]]; try discriminate Hall.
  exists c1, c2. split; [reflexivity|]. now apply bool_decide_eq_true in Hall.
Qed.

Lemma padStart3_field x :
  0 <= x < 1000 ->
  exists c1 c2 c3,
    padStart3 (toString x) = String c1 (String c2 (String c3 "")) /\
    option_map Z.of_int (NilZero.int_of_string (String c1 (String c2 (String c3 ""))))
    = Some x.
Proof.
  intros Hx.
  assert (Hall : forallb
            (fun n => match padStart3 (toString (Z.of_nat n)) with
                      | String c1 (String c2 (String c3 "")) =>
                          bool_decide (option_map Z.of_int
                                         (NilZero.int_of_string
                                            (String c1 (String c2 (String c3 ""))))
                                       = Some (Z.of_nat n))
                      | _ => false
                      end) (seq 0 1000) = true) by (vm_compute; reflexivity).
  rewrite forallb_forall in Hall. specialize (Hall (Z.to_nat x)).
  rewrite Z2Nat.id in Hall by lia.
  assert (Hin : In (Z.to_nat x) (seq 0 1000)) by (apply in_seq; lia).
  specialize (Hall Hin).
  destruct (padStart3 (toString x)) as [|c1 [|c2 [|c3 [|]]]]; try discriminate Hall.
  exists c1, c2, c3. split; [reflexivity|]. now apply bool_decide_eq_true in Hall.
Qed.

Lemma srt_fields ms :
  0 <= ms < 360000000 ->
  0 <= ms / 3600000 < 100 /\ 0 <= Z.rem ms 3600000 / 60000 < 100 /\
  0 <= Z.rem ms 60000 / 1000 < 100 /\ 0 <= Z.rem ms 1000 < 1000 /\
  ms = 3600000 * (ms / 3600000) + 60000 * (Z.rem ms 3600000 / 60000)
       + 1000 * (Z.rem ms 60000 / 1000) + Z.rem ms 1000.
Proof.
  intros H. rewrite !Z.rem_mod_nonneg by lia.
  repeat split; Z.to_euclidean_division_equations; lia.
Qed.

Lemma lrc_fields t :
  0 <= t < 6000000 ->
  0 <= t / 60000 < 100 /\ 0 <= Z.rem t 60000 / 1000 < 100 /\
  0 <= Z.rem t 1000 / 10 < 100 /\
  t / 10 = 6000 * (t / 60000) + 100 * (Z.rem t 60000 / 1000) + Z.rem t 1000 / 10.
Proof.
  intros H. rewrite !Z.rem_mod_nonneg by lia.
  repeat split; Z.to_euclidean_division_equations; lia.
Qed.

End Fields.

(** X24: Below a hundred hours [formatSRTTime] loses nothing: two times with
    the same text are the same time. *)
Theorem formatSRTTime_injective a b :
  0 <= a < 360000000 -> 0 <= b < 360000000 ->
  LyricsProcessor.formatSRTTime a = LyricsProcessor.formatSRTTime b -> a = b.
Proof.
  intros Ha Hb. unfold LyricsProcessor.formatSRTTime.
  destruct (srt_fields a Ha) as (Ah & Am & As & Ar & Ea).
  destruct (srt_fields b Hb) as (Bh & Bm & Bs & Br & Eb).
  destruct (padStart2_field _ Ah) as (a1 & a2 & -> & Dah).
  destruct (padStart2_field _ Am) as (a3 & a4 & -> & Dam).
  destruct (padStart2_field _ As) as (a5 & a6 & -> & Das).
  destruct (padStart3_field _ Ar) as (a7 & a8 & a9 & -> & Dar).
  destruct (padStart2_field _ Bh) as (b1 & b2 & -> & Dbh).
  destruct (padStart2_field _ Bm) as (b3 & b4 & -> & Dbm).
  destruct (padStart2_field _ Bs) as (b5 & b6 & -> & Dbs).
  destruct (padStart3_field _ Br) as (b7 & b8 & b9 & -> & Dbr).
  cbn [String.append]. intros [= -> -> -> -> -> -> -> -> ->].
  rewrite Dah in Dbh. rewrite Dam in Dbm. rewrite Das in Dbs. rewrite Dar in Dbr.
  injection Dbh as Hh. injection Dbm as Hm. injection Dbs as Hs. injection Dbr as Hr.
  lia.
Qed.

Lemma formatSRTTime_injective_witness :
  LyricsProcessor.formatSRTTime (3723000 + 4) = "01:02:03,004" /\ 3723000 + 4 = 3723004.
Proof.
  split; [reflexivity|].
  apply (formatSRTTime_injective (3723000 + 4) 3723004); [lia | lia | reflexivity].
Defined.

(** X25: An LRC line keeps the hundredths of a second and no more: below a
    hundred minutes, two lines are the same text exactly when their
    times agree down to the centisecond and their words are the same. *)
Theorem lrc_line_keeps_centiseconds line line' :
  0 <= startTime line < 6000000 -> 0 <= startTime line' < 6000000 ->
  LyricsProcessor.lrc_line line = LyricsProcessor.lrc_line line' <->
  startTime line / 10 = startTime line' / 10 /\ text line = text line'.
Proof.
  intros Ha Hb. unfold LyricsProcessor.lrc_line.
  destruct (lrc_fields _ Ha) as (Am & As & Ac & Ea).
  destruct (lrc_fields _ Hb) as (Bm & Bs & Bc & Eb).
  split.
  - destruct (padStart2_field _ Am) as (a1 & a2 & -> & Dam).
    destruct (padStart2_field _ As) as (a3 & a4 & -> & Das).
    destruct (padStart2_field _ Ac) as (a5 & a6 & -> & Dac).
    destruct (padStart2_field _ Bm) as (b1 & b2 & -> & Dbm).
    destruct (padStart2_field _ Bs) as (b3 & b4 & -> & Dbs).
    destruct (padStart2_field _ Bc) as (b5 & b6 & -> & Dbc).
    cbn [String.append]. intros [= -> -> -> -> -> -> Htext].
    rewrite Dam in Dbm. rewrite Das in Dbs. rewrite Dac in Dbc.
    injection Dbm as Hm. injection Dbs as Hs. injection Dbc as Hc.
    split; [lia | exact Htext].
  - intros [Ht Htext].
    assert (Hm : startTime line / 60000 = startTime line' / 60000).
    { rewrite !Z.rem_mod_nonneg in * by lia. Z.to_euclidean_division_equations. lia. }
    assert (Hs : Z.rem (startTime line) 60000 / 1000 = Z.rem (startTime line') 60000 / 1000).
    { rewrite !Z.rem_mod_nonneg in * by lia. Z.to_euclidean_division_equations. lia. }
    assert (Hc : Z.rem (startTime line) 1000 / 10 = Z.rem (startTime line') 1000 / 10).
    { rewrite !Z.rem_mod_nonneg in * by lia. Z.to_euclidean_division_equations. lia. }
    now rewrite Hm, Hs, Hc, Htext.
Qed.

Lemma lrc_line_keeps_centiseconds_witness :
  LyricsProcessor.lrc_line (mkLyricLine 83456 85000 "Mama")
  = LyricsProcessor.lrc_line (mkLyricLine 83451 90000 "Mama").
Proof.
  apply (lrc_line_keeps_centiseconds (mkLyricLine 83456 85000 "Mama")
           (mkLyricLine 83451 90000 "Mama")); cbn; [lia | lia | split; reflexivity].
Defined.

(* ================================================================== *)
(** ** The routes *)
(* ================================================================== *)

Section QueueView.

Lemma filter_playing_split (l : list QueuedSong.t) :
  (length l
   = length (List.filter (fun song => negb (bool_decide (QueuedSong.status song = playing))) l)
     + length (filter (fun song => QueuedSong.status song = playing) l))%nat.
Proof.
  induction l as [|x l IH]; [reflexivity|].
  cbn [List.filter]. rewrite filter_cons.
  destruct (decide (QueuedSong.status x = playing)) as [E|E].
  - rewrite (bool_decide_eq_true_2 _ E). cbn [negb length]. lia.
  - rewrite (bool_decide_eq_false_2 _ E). cbn [negb length]. lia.
Qed.

(** The playing songs of the queue are the playing rows that have their
    user. *)
Lemma playing_in_queue w :
  length (filter (fun song => QueuedSong.status song = playing) (KaraokeDB.getQueue w))
  = length (filter (fun su : Song.row * User.t => Song.status su.1 = playing)
                   (KaraokeDB.joined w)).
Proof.
  rewrite getQueue_perm.
  induction (KaraokeDB.joined w) as [|[s u] l IH]; [reflexivity|].
  rewrite !filter_cons. cbn [fst].
  destruct (decide (KaraokeDB.in_queue (Song.status s) = true)) as [Hq|Hq].
  - rewrite fmap_cons, filter_cons.
    change (QueuedSong.status (KaraokeDB.to_song (s, u))) with (Song.status s).
    destruct (decide (Song.status s = playing)); cbn [length]; now rewrite IH.
  - destruct (decide (Song.status s = playing)) as [E|E]; [|exact IH].
    rewrite E in Hq. now contradiction Hq.
Qed.

Lemma joined_playing_le w :
  (length (filter (fun su : Song.row * User.t => Song.status su.1 = playing)
                  (KaraokeDB.joined w)) <= playing_count w)%nat.
Proof.
  unfold playing_count, KaraokeDB.joined.
  induction (songs w) as [|s l IH]; [reflexivity|].
  cbn [omap list_omap]. rewrite (filter_cons _ s).
  destruct (find _ (users w)) as [u|].
  - rewrite filter_cons. cbn [fst].
    destruct (decide (Song.status s = playing)); cbn [length]; lia.
  - destruct (decide (Song.status s = playing)); cbn [length]; lia.
Qed.

Lemma find_none_filter {A} (P : A -> Prop) `{!forall x, Decision (P x)} (l : list A) :
  find (fun x => bool_decide (P x)) l = None -> filter P l = [].
Proof.
  induction l as [|x l IH]; [reflexivity|]. cbn [find].
  destruct (bool_decide (P x)) eqn:E; [discriminate|].
  apply bool_decide_eq_false in E. intros F. rewrite filter_cons.
  destruct (decide _); [contradiction | now apply IH].
Qed.

Lemma filter_none_keeps_all {A} (P : A -> Prop) `{!forall x, Decision (P x)} (l : list A) :
  filter P l = [] -> List.filter (fun x => negb (bool_decide (P x))) l = l.
Proof.
  induction l as [|x l IH]; [reflexivity|]. rewrite filter_cons. cbn [List.filter].
  destruct (decide (P x)) as [E|E]; [discriminate|]. intros F.
  rewrite (bool_decide_eq_false_2 _ E). cbn [negb]. f_equal. now apply IH.
Qed.

End QueueView.

(** X26: What [GET /api/queue] shows: the listed queue holds no playing song,
    [current] is a playing song of the queue when there is one, and
    while no more than one song plays [total] is the length of the list
    plus one for the current song. *)
Theorem GET_counts_the_current_song w :
  let view := QueueRoutes.GET w in
  Forall (fun song => QueuedSong.status song ∈ [queued; processing; ready]) (queue view) /\
  match current view with
  | Some song => QueuedSong.status song = playing /\ song ∈ KaraokeDB.getQueue w
  | None => queue view = KaraokeDB.getQueue w
  end /\
  ((playing_count w <= 1)%nat ->
   total view = Z.of_nat (length (queue view)) + match current view with Some _ => 1 | None => 0 end).
Proof.
  cbn zeta. unfold QueueRoutes.GET. cbn [queue current total].
  assert (Hin : forall song, song ∈ KaraokeDB.getQueue w ->
                             KaraokeDB.in_queue (QueuedSong.status song) = true).
  { intros song. rewrite getQueue_perm.
    intros ([s u] & -> & [Hq _]%list_elem_of_filter)%list_elem_of_fmap. exact Hq. }
  split; [|split].
  - apply Forall_forall. intros song [Hs Hnp]%list_elem_of_In%filter_In.
    apply list_elem_of_In, Hin in Hs. apply negb_true_iff, bool_decide_eq_false in Hnp.
    destruct (QueuedSong.status song); try discriminate Hs; try contradiction;
      set_solver.
  - unfold KaraokeDB.getCurrentSong.
    destruct (find _ (KaraokeDB.joined w)) as [[s u]|] eqn:F; cbn [option_map].
    + apply find_some in F as [Hsu Hp]. cbn [fst] in Hp. apply bool_decide_eq_true in Hp.
      split; [exact Hp|]. rewrite getQueue_perm. apply list_elem_of_fmap.
      exists (s, u). split; [reflexivity|]. apply list_elem_of_filter.
      split; [cbn [fst]; now rewrite Hp | now apply list_elem_of_In].
    + assert (Hnone : filter (fun song => QueuedSong.status song = playing)
                             (KaraokeDB.getQueue w) = []).
      { apply length_zero_iff_nil. rewrite playing_in_queue.
        apply length_zero_iff_nil.
        now apply (find_none_filter (fun su : Song.row * User.t =>
                                       Song.status su.1 = playing)). }
      now apply (filter_none_keeps_all (fun song => QueuedSong.status song = playing)).
  - intros Hone.
    pose proof (filter_playing_split (KaraokeDB.getQueue w)) as Hsplit.
    pose proof (playing_in_queue w) as Hplay.
    pose proof (joined_playing_le w) as Hle.
    unfold KaraokeDB.getCurrentSong.
    destruct (find _ (KaraokeDB.joined w)) as [[s u]|] eqn:F; cbn [option_map].
    + apply find_some in F as [Hsu Hp]. cbn [fst] in Hp. apply bool_decide_eq_true in Hp.
      assert (Hpos : (1 <= length (filter (fun su : Song.row * User.t =>
                                             Song.status su.1 = playing)
                                          (KaraokeDB.joined w)))%nat).
      { assert (Hm : (s, u) ∈ filter (fun su : Song.row * User.t =>
                                         Song.status su.1 = playing) (KaraokeDB.joined w)).
        { apply list_elem_of_filter. split; [exact Hp | now apply list_elem_of_In]. }
        destruct (filter _ (KaraokeDB.joined w)); [inversion Hm | cbn [length]; lia]. }
      lia.
    + assert (Hzero : length (filter (fun su : Song.row * User.t =>
                                        Song.status su.1 = playing)
                                     (KaraokeDB.joined w)) = 0%nat).
      { apply length_zero_iff_nil.
        now apply (find_none_filter (fun su : Song.row * User.t =>
                                       Song.status su.1 = playing)). }
      lia.
Qed.

Section Split.

Lemma of_list_app l l' : path.of_list (l ++ l') = path.of_list l +:+ path.of_list l'.
Proof.
  induction l as [|c l IH]; [reflexivity|]. cbn [app path.of_list].
  change (String c (path.of_list l) +:+ path.of_list l')
    with (String c (path.of_list l +:+ path.of_list l')).
  now rewrite IH.
Qed.

Lemma of_list_snoc l c s : path.of_list (l ++ [c]) +:+ s = path.of_list l +:+ String c s.
Proof.
  induction l as [|c' l IH]; [reflexivity|]. cbn [app path.of_list].
  change (String c' (path.of_list (l ++ [c])) +:+ s)
    with (String c' (path.of_list (l ++ [c]) +:+ s)).
  now rewrite IH.
Qed.

Lemma startsWith_empty s : JS.startsWith s "" = true.
Proof. now destruct s. Qed.

Lemma startsWith_hyphen_false s t :
  lacks "-" s = true -> JS.startsWith (s +:+ String " " t) "- " = false.
Proof.
  destruct s as [|c s]; [reflexivity|]. cbn [lacks].
  intros [Hc%negb_true_iff _]%andb_prop.
  change (String c s +:+ String " " t) with (String c (s +:+ String " " t)).
  cbn [JS.startsWith]. now rewrite Hc.
Qed.

Lemma split_no_hyphen s : forall cur,
  lacks "-" s = true ->
  Text.split_from " - " s 0 cur = [path.of_list (rev cur) +:+ s].
Proof.
  induction s as [|c s IH]; intros cur Hs.
  - cbn. now rewrite append_empty_r.
  - cbn [lacks] in Hs. apply andb_prop in Hs as [Hc Hs].
    cbn [Text.split_from].
    assert (Hno : JS.startsWith (String c s) " - " = false).
    { cbn [JS.startsWith]. destruct (Ascii.eqb c " "); [|reflexivity]. cbn [andb].
      destruct s as [|c2 s2]; [reflexivity|]. cbn [JS.startsWith lacks] in *.
      apply andb_prop in Hs as [Hc2%negb_true_iff _]. now rewrite Hc2. }
    rewrite Hno, (IH (c :: cur) Hs). cbn [rev]. now rewrite of_list_snoc.
Qed.

Lemma split_at_hyphen a : forall cur t,
  lacks "-" a = true ->
  Text.split_from " - " (a +:+ " - " +:+ t) 0 cur
  = (path.of_list (rev cur) +:+ a) :: Text.split_from " - " t 0 [].
Proof.
  induction a as [|c a IH]; intros cur t Ha.
  - change ("" +:+ " - " +:+ t) with (String " " (String "-" (String " " t))).
    cbn. rewrite startsWith_empty. now rewrite append_empty_r.
  - cbn [lacks] in Ha. apply andb_prop in Ha as [Hc Ha].
    change (String c a +:+ " - " +:+ t) with (String c (a +:+ " - " +:+ t)).
    cbn [Text.split_from].
    assert (Hno : JS.startsWith (String c (a +:+ " - " +:+ t)) " - " = false).
    { cbn [JS.startsWith]. destruct (Ascii.eqb c " "); [|reflexivity]. cbn [andb].
      now apply startsWith_hyphen_false. }
    rewrite Hno, (IH (c :: cur) t Ha). cbn [rev]. now rewrite of_list_snoc.
Qed.

Lemma includes_app a s p :
  JS.startsWith s p = true -> JS.includes (a +:+ s) p = true.
Proof.
  intros Hs. induction a as [|c a IH].
  - change ("" +:+ s) with s. destruct s; cbn [JS.includes]; now rewrite Hs.
  - change (String c a +:+ s) with (String c (a +:+ s)). cbn [JS.includes].
    rewrite IH. apply orb_true_r.
Qed.

End Split.

(** X27: A query of the form "artist - title" is read as it is meant when
    neither part holds a hyphen: the title and the artist are the two
    parts, trimmed. *)
Theorem parseQuery_artist_title artist title :
  lacks "-" artist = true -> lacks "-" title = true ->
  RequestRoute.parseQuery (artist +:+ " - " +:+ title) = (JS.trim title, JS.trim artist).
Proof.
  intros Ha Ht. unfold RequestRoute.parseQuery.
  rewrite (includes_app artist (" - " +:+ title) " - ")
    by (change (" - " +:+ title) with (String " " (String "-" (String " " title)));
        cbn; apply startsWith_empty).
  unfold Text.split. rewrite (split_at_hyphen artist [] title Ha).
  rewrite (split_no_hyphen title [] Ht). reflexivity.
Qed.

Lemma parseQuery_artist_title_witness :
  RequestRoute.parseQuery "Queen  - Bohemian Rhapsody " = ("Bohemian Rhapsody", "Queen").
Proof.
  apply (parseQuery_artist_title "Queen " "Bohemian Rhapsody "); reflexivity.
Defined.

Section Request.

Lemma getSong_ext id w w' :
  songs w' = songs w -> users w' = users w ->
  KaraokeDB.getSong id w' = KaraokeDB.getSong id w.
Proof. unfold KaraokeDB.getSong, KaraokeDB.joined. now intros -> ->. Qed.

Lemma getSong_updateSongStatus_same id st p w song :
  KaraokeDB.getSong id w = Some song ->
  KaraokeDB.getSong id (KaraokeDB.updateSongStatus id st (Some p) w)
  = Some (QueuedSong.mk (QueuedSong.id song) (QueuedSong.user song)
            (QueuedSong.songTitle song) (QueuedSong.artist song)
            (QueuedSong.requestedAt song) st p (QueuedSong.karaoke song)).
Proof.
  unfold KaraokeDB.getSong. rewrite joined_updateSongStatus.
  induction (KaraokeDB.joined w) as [|[s u] l IH]; [discriminate|].
  cbn [map find fst snd].
  destruct (String.eqb (Song.id s) id) eqn:E.
  - cbn [Song.id Song.set_progress Song.set_status]. rewrite E. cbn [option_map].
    intros [= <-]. reflexivity.
  - rewrite E. exact IH.
Qed.

(** A run that nobody awaits, for a song that is found and without the
    flag of the cache, when the event loop turns to input and output. *)
Lemma processKaraokeSong_settled songId options w song :
  KaraokeDB.getSong songId w = Some song -> useCache options <> Some true ->
  let out := settle (AutonomousProcessor.processKaraokeSong songId options) w in
  autonomous_jobs out.1 !! songId = Some (AutonomousProcessor.make_job songId options) /\
  songs out.1
  = songs (KaraokeDB.updateSongStatus songId processing (Some 10)
             (KaraokeDB.updateSongStatus songId processing (Some 5) w)) /\
  users out.1 = users w /\
  waits_for (FindBestMatch (QueuedSong.songTitle song) (QueuedSong.artist song) 3) out.2.
Proof.
  intros Hsong Hflag out. subst out.
  unfold AutonomousProcessor.processKaraokeSong, AutonomousProcessor.pipeline.
  cbn [mbind Proc_bind exec read sync await_async bind finally try_catch settle].
  change (KaraokeDB.getSong songId (with_autonomous_jobs _ w))
    with (KaraokeDB.getSong songId w).
  rewrite Hsong.
  cbn [mbind Proc_bind exec read sync await_async bind finally try_catch settle].
  match goal with
  | |- context [CacheManager.checkCache ?t ?a ?q ?w0] =>
      pose proof (checkCache_frame t a q w0) as Hf;
      destruct (CacheManager.checkCache t a q w0) as [w1 cached]
  end.
  cbn [fst snd] in Hf. unfold orchestration in Hf. cbn in Hf.
  injection Hf as Hu Hs Hj Hp.
  assert (Hfull : match cached, useCache options with
                  | Some cached, Some true => AutonomousProcessor.useCached songId cached
                  | _, _ => AutonomousProcessor.fullPipeline songId
                              (QueuedSong.songTitle song) (QueuedSong.artist song) options
                              (AutonomousProcessor.make_job songId options)
                  end
                  = AutonomousProcessor.fullPipeline songId
                      (QueuedSong.songTitle song) (QueuedSong.artist song) options
                      (AutonomousProcessor.make_job songId options)).
  { destruct cached; destruct (useCache options) as [[]|]; try reflexivity.
    now contradiction Hflag. }
  cbn [bind finally try_catch settle]. rewrite Hfull.
  unfold AutonomousProcessor.fullPipeline, AutonomousProcessor.acquireAudio.
  cbn [mbind Proc_bind exec read sync await await_async bind finally try_catch settle
       fst snd waits_for].
  split; [|split; [|split]]; try reflexivity.
  - change (autonomous_jobs (KaraokeDB.updateSongStatus songId processing (Some 10) w1))
      with (autonomous_jobs w1).
    rewrite Hj. apply lookup_insert_eq.
  - unfold KaraokeDB.updateSongStatus at 1 3. cbn [songs emit with_songs]. now rewrite Hs.
  - change (users (KaraokeDB.updateSongStatus songId processing (Some 10) w1))
      with (users w1). exact Hu.
Qed.

End Request.

(** X28: What a request leaves when it is answered: with a name, a query and
    a fresh song id, the answer carries the id, the user is in the
    table, the song reads as processing at 10 percent with the title and
    the artist that were read in the query, its job is registered, and
    the run waits for the search of the torrents. *)
Theorem POST_queues_the_song userName searchQuery processingQuality outputFormat
    userId songId userColor now w :
  JS.truthy userName = true -> JS.truthy searchQuery = true ->
  songId ∉ Song.id <$> songs w ->
  let out := RequestRoute.POST userName searchQuery processingQuality outputFormat
               userId songId userColor now w in
  let user := User.mk userId (JS.trim (default "" userName)) userColor in
  let parsed := RequestRoute.parseQuery (default "" searchQuery) in
  out.1.2 = RequestRoute.Added songId /\
  KaraokeDB.getUser userId out.1.1 = Some user /\
  KaraokeDB.getSong songId out.1.1
  = Some (QueuedSong.mk songId user parsed.1 parsed.2 now processing 10 None) /\
  isProcessing (AutonomousProcessor.getProcessingStatus songId out.1.1) = true /\
  exists job, out.2 = Some job /\ waits_for (FindBestMatch parsed.1 parsed.2 3) job.
Proof.
  intros Hname Hquery Hfresh out user parsed. subst out.
  unfold RequestRoute.POST. rewrite Hname, Hquery. cbn [negb orb]. fold user.
  destruct (RequestRoute.parseQuery (default "" searchQuery)) as [songTitle artist] eqn:Hp.
  subst parsed. cbn [fst snd].
  set (song := QueuedSong.mk songId user songTitle artist now queued 0 None).
  set (w1 := KaraokeDB.addUser user w).
  assert (Huser : KaraokeDB.getUser userId w1 = Some user).
  { unfold KaraokeDB.getUser, w1, KaraokeDB.addUser. cbn [users with_users].
    apply find_app_fresh; [|apply String.eqb_refl].
    apply Forall_forall. intros u [Hne _]%list_elem_of_filter. now apply String.eqb_neq. }
  destruct (addSong_fresh song user w1 Hfresh Huser) as [-> Hj].
  set (w2 := with_songs (fun rows => rows ++ [KaraokeDB.new_row song]) w1) in *.
  assert (Hsong : KaraokeDB.getSong songId w2 = Some song).
  { unfold KaraokeDB.getSong. rewrite Hj, find_app_fresh; [reflexivity| |].
    - now apply (joined_fresh songId w1).
    - cbn. apply String.eqb_refl. }
  set (options := mkAutonomousProcessingOptions _ _ _ _).
  destruct (processKaraokeSong_settled songId options w2 song Hsong ltac:(discriminate))
    as (Hjob & Hs & Hu & Hwait).
  destruct (settle (AutonomousProcessor.processKaraokeSong songId options) w2) as [w3 job].
  cbn [fst snd] in *. split; [reflexivity|]. split; [|split; [|split]].
  - unfold KaraokeDB.getUser. rewrite Hu. exact Huser.
  - rewrite (getSong_ext songId
               (KaraokeDB.updateSongStatus songId processing (Some 10)
                  (KaraokeDB.updateSongStatus songId processing (Some 5) w2)) w3)
      by (rewrite ?Hs, ?Hu; reflexivity).
    rewrite (getSong_updateSongStatus_same songId processing 10 _ _
               (getSong_updateSongStatus_same songId processing 5 w2 song Hsong)).
    reflexivity.
  - unfold AutonomousProcessor.getProcessingStatus. cbn [isProcessing].
    rewrite Hjob. apply bool_decide_eq_true. eauto.
  - exists job. split; [reflexivity | exact Hwait].
Qed.

Lemma POST_queues_the_song_witness :
  let out := RequestRoute.POST (Some "Bob ") (Some "Toto - Africa") None None
               "u2" "s2" "bg-blue-500" "2024-05-01T20:05:00.000Z"
               (Sample.world [Sample.bohemian] [] ∅) in
  let bob := User.mk "u2" "Bob" "bg-blue-500" in
  out.1.2 = RequestRoute.Added "s2" /\
  KaraokeDB.getSong "s2" out.1.1
  = Some (QueuedSong.mk "s2" bob "Africa" "Toto" "2024-05-01T20:05:00.000Z" processing 10
            None) /\
  isProcessing (AutonomousProcessor.getProcessingStatus "s2" out.1.1) = true.
Proof.
  destruct (POST_queues_the_song (Some "Bob ") (Some "Toto - Africa") None None
              "u2" "s2" "bg-blue-500" "2024-05-01T20:05:00.000Z"
              (Sample.world [Sample.bohemian] [] ∅)) as (H1 & _ & H3 & H4 & _).
  - reflexivity.
  - reflexivity.
  - cbn. intros [=]%list_elem_of_singleton.
  - cbn zeta in *. split; [exact H1 | split; [exact H3 | exact H4]].
Defined.
